(** * 2048: the board engine of the two scripts, embedded and verified

    The repository holds two versions of the game:
    - [src/js.js], the full-redraw version: the board is a 4x4 array of
      numbers ([0] is an empty cell), every line is resolved by [slide];
    - [src/unnamed/part_000], the animated version: the board is a 4x4 array
      of references to [Tile] objects (or [null]), tiles are scanned cell by
      cell and merges are deferred until the slide animation has run.

    Numbers are modelled as [Z] (tile values and the score stay far below
    2^53, where JavaScript numbers are exact integers).  The DOM (tile
    elements, score display, game-over banner) is presentation only and is
    left out of the two engines; the tile elements and the score display
    are added to them in the modules on the page.  [Math.random] is
    modelled by two arguments of [spawnTile]: the index it selects among
    the empty cells and the outcome of the test [Math.random() < 0.9]. *)

From stdpp Require Import base numbers list strings.
From Stdlib Require Import ZArith QArith Lia ZifyBool.

Open Scope Z_scope.

(** [const SIZE = 4] (both scripts). *)
Definition SIZE : nat := 4.

(** [[0, 1, ..., SIZE-1]], the range of the [for] loops. *)
Definition indices : list nat := seq 0 SIZE.

(** [['ArrowUp', 'ArrowDown', 'ArrowLeft', 'ArrowRight'].includes(e.key)],
    the test of the [keydown] listener (both scripts). *)
Definition isArrowKey (key : string) : bool :=
  bool_decide (key ∈ ["ArrowUp"; "ArrowDown"; "ArrowLeft"; "ArrowRight"]).

(** * The full-redraw version, [src/js.js] *)
Module Redraw.

(** The globals [grid] and [score]. *)
Record State := mkState { grid : list (list Z); score : Z }.

(** [grid[r][c]].  The grid is a 4x4 array from [restartGame] on and the
    loops stay within it.  Outside it, where JavaScript reads [undefined],
    the lookup below reads the default number of the list library and the
    update below does nothing; the results on 4x4 grids do not depend on
    it. *)
Definition at2 (g : list (list Z)) (r c : nat) : Z := (g !!! r) !!! c.

(** [grid[r][c] = v] *)
Definition set2 (g : list (list Z)) (r c : nat) (v : Z) : list (list Z) :=
  <[r := <[c := v]> (g !!! r)]> g.

(** [row.filter(val => val !== 0)] *)
Definition nonzero (row : list Z) : list Z :=
  List.filter (fun val => negb (val =? 0)) row.

(** The merge loop of [slide], [for (let i = 0; i < arr.length - 1; i++)]:
    [n] iterations remain, [i] is the loop index; [arr] is updated in
    place and [score] is the global. *)
Fixpoint mergeLoop (n i : nat) (arr : list Z) (score : Z) : list Z * Z :=
  match n with
  | O => (arr, score)
  | S n' =>
      match arr !! i, arr !! S i with
      | Some x, Some y =>
          if x =? y
          then mergeLoop n' (S i) (<[S i := 0]> (<[i := x * 2]> arr)) (score + x * 2)
          else mergeLoop n' (S i) arr score
      | _, _ => mergeLoop n' (S i) arr score
      end
  end.

(** [while (arr.length < SIZE) arr.push(0)] *)
Definition pad (arr : list Z) : list Z :=
  arr ++ replicate (SIZE - length arr) 0.

(** [slide(row)]: the new row and the updated global [score]. *)
Definition slide (row : list Z) (score : Z) : list Z * Z :=
  let arr := nonzero row in
  let '(arr, score) := mergeLoop (length arr - 1) 0 arr score in
  (pad (nonzero arr), score).

(** The locals of [move]: [newGrid], [hasMoved], and the global [score]
    that [slide] updates on the way. *)
Record Acc := mkAcc { newGrid : list (list Z); hasMoved : bool; sc : Z }.

(** [JSON.stringify(a) !== JSON.stringify(b)] on arrays of numbers. *)
Definition differ (a b : list Z) : bool := bool_decide (a ≠ b).

(** Body of the [ArrowLeft] loop. *)
Definition leftRow (acc : Acc) (r : nat) : Acc :=
  let '(newRow, s) := slide (newGrid acc !!! r) (sc acc) in
  {| newGrid := <[r := newRow]> (newGrid acc);
     hasMoved := hasMoved acc || differ (newGrid acc !!! r) newRow;
     sc := s |}.

(** Body of the [ArrowRight] loop.  [newGrid[r].reverse()] reverses the
    row of [newGrid] in place and [row] is that same array, so the
    comparison that follows reads the reversed row. *)
Definition rightRow (acc : Acc) (r : nat) : Acc :=
  let g1 := <[r := reverse (newGrid acc !!! r)]> (newGrid acc) in
  let row := g1 !!! r in
  let '(newRow, s) := slide row (sc acc) in
  let newRow := reverse newRow in
  {| newGrid := <[r := newRow]> g1;
     hasMoved := hasMoved acc || differ (g1 !!! r) newRow;
     sc := s |}.

(** [for (let r = 0; r < SIZE; r++) col.push(newGrid[r][c])] *)
Definition column (g : list (list Z)) (c : nat) : list Z :=
  map (fun r => at2 g r c) indices.

(** The write-back loop of the vertical moves:
    [if (newGrid[r][c] !== newCol[r]) hasMoved = true; newGrid[r][c] = newCol[r]]. *)
Definition writeCol (c : nat) (newCol : list Z) (s : Z) (acc : Acc) : Acc :=
  foldl (fun a r =>
           {| newGrid := set2 (newGrid a) r c (newCol !!! r);
              hasMoved := hasMoved a || negb (at2 (newGrid a) r c =? newCol !!! r);
              sc := sc a |})
        {| newGrid := newGrid acc; hasMoved := hasMoved acc; sc := s |}
        indices.

(** Body of the [ArrowUp] loop. *)
Definition upCol (acc : Acc) (c : nat) : Acc :=
  let col := column (newGrid acc) c in
  let '(newCol, s) := slide col (sc acc) in
  writeCol c newCol s acc.

(** Body of the [ArrowDown] loop; here [col] is a fresh array. *)
Definition downCol (acc : Acc) (c : nat) : Acc :=
  let col := reverse (column (newGrid acc) c) in
  let '(newCol, s) := slide col (sc acc) in
  writeCol c (reverse newCol) s acc.

(** The first part of [move]: the four branches on [direction]. *)
Definition resolve (direction : string) (st : State) : Acc :=
  let acc := {| newGrid := grid st; hasMoved := false; sc := score st |} in
  if String.eqb direction "ArrowLeft" then foldl leftRow acc indices
  else if String.eqb direction "ArrowRight" then foldl rightRow acc indices
  else if String.eqb direction "ArrowUp" then foldl upCol acc indices
  else if String.eqb direction "ArrowDown" then foldl downCol acc indices
  else acc.

(** The cells pushed to [emptyCells], in push order. *)
Definition emptyCells (g : list (list Z)) : list (nat * nat) :=
  r ← indices; c ← indices; if at2 g r c =? 0 then [(r, c)] else [].

(** [spawnTile()]: [k] stands for [Math.floor(Math.random() * emptyCells.length)]
    (any index below the length; it is reduced modulo the length here) and
    [lt09] for [Math.random() < 0.9]. *)
Definition spawnTile (k : nat) (lt09 : bool) (st : State) : State :=
  let cells := emptyCells (grid st) in
  match cells !! (k `mod` length cells)%nat with
  | None => st
  | Some (r, c) =>
      {| grid := set2 (grid st) r c (if lt09 then 2 else 4); score := score st |}
  end.

(** One pass of the body of the loops of [isGameOver]: does the cell make
    the function return [false]? *)
Definition blocks (g : list (list Z)) (r c : nat) : bool :=
  (at2 g r c =? 0)
  || (bool_decide (c < SIZE - 1)%nat && (at2 g r c =? at2 g r (c + 1)))
  || (bool_decide (r < SIZE - 1)%nat && (at2 g r c =? at2 g (r + 1) c)).

(** [isGameOver()] *)
Definition isGameOver (g : list (list Z)) : bool :=
  forallb (fun r => forallb (fun c => negb (blocks g r c)) indices) indices.

(** [move(direction)].  The game-over test only drives the banner. *)
Definition move (direction : string) (k : nat) (lt09 : bool) (st : State) : State :=
  let acc := resolve direction st in
  if hasMoved acc
  then spawnTile k lt09 {| grid := newGrid acc; score := sc acc |}
  else {| grid := grid st; score := sc acc |}.

(** [restartGame()] *)
Definition restartGame (k1 : nat) (b1 : bool) (k2 : nat) (b2 : bool) : State :=
  spawnTile k2 b2
    (spawnTile k1 b1 {| grid := replicate SIZE (replicate SIZE 0); score := 0 |}).

(** The [keydown] listener: [if (...includes(e.key)) move(e.key)]. *)
Definition keydown (key : string) (k : nat) (lt09 : bool) (st : State) : State :=
  if isArrowKey key then move key k lt09 st else st.

End Redraw.

(** * The animated version, [src/unnamed/part_000] *)
Module Anim.

(** A [Tile] object without its DOM element: [this.value], [this.r],
    [this.c]. *)
Record Tile := mkTile { value : Z; tr : Z; tc : Z }.

(** Tiles are objects: the board, the local [tile] and [target] and the
    entries of [promises] hold references to them.  A reference is an
    index into the store [heap]. *)
Abbreviation ref := nat.

(** The globals [cells], [score] and [isProcessing], and the store. *)
Record State := mkState {
  cells : list (list (option ref));
  heap : list Tile;
  score : Z;
  isProcessing : bool
}.

(** An entry [{ type: 'merge', from, into, r, c }] of [promises]. *)
Record Merge := mkMerge { from : ref; into : ref; mr : Z; mc : Z }.

(** The state of the scan of [move]: the globals and the locals
    [mergedFlags], [hasMoved] and [promises]. *)
Record Scan := mkScan {
  st : State;
  mergedFlags : list (list bool);
  hasMoved : bool;
  promises : list Merge
}.

(** [cells[r][c]], for coordinates that passed the bounds check ([null]
    is [None]; so is a cell outside the array, which the code never
    reads). *)
Definition cellAt (cs : list (list (option ref))) (p : Z * Z) : option ref :=
  match cs !! Z.to_nat p.1 with
  | Some row => match row !! Z.to_nat p.2 with Some cell => cell | None => None end
  | None => None
  end.

(** [cells[r][c] = x] *)
Definition setCell (cs : list (list (option ref))) (p : Z * Z) (x : option ref)
  : list (list (option ref)) :=
  alter (fun row => <[Z.to_nat p.2 := x]> row) (Z.to_nat p.1) cs.

(** [mergedFlags[r][c]] *)
Definition flagAt (fs : list (list bool)) (p : Z * Z) : bool :=
  match fs !! Z.to_nat p.1 with
  | Some row => match row !! Z.to_nat p.2 with Some b => b | None => false end
  | None => false
  end.

(** [mergedFlags[r][c] = true] *)
Definition setFlag (fs : list (list bool)) (p : Z * Z) : list (list bool) :=
  alter (fun row => <[Z.to_nat p.2 := true]> row) (Z.to_nat p.1) fs.

(** [tile.value] *)
Definition valueOf (h : list Tile) (t : ref) : Z :=
  match h !! t with Some tile => value tile | None => 0 end.

(** [tile.setPosition(r, c)] *)
Definition setPosition (h : list Tile) (t : ref) (p : Z * Z) : list Tile :=
  alter (fun tile => {| value := value tile; tr := p.1; tc := p.2 |}) t h.

(** [tile.setValue(v)] *)
Definition setValue (h : list Tile) (t : ref) (v : Z) : list Tile :=
  alter (fun tile => {| value := v; tr := tr tile; tc := tc tile |}) t h.

(** [for (let x = start; x !== end; x += step)]: the values [x] takes;
    both loops of [move] make [SIZE] passes. *)
Fixpoint loopRange (fuel : nat) (x stop step : Z) : list Z :=
  match fuel with
  | O => []
  | S fuel' => if x =? stop then [] else x :: loopRange fuel' (x + step) stop step
  end.

(** The cells in the order the two nested loops of [move] visit them. *)
Definition scanOrder (direction : string) : list (Z * Z) :=
  let '(cStart, cEnd, cStep) :=
    if String.eqb direction "ArrowRight" then (Z.of_nat SIZE - 1, -1, -1)
    else (0, Z.of_nat SIZE, 1) in
  let '(rStart, rEnd, rStep) :=
    if String.eqb direction "ArrowDown" then (Z.of_nat SIZE - 1, -1, -1)
    else (0, Z.of_nat SIZE, 1) in
  r ← loopRange SIZE rStart rEnd rStep;
  c ← loopRange SIZE cStart cEnd cStep;
  [(r, c)].

(** [checkR], [checkC] after the chain of [if ... else if] on [direction]. *)
Definition ahead (direction : string) (p : Z * Z) : Z * Z :=
  if String.eqb direction "ArrowUp" then (p.1 - 1, p.2)
  else if String.eqb direction "ArrowDown" then (p.1 + 1, p.2)
  else if String.eqb direction "ArrowLeft" then (p.1, p.2 - 1)
  else if String.eqb direction "ArrowRight" then (p.1, p.2 + 1)
  else p.

(** The bounds check:
    [checkR < 0 || checkR >= SIZE || checkC < 0 || checkC >= SIZE]. *)
Definition outside (p : Z * Z) : bool :=
  (p.1 <? 0) || (p.1 >=? Z.of_nat SIZE) || (p.2 <? 0) || (p.2 >=? Z.of_nat SIZE).

(** The [while (true)] loop that computes [(nextR, nextC)].  Every pass
    but the last moves one cell towards the border, so [SIZE] passes are
    enough (lemma [farthest_fuel]); [fuel] bounds the number of passes. *)
Fixpoint farthest (fuel : nat) (direction : string)
    (cs : list (list (option ref))) (h : list Tile) (fs : list (list bool))
    (tile : ref) (next : Z * Z) : Z * Z :=
  match fuel with
  | O => next
  | S fuel' =>
      let check := ahead direction next in
      if outside check then next
      else match cellAt cs check with
           | None => farthest fuel' direction cs h fs tile check
           | Some target =>
               if (valueOf h target =? valueOf h tile) && negb (flagAt fs check)
               then check
               else next
           end
  end.

(** The body of the inner [for] loop of [move] at the cell [p]. *)
Definition processCell (direction : string) (s : Scan) (p : Z * Z) : Scan :=
  match cellAt (cells (st s)) p with
  | None => s
  | Some tile =>
      let next :=
        farthest SIZE direction (cells (st s)) (heap (st s)) (mergedFlags s) tile p in
      if bool_decide (next ≠ p) then
        let target := cellAt (cells (st s)) next in
        let cells1 := setCell (cells (st s)) p None in
        let heap1 := setPosition (heap (st s)) tile next in
        match target with
        | Some t =>
            {| st := {| cells := cells1; heap := heap1;
                        score := score (st s); isProcessing := isProcessing (st s) |};
               mergedFlags := setFlag (mergedFlags s) next;
               hasMoved := true;
               promises := promises s ++ [mkMerge tile t next.1 next.2] |}
        | None =>
            {| st := {| cells := setCell cells1 next (Some tile); heap := heap1;
                        score := score (st s); isProcessing := isProcessing (st s) |};
               mergedFlags := mergedFlags s;
               hasMoved := true;
               promises := promises s |}
        end
      else s
  end.

(** The locals [mergedFlags], [hasMoved] and [promises] when the scan
    starts. *)
Definition scanStart (s0 : State) : Scan :=
  {| st := s0;
     mergedFlags := replicate SIZE (replicate SIZE false);
     hasMoved := false;
     promises := [] |}.

(** The synchronous part of [move], up to [if (hasMoved)]. *)
Definition scan (direction : string) (s0 : State) : Scan :=
  foldl (processCell direction) (scanStart s0) (scanOrder direction).

(** The body of [promises.forEach]: the survivor doubles, the score
    grows by its new value, the cell points to the survivor. *)
Definition applyMerge (s : State) (p : Merge) : State :=
  let heap1 := setValue (heap s) (into p) (valueOf (heap s) (into p) * 2) in
  {| cells := setCell (cells s) (mr p, mc p) (Some (into p));
     heap := heap1;
     score := score s + valueOf heap1 (into p);
     isProcessing := isProcessing s |}.

(** The cells pushed to [emptyCells], in push order. *)
Definition emptyCells (cs : list (list (option ref))) : list (nat * nat) :=
  r ← indices; c ← indices;
  match cellAt cs (Z.of_nat r, Z.of_nat c) with None => [(r, c)] | Some _ => [] end.

(** [spawnTile()]; [k] and [lt09] as in the other script.  [new Tile]
    allocates the next reference of the store. *)
Definition spawnTile (k : nat) (lt09 : bool) (s : State) : State :=
  let free := emptyCells (cells s) in
  match free !! (k `mod` length free)%nat with
  | None => s
  | Some (r, c) =>
      let p := (Z.of_nat r, Z.of_nat c) in
      {| cells := setCell (cells s) p (Some (length (heap s)));
         heap := heap s ++ [mkTile (if lt09 then 2 else 4) p.1 p.2];
         score := score s;
         isProcessing := isProcessing s |}
  end.

(** The state once the merges are applied, before [spawnTile()]. *)
Definition settle (s : Scan) : State := foldl applyMerge (st s) (promises s).

Definition setProcessing (b : bool) (s : State) : State :=
  {| cells := cells s; heap := heap s; score := score s; isProcessing := b |}.

(** [move(direction)].  The function is suspended once, for the length of
    the animation; [isProcessing] makes every [move] that arrives in
    between return at once, so the two halves are composed here. *)
Definition move (direction : string) (k : nat) (lt09 : bool) (s0 : State) : State :=
  if isProcessing s0 then s0
  else
    let s := scan direction (setProcessing true s0) in
    setProcessing false
      (if hasMoved s then spawnTile k lt09 (settle s) else st s).

(** One pass of the body of the loops of [checkGameOver]: does the cell
    make the function return [false]? *)
Definition blocks (s : State) (r c : nat) : bool :=
  match cellAt (cells s) (Z.of_nat r, Z.of_nat c) with
  | None => true
  | Some t =>
      let val := valueOf (heap s) t in
      (bool_decide (c < SIZE - 1)%nat
       && match cellAt (cells s) (Z.of_nat r, Z.of_nat (c + 1)) with
          | Some t' => valueOf (heap s) t' =? val
          | None => false
          end)
      || (bool_decide (r < SIZE - 1)%nat
          && match cellAt (cells s) (Z.of_nat (r + 1), Z.of_nat c) with
             | Some t' => valueOf (heap s) t' =? val
             | None => false
             end)
  end.

(** [checkGameOver()] *)
Definition checkGameOver (s : State) : bool :=
  forallb (fun r => forallb (fun c => negb (blocks s r c)) indices) indices.

(** The board that [setupBoard] and [restartGame] create before they
    spawn the first two tiles. *)
Definition emptyBoard : State :=
  {| cells := replicate SIZE (replicate SIZE None); heap := [];
     score := 0; isProcessing := false |}.

(** [restartGame()] (and the end of [setupBoard]). *)
Definition restartGame (k1 : nat) (b1 : bool) (k2 : nat) (b2 : bool) : State :=
  spawnTile k2 b2 (spawnTile k1 b1 emptyBoard).

(** The numbers on the board, [0] for an empty cell: the view that the
    other script stores as [grid]. *)
Definition values (s : State) : list (list Z) :=
  map (map (fun cell => match cell with
                        | Some t => valueOf (heap s) t
                        | None => 0
                        end)) (cells s).

(** The [keydown] listener: [if (...includes(e.key)) move(e.key)]. *)
Definition keydown (key : string) (k : nat) (lt09 : bool) (s : State) : State :=
  if isArrowKey key then move key k lt09 s else s.

End Anim.

(** * Boards as arrays of arrays *)

(** A [SIZE] x [SIZE] array of arrays. *)
Definition wf {A} (g : list (list A)) : Prop :=
  length g = SIZE ∧ Forall (fun row => length row = SIZE) g.

(** Coordinates that pass the bounds check of [move]. *)
Definition inside (p : Z * Z) : Prop :=
  (0 ≤ p.1 < Z.of_nat SIZE) ∧ (0 ≤ p.2 < Z.of_nat SIZE).

(** The destination cell of a pending merge. *)
Definition dest (m : Anim.Merge) : Z * Z := (Anim.mr m, Anim.mc m).

(** The four directions that the key handler forwards to [move]. *)
Definition validDirection (direction : string) : Prop :=
  direction = "ArrowUp" ∨ direction = "ArrowDown"
  ∨ direction = "ArrowLeft" ∨ direction = "ArrowRight".

(** What the flags record during the scan: every pending merge has a
    flagged destination on the board, and no two share one. *)
Definition flagsCover (s : Anim.Scan) : Prop :=
  wf (Anim.mergedFlags s)
  ∧ (∀ m, m ∈ Anim.promises s →
          inside (dest m) ∧ Anim.flagAt (Anim.mergedFlags s) (dest m) = true)
  ∧ NoDup (map dest (Anim.promises s)).

(** The references that the board holds, in reading order. *)
Definition tileRefs (cs : list (list (option nat))) : list nat :=
  omap id (concat cs).

(** The numbers on the tiles of the board, in reading order. *)
Definition valuesOn (cs : list (list (option nat))) (h : list Anim.Tile) : list Z :=
  map (Anim.valueOf h) (tileRefs cs).

(** [(tile.r, tile.c)] of an allocated tile. *)
Definition posOf (h : list Anim.Tile) (t : nat) : option (Z * Z) :=
  (fun tile => (Anim.tr tile, Anim.tc tile)) <$> h !! t.

(** A power of two, 2 at least. *)
Definition pow2 (v : Z) : Prop := ∃ n : nat, (1 ≤ n)%nat ∧ v = 2 ^ Z.of_nat n.

(** The board invariant of the animated version: a 4x4 array in which no
    tile sits in two cells, and every tile on it is stored with the
    coordinates of its cell and holds a power of two. *)
Definition boardOk (cs : list (list (option nat))) (h : list Anim.Tile) : Prop :=
  wf cs
  ∧ NoDup (tileRefs cs)
  ∧ ∀ p t, inside p → Anim.cellAt cs p = Some t →
           posOf h t = Some p ∧ pow2 (Anim.valueOf h t).

(** [q] lies beyond [p] in the direction of the move. *)
Definition beyond (direction : string) (p q : Z * Z) : bool :=
  if String.eqb direction "ArrowUp" then (q.2 =? p.2) && (q.1 <? p.1)
  else if String.eqb direction "ArrowDown" then (q.2 =? p.2) && (p.1 <? q.1)
  else if String.eqb direction "ArrowLeft" then (q.1 =? p.1) && (q.2 <? p.2)
  else if String.eqb direction "ArrowRight" then (q.1 =? p.1) && (p.2 <? q.2)
  else false.

(** A visiting order in which no cell comes before a cell that lies beyond
    it: tiles nearer to the border they move to are handled first. *)
Fixpoint borderFirst (direction : string) (l : list (Z * Z)) : bool :=
  match l with
  | [] => true
  | p :: l' => forallb (fun q => negb (beyond direction p q)) l' && borderFirst direction l'
  end.

(** The numbers on the tiles that slid onto another tile and wait to be
    merged. *)
Definition fromValues (h : list Anim.Tile) (ms : list Anim.Merge) : list Z :=
  map (fun m => Anim.valueOf h (Anim.from m)) ms.

(** What holds of the pending merges while the cells of [todo] are still to
    be visited: the survivor sits in the destination cell, which will not
    be visited again, the tile that slid onto it holds the same number and
    has left the board. *)
Definition pendingOk (todo : list (Z * Z)) (s : Anim.Scan) : Prop :=
  ∀ m, m ∈ Anim.promises s →
       Anim.cellAt (Anim.cells (Anim.st s)) (dest m) = Some (Anim.into m)
       ∧ (dest m ∉ todo)
       ∧ (Anim.valueOf (Anim.heap (Anim.st s)) (Anim.from m)
          = Anim.valueOf (Anim.heap (Anim.st s)) (Anim.into m))
       ∧ Anim.from m ∉ tileRefs (Anim.cells (Anim.st s)).

(** The invariant of the scan of [move] started in [s0], with the cells of
    [todo] still to be visited. *)
Record ScanInv (s0 : Anim.State) (todo : list (Z * Z)) (s : Anim.Scan) : Prop := {
  si_flags : flagsCover s;
  si_board : boardOk (Anim.cells (Anim.st s)) (Anim.heap (Anim.st s));
  si_pending : pendingOk todo s;
  si_values :
    valuesOn (Anim.cells (Anim.st s)) (Anim.heap (Anim.st s))
      ++ fromValues (Anim.heap (Anim.st s)) (Anim.promises s)
    ≡ₚ valuesOn (Anim.cells s0) (Anim.heap s0);
  si_gap :
    Anim.hasMoved s = true →
    ∃ p, inside p ∧ Anim.cellAt (Anim.cells (Anim.st s)) p = None;
  si_score : Anim.score (Anim.st s) = Anim.score s0;
  si_proc : Anim.isProcessing (Anim.st s) = Anim.isProcessing s0;
  si_exact :
    ∀ q, inside q → Anim.flagAt (Anim.mergedFlags s) q = true →
         q ∈ map dest (Anim.promises s)
}.

(** The invariant of the animated version between two moves. *)
Definition Inv (s : Anim.State) : Prop :=
  boardOk (Anim.cells s) (Anim.heap s) ∧ 0 ≤ Anim.score s ∧ Anim.isProcessing s = false.

(** The states the animated version is in between two moves: the board that
    [setupBoard] or [restartGame] creates, and what [spawnTile] and a whole
    [move] make of such a state. *)
Inductive reachable : Anim.State → Prop :=
| reach_created : reachable Anim.emptyBoard
| reach_spawn k lt09 s : reachable s → reachable (Anim.spawnTile k lt09 s)
| reach_move direction k lt09 s : reachable s → reachable (Anim.move direction k lt09 s).

(** ** Lines of the board *)

(** The four directions, and the key names that [move] receives. *)
Inductive Dir := Up | Down | Left | Right.

Definition key (dir : Dir) : string :=
  match dir with
  | Up => "ArrowUp"
  | Down => "ArrowDown"
  | Left => "ArrowLeft"
  | Right => "ArrowRight"
  end.

(** The row that [slide] returns and the score it adds. *)
Definition slideRow (row : list Z) : list Z := (Redraw.slide row 0).1.
Definition gain (row : list Z) : Z := (Redraw.slide row 0).2.

(** The columns of a grid, as rows. *)
Definition transpose (g : list (list Z)) : list (list Z) :=
  map (Redraw.column g) indices.

(** The grid seen in a mirror: left and right swapped, top and bottom
    swapped. *)
Definition mirrorH (g : list (list Z)) : list (list Z) := map reverse g.
Definition flipV (g : list (list Z)) : list (list Z) := reverse g.

(** The four lines along which the tiles move, each listed from the border
    that the tiles move to; and the grid that has given lines. *)
Definition lines (dir : Dir) (g : list (list Z)) : list (list Z) :=
  match dir with
  | Left => g
  | Right => map reverse g
  | Up => transpose g
  | Down => map reverse (transpose g)
  end.

Definition unlines (dir : Dir) (l : list (list Z)) : list (list Z) :=
  match dir with
  | Left => l
  | Right => map reverse l
  | Up => transpose l
  | Down => transpose (map reverse l)
  end.

(** ** One line of the scan

    The scan of the animated version, seen on one line of the board: the
    cells of a line are numbered from the border that the tiles move to,
    and each carries its number ([0] if it is empty) and its merged flag. *)

(** Cell [k] of line [i]. *)
Definition coord (dir : Dir) (i k : nat) : Z * Z :=
  match dir with
  | Left => (Z.of_nat i, Z.of_nat k)
  | Right => (Z.of_nat i, Z.of_nat SIZE - 1 - Z.of_nat k)
  | Up => (Z.of_nat k, Z.of_nat i)
  | Down => (Z.of_nat SIZE - 1 - Z.of_nat k, Z.of_nat i)
  end.

(** The number on a cell of the board. *)
Definition numberAt (cs : list (list (option nat))) (h : list Anim.Tile) (p : Z * Z) : Z :=
  match Anim.cellAt cs p with
  | Some t => Anim.valueOf h t
  | None => 0
  end.

Definition cellInfo (s : Anim.Scan) (p : Z * Z) : Z * bool :=
  (numberAt (Anim.cells (Anim.st s)) (Anim.heap (Anim.st s)) p,
   Anim.flagAt (Anim.mergedFlags s) p).

Definition lineView (dir : Dir) (i : nat) (s : Anim.Scan) : list (Z * bool) :=
  map (fun k => cellInfo s (coord dir i k)) indices.

(** The walk of [Anim.farthest] on a line: from cell [k] towards cell 0. *)
Fixpoint lineWalk (fuel : nat) (line : list (Z * bool)) (v : Z) (k : nat) : nat :=
  match fuel with
  | O => k
  | S fuel' =>
      match k with
      | O => k
      | S k' =>
          match line !! k' with
          | Some (w, merged) =>
              if w =? 0 then lineWalk fuel' line v k'
              else if (w =? v) && negb merged then k' else k
          | None => k
          end
      end
  end.

(** The pass of [Anim.processCell] on a line, at cell [k]. *)
Definition lineStep (line : list (Z * bool)) (k : nat) : list (Z * bool) :=
  match line !! k with
  | Some (v, fk) =>
      if v =? 0 then line
      else
        let n := lineWalk SIZE line v k in
        if (n =? k)%nat then line
        else
          match line !! n with
          | Some (w, fn) =>
              if w =? 0 then <[n := (v, fn)]> (<[k := (0, fk)]> line)
              else <[n := (w, true)]> (<[k := (0, fk)]> line)
          | None => line
          end
  | None => line
  end.

(** Does the pass at cell [k] move the tile of that cell? *)
Definition lineMoves (line : list (Z * bool)) (k : nat) : bool :=
  match line !! k with
  | Some (v, _) => negb (v =? 0) && negb (lineWalk SIZE line v k =? k)%nat
  | None => false
  end.

(** A pass on a line together with the change flag. *)
Definition lineRun (lb : list (Z * bool) * bool) (k : nat) : list (Z * bool) * bool :=
  (lineStep lb.1 k, lb.2 || lineMoves lb.1 k).

(** The number on a cell once the pending merges are applied. *)
Definition settled (c : Z * bool) : Z := if c.2 then c.1 * 2 else c.1.

(** The scan order as pairs (line, cell of the line). *)
Definition lineOrder (dir : Dir) : list (nat * nat) :=
  match dir with
  | Left | Right => i ← indices; k ← indices; [(i, k)]
  | Up | Down => k ← indices; i ← indices; [(i, k)]
  end.

(** The numbers on line [i] of a board. *)
Definition numbersOn (dir : Dir) (i : nat) (cs : list (list (option nat)))
    (h : list Anim.Tile) : list Z :=
  map (fun k => numberAt cs h (coord dir i k)) indices.

(** No tile of the board holds the number that stands for an empty cell. *)
Definition tilesNonzero (cs : list (list (option nat))) (h : list Anim.Tile) : Prop :=
  ∀ p t, inside p → Anim.cellAt cs p = Some t → Anim.valueOf h t ≠ 0.

(** The sum of a list of numbers. *)
Definition sumZ (l : list Z) : Z := foldr Z.add 0 l.

(** A board of the animated version from a grid of numbers: tile [i] is
    the [i]-th occupied cell in reading order. *)
Fixpoint boardRow (r : Z) (c : Z) (row : list Z) (h : list Anim.Tile)
  : list (option Anim.ref) * list Anim.Tile :=
  match row with
  | [] => ([], h)
  | v :: row' =>
      if v =? 0 then
        let '(cs, h') := boardRow r (c + 1) row' h in (None :: cs, h')
      else
        let '(cs, h') := boardRow r (c + 1) row' (h ++ [Anim.mkTile v r c]) in
        (Some (length h) :: cs, h')
  end.

Fixpoint boardRows (r : Z) (g : list (list Z)) (h : list Anim.Tile)
  : list (list (option Anim.ref)) * list Anim.Tile :=
  match g with
  | [] => ([], h)
  | row :: g' =>
      let '(cs, h1) := boardRow r 0 row h in
      let '(css, h2) := boardRows (r + 1) g' h1 in
      (cs :: css, h2)
  end.

Definition board (g : list (list Z)) (score : Z) : Anim.State :=
  let '(cs, h) := boardRows 0 g [] in
  {| Anim.cells := cs; Anim.heap := h; Anim.score := score; Anim.isProcessing := false |}.


(** * Games

    A game of the full-redraw version starts with [restartGame], which the
    script calls when it is loaded, and goes on with key presses. *)

(** A key press, with the two numbers that [Math.random] returns if the move
    spawns a tile. *)
Record Press := mkPress { pressed : string; drawCell : nat; drawLt09 : bool }.

(** The states of the full-redraw version in a game. *)
Inductive redrawReachable : Redraw.State → Prop :=
| redraw_restart k1 b1 k2 b2 : redrawReachable (Redraw.restartGame k1 b1 k2 b2)
| redraw_press p st :
    redrawReachable st →
    redrawReachable (Redraw.keydown (pressed p) (drawCell p) (drawLt09 p) st).

(** A cell of the grid: empty, or a power of two. *)
Definition cellOk (v : Z) : Prop := v = 0 ∨ pow2 v.

(** The number of tiles on a grid. *)
Definition tileCount (g : list (list Z)) : nat := length (Redraw.nonzero (concat g)).

(** A sequence of key presses in the full-redraw version, whose listener
    runs [move] to its end before the next event is handled. *)
Definition redrawPlay (st : Redraw.State) (ps : list Press) : Redraw.State :=
  foldl (fun st p => Redraw.keydown (pressed p) (drawCell p) (drawLt09 p) st) st ps.

(** The score that the pending merges of a line add once they are applied:
    twice the number of every flagged cell. *)
Definition pendingGain (line : list (Z * bool)) : Z :=
  sumZ (map (fun c : Z * bool => if c.2 then c.1 * 2 else 0) line).

(** The cells of the board, line by line. *)
Definition cellsByLine (dir : Dir) : list (Z * Z) :=
  i ← indices; k ← indices; [coord dir i k].

(** * The page

    What the two scripts draw on the board.  The classes that only drive an
    animation ([new-tile], [merged-tile]) and the game-over message are set
    or removed by timers; they are left out. *)

(** [CELL_SIZE] and [GAP], and the offset [r * (CELL_SIZE + GAP) + GAP] (in
    px) that both scripts write to [style.top] for row [r] and to
    [style.left] for column [r]. *)
Definition CELL_SIZE : Q := 97.5%Q.
Definition GAP : Q := 10%Q.

Definition offset (r : Z) : Q := (inject_Z r * (CELL_SIZE + GAP) + GAP)%Q.

(** The background cells that [setupBoard] appends to the board (both
    scripts), as pairs ([style.top], [style.left]). *)
Definition gridCells : list (Q * Q) :=
  r ← indices; c ← indices; [(offset (Z.of_nat r), offset (Z.of_nat c))].

(** ** The page of the full-redraw version *)
Module RedrawPage.

(** A tile element: [style.top], [style.left] and [textContent]; its class
    [tile-<number>] follows the text. *)
Record Elem := mkElem { top : Q; left : Q; text : Z }.

(** The globals of the script and the page: the background cells and the
    tile elements of the board in document order, the array [tiles], and
    the text of the score display. *)
Record State := mkState {
  game : Redraw.State;
  background : list (Q * Q);
  board : list Elem;
  tiles : list Elem;
  scoreDisplay : Z
}.

(** The element that [createTileElement] and [updateVisuals] build for the
    cell [(r, c)]. *)
Definition tileAt (r c : nat) (value : Z) : Elem :=
  {| top := offset (Z.of_nat r); left := offset (Z.of_nat c); text := value |}.

(** [setupBoard()]: [innerHTML = ''] empties the board. *)
Definition setupBoard (p : State) : State :=
  {| game := game p; background := gridCells; board := []; tiles := tiles p;
     scoreDisplay := scoreDisplay p |}.

(** [createTileElement(r, c, value)] *)
Definition createTileElement (r c : nat) (value : Z) (p : State) : State :=
  {| game := game p; background := background p;
     board := board p ++ [tileAt r c value];
     tiles := tiles p ++ [tileAt r c value];
     scoreDisplay := scoreDisplay p |}.

(** [spawnTile()] *)
Definition spawnTile (k : nat) (lt09 : bool) (p : State) : State :=
  let cells := Redraw.emptyCells (Redraw.grid (game p)) in
  match cells !! (k `mod` length cells)%nat with
  | None => p
  | Some (r, c) =>
      let value := if lt09 then 2 else 4 in
      createTileElement r c value
        {| game := {| Redraw.grid := Redraw.set2 (Redraw.grid (game p)) r c value;
                      Redraw.score := Redraw.score (game p) |};
           background := background p; board := board p; tiles := tiles p;
           scoreDisplay := scoreDisplay p |}
  end.

(** The elements that the loops of [updateVisuals] create: one for every
    cell that is not empty. *)
Definition drawn (g : list (list Z)) : list Elem :=
  r ← indices; c ← indices;
  if Redraw.at2 g r c =? 0 then [] else [tileAt r c (Redraw.at2 g r c)].

(** [updateVisuals()]: every tile element is removed, then the grid is
    drawn. *)
Definition updateVisuals (p : State) : State :=
  {| game := game p; background := background p;
     board := drawn (Redraw.grid (game p)); tiles := tiles p;
     scoreDisplay := scoreDisplay p |}.

(** [move(direction)] *)
Definition move (direction : string) (k : nat) (lt09 : bool) (p : State) : State :=
  let acc := Redraw.resolve direction (game p) in
  if Redraw.hasMoved acc then
    spawnTile k lt09
      (updateVisuals
         {| game := {| Redraw.grid := Redraw.newGrid acc; Redraw.score := Redraw.sc acc |};
            background := background p; board := board p; tiles := tiles p;
            scoreDisplay := Redraw.sc acc |})
  else
    {| game := {| Redraw.grid := Redraw.grid (game p); Redraw.score := Redraw.sc acc |};
       background := background p; board := board p; tiles := tiles p;
       scoreDisplay := scoreDisplay p |}.

(** [restartGame()] *)
Definition restartGame (k1 : nat) (b1 : bool) (k2 : nat) (b2 : bool) (p : State) : State :=
  spawnTile k2 b2
    (spawnTile k1 b1
       {| game := {| Redraw.grid := replicate SIZE (replicate SIZE 0); Redraw.score := 0 |};
          background := background p; board := []; tiles := []; scoreDisplay := 0 |}).

(** The [keydown] listener. *)
Definition keydown (key : string) (k : nat) (lt09 : bool) (p : State) : State :=
  if isArrowKey key then move key k lt09 p else p.

(** The pages of a game: the script runs [setupBoard(); restartGame()] when
    it is loaded; then keys are pressed and the game may be restarted. *)
Inductive reachable : State → Prop :=
| reach_load k1 b1 k2 b2 p : reachable (restartGame k1 b1 k2 b2 (setupBoard p))
| reach_restart k1 b1 k2 b2 p : reachable p → reachable (restartGame k1 b1 k2 b2 p)
| reach_key key k lt09 p : reachable p → reachable (keydown key k lt09 p).

End RedrawPage.

(** ** The page of the animated version *)
Module AnimPage.

(** Every [Tile] owns one element.  [setPosition] writes [r], [c] and the
    style of the element together, the constructor and [setValue] write
    [value] and the text and class of the element together: an element
    shows the fields of its tile.  The page is described by the tiles whose
    element is attached to the board, in document order, and by the text of
    the score display ([None]: what the markup of the page holds). *)
Record State := mkState {
  game : Anim.State;
  background : list (Q * Q);
  attached : list Anim.ref;
  scoreDisplay : option Z
}.

(** What the element of tile [t] shows: [style.top], [style.left],
    [textContent]. *)
Definition shown (s : Anim.State) (t : Anim.ref) : option (Q * Q * Z) :=
  (fun tile => (offset (Anim.tr tile), offset (Anim.tc tile), Anim.value tile))
    <$> Anim.heap s !! t.

(** [tile.remove()] *)
Definition remove (t : Anim.ref) (dom : list Anim.ref) : list Anim.ref :=
  List.filter (fun x => negb (x =? t)%nat) dom.

(** [spawnTile()]: the constructor of [Tile] appends the element of the new
    tile to the board. *)
Definition spawnTile (k : nat) (lt09 : bool) (p : State) : State :=
  let free := Anim.emptyCells (Anim.cells (game p)) in
  match free !! (k `mod` length free)%nat with
  | None => p
  | Some _ =>
      {| game := Anim.spawnTile k lt09 (game p); background := background p;
         attached := attached p ++ [length (Anim.heap (game p))];
         scoreDisplay := scoreDisplay p |}
  end.

(** [p.from.remove()] for every entry of [promises]. *)
Definition removeMerged (ms : list Anim.Merge) (dom : list Anim.ref) : list Anim.ref :=
  foldl (fun dom m => remove (Anim.from m) dom) dom ms.

(** The page with other globals. *)
Definition setGame (g : Anim.State) (p : State) : State :=
  {| game := g; background := background p; attached := attached p;
     scoreDisplay := scoreDisplay p |}.

(** [move(direction)] from [await] on, for the call whose [promises] are
    [ms]: the merges are applied to the globals as they are by then, the
    score is displayed, a tile is spawned, [isProcessing] is reset. *)
Definition finish (ms : list Anim.Merge) (k : nat) (lt09 : bool) (p : State) : State :=
  let g := foldl Anim.applyMerge (game p) ms in
  let p1 :=
    spawnTile k lt09
      {| game := g; background := background p;
         attached := removeMerged ms (attached p);
         scoreDisplay := Some (Anim.score g) |} in
  setGame (Anim.setProcessing false (game p1)) p1.

(** [setupBoard()], which the script runs when it is loaded: no [Tile]
    exists yet. *)
Definition setupBoard (k1 : nat) (b1 : bool) (k2 : nat) (b2 : bool) : State :=
  spawnTile k2 b2
    (spawnTile k1 b1
       {| game := Anim.emptyBoard; background := gridCells; attached := [];
          scoreDisplay := None |}).

(** [restartGame()]: the elements of the tiles that [cells] holds are
    removed; the tiles themselves stay in the store. *)
Definition restartGame (k1 : nat) (b1 : bool) (k2 : nat) (b2 : bool) (p : State) : State :=
  spawnTile k2 b2
    (spawnTile k1 b1
       {| game := {| Anim.cells := replicate SIZE (replicate SIZE None);
                     Anim.heap := Anim.heap (game p);
                     Anim.score := 0; Anim.isProcessing := false |};
          background := background p;
          attached := foldl (fun dom t => remove t dom) (attached p)
                        (tileRefs (Anim.cells (game p)));
          scoreDisplay := Some 0 |}).

End AnimPage.

(** * The animated version on the event loop

    [move] is an [async] function.  A call that finds a change is suspended
    at [await] until a timer fires; key presses that arrive in between run
    their own calls of [move].  A suspended call keeps its local
    [promises]. *)
Module AnimAsync.

(** The globals, and the calls of [move] that are suspended, oldest
    first. *)
Record State := mkState { game : Anim.State; suspended : list (list Anim.Merge) }.

(** A call of [move] up to [await], or to its end if nothing has moved. *)
Definition start (direction : string) (p : State) : State :=
  if Anim.isProcessing (game p) then p
  else
    let s := Anim.scan direction (Anim.setProcessing true (game p)) in
    if Anim.hasMoved s
    then {| game := Anim.st s; suspended := suspended p ++ [Anim.promises s] |}
    else {| game := Anim.setProcessing false (Anim.st s); suspended := suspended p |}.

(** The timer of the oldest suspended call fires: the call runs from
    [await] to its end. *)
Definition resume (k : nat) (lt09 : bool) (p : State) : State :=
  match suspended p with
  | [] => p
  | ms :: rest =>
      {| game := Anim.setProcessing false
                   (Anim.spawnTile k lt09 (foldl Anim.applyMerge (game p) ms));
         suspended := rest |}
  end.

(** The [keydown] listener. *)
Definition keydown (key : string) (p : State) : State :=
  if isArrowKey key then start key p else p.

Definition presses (keys : list string) (p : State) : State :=
  foldl (fun p key => keydown key p) p keys.

(** The events of a game: a key is pressed, or the timer of the oldest
    suspended call fires and [spawnTile] draws [k] and [lt09]. *)
Inductive Event := Key (key : string) | Timer (k : nat) (lt09 : bool).

Definition step (e : Event) (p : State) : State :=
  match e with
  | Key key => keydown key p
  | Timer k lt09 => resume k lt09 p
  end.

Definition run (es : list Event) (p : State) : State :=
  foldl (fun p e => step e p) p es.

(** Keys pressed one after the other, each followed by the timer of its
    move (if it has set one) before the next key is pressed. *)
Definition unhurried (ps : list Press) : list Event :=
  p ← ps; [Key (pressed p); Timer (drawCell p) (drawLt09 p)].

End AnimAsync.

(** * The page of the animated version on the event loop

    The events of the page: key presses, the timers of the suspended calls
    of [move], and calls of [restartGame], which the script defines for the
    page to call.  Every handler runs to its end or to [await]; a key may
    be pressed and [restartGame] may be called while a call of [move] is
    suspended. *)
Module AnimLoop.

(** The page, and the [promises] of the calls of [move] that are
    suspended, oldest first. *)
Record State := mkState { page : AnimPage.State; suspended : list (list Anim.Merge) }.

(** The script is loaded: [setupBoard()]. *)
Definition load (k1 : nat) (b1 : bool) (k2 : nat) (b2 : bool) : State :=
  {| page := AnimPage.setupBoard k1 b1 k2 b2; suspended := [] |}.

(** A call of [move] up to [await], or to its end if nothing has moved.
    [setPosition] moves the elements of the tiles; none is attached or
    removed. *)
Definition start (direction : string) (p : State) : State :=
  let g := AnimPage.game (page p) in
  if Anim.isProcessing g then p
  else
    let s := Anim.scan direction (Anim.setProcessing true g) in
    if Anim.hasMoved s
    then {| page := AnimPage.setGame (Anim.st s) (page p);
            suspended := suspended p ++ [Anim.promises s] |}
    else {| page := AnimPage.setGame (Anim.setProcessing false (Anim.st s)) (page p);
            suspended := suspended p |}.

(** The timer of the oldest suspended call fires. *)
Definition resume (k : nat) (lt09 : bool) (p : State) : State :=
  match suspended p with
  | [] => p
  | ms :: rest => {| page := AnimPage.finish ms k lt09 (page p); suspended := rest |}
  end.

(** The [keydown] listener. *)
Definition keydown (key : string) (p : State) : State :=
  if isArrowKey key then start key p else p.

(** [restartGame()]; the suspended calls stay suspended. *)
Definition restartGame (k1 : nat) (b1 : bool) (k2 : nat) (b2 : bool) (p : State) : State :=
  {| page := AnimPage.restartGame k1 b1 k2 b2 (page p); suspended := suspended p |}.

Inductive Event :=
| Key (key : string)
| Timer (k : nat) (lt09 : bool)
| Restart (k1 : nat) (b1 : bool) (k2 : nat) (b2 : bool).

Definition step (e : Event) (p : State) : State :=
  match e with
  | Key key => keydown key p
  | Timer k lt09 => resume k lt09 p
  | Restart k1 b1 k2 b2 => restartGame k1 b1 k2 b2 p
  end.

Definition run (es : list Event) (p : State) : State :=
  foldl (fun p e => step e p) p es.

(** No call of [move] is suspended. *)
Definition idle (p : State) : bool :=
  match suspended p with [] => true | _ => false end.

(** Every [restartGame] of the events [es], handled from [p] on, is called
    while no call of [move] is suspended. *)
Fixpoint restartsWhenIdle (es : list Event) (p : State) : bool :=
  match es with
  | [] => true
  | e :: es =>
      match e with Restart _ _ _ _ => idle p | _ => true end
      && restartsWhenIdle es (step e p)
  end.

End AnimLoop.

(** The invariant of the page while no call of [move] is suspended. *)
Definition pageOk (p : AnimPage.State) : Prop :=
  Inv (AnimPage.game p)
  ∧ AnimPage.attached p ≡ₚ tileRefs (Anim.cells (AnimPage.game p))
  ∧ AnimPage.background p = gridCells
  ∧ (AnimPage.scoreDisplay p = Some (Anim.score (AnimPage.game p))
     ∨ (AnimPage.scoreDisplay p = None ∧ Anim.score (AnimPage.game p) = 0)).

(** The invariant of the event loop as long as the game is not restarted
    during a move: at most one call of [move] is suspended, and it has
    started on a page that satisfies the invariant. *)
Definition loopOk (p : AnimLoop.State) : Prop :=
  match AnimLoop.suspended p with
  | [] => pageOk (AnimLoop.page p)
  | [ms] =>
      ∃ p0 d,
        pageOk p0
        ∧ Anim.hasMoved (Anim.scan d (Anim.setProcessing true (AnimPage.game p0))) = true
        ∧ AnimLoop.page p
          = AnimPage.setGame (Anim.st (Anim.scan d (Anim.setProcessing true (AnimPage.game p0)))) p0
        ∧ ms = Anim.promises (Anim.scan d (Anim.setProcessing true (AnimPage.game p0)))
  | _ => False
  end.
Section Grid.
Context {A : Type}.
Implicit Types (g : list (list A)) (p q : Z * Z).

Lemma wf_replicate (x : A) : wf (replicate SIZE (replicate SIZE x)).
Proof. split; [reflexivity|]. repeat constructor. Qed.

Lemma wf_row g p :
  wf g → inside p →
  ∃ row, g !! Z.to_nat p.1 = Some row ∧ length row = SIZE
         ∧ ∃ x, row !! Z.to_nat p.2 = Some x.
Proof.
  intros [Hlen Hrows] [Hr Hc].
  destruct (lookup_lt_is_Some_2 g (Z.to_nat p.1)) as [row Hrow]; [lia|].
  exists row. split; [done|].
  assert (length row = SIZE) as Hl.
  { rewrite Forall_forall in Hrows. apply Hrows. eapply list_elem_of_lookup_2; eauto. }
  split; [done|]. apply lookup_lt_is_Some_2. lia.
Qed.

Lemma wf_alter g (f : list A → list A) i :
  (∀ row, length (f row) = length row) → wf g → wf (alter f i g).
Proof.
  intros Hf [Hlen Hrows]. split; [by rewrite length_alter|].
  rewrite Forall_forall. intros row Hin.
  apply list_elem_of_lookup_1 in Hin as [j Hj].
  rewrite Forall_forall in Hrows.
  destruct (decide (i = j)) as [->|Hne].
  - rewrite list_lookup_alter_eq in Hj.
    destruct (g !! j) as [row0|] eqn:E; simplify_eq/=.
    rewrite Hf. apply Hrows. eapply list_elem_of_lookup_2; eauto.
  - rewrite list_lookup_alter_ne in Hj; [|done].
    apply Hrows. eapply list_elem_of_lookup_2; eauto.
Qed.

Lemma inside_to_nat_ne p q :
  inside p → inside q → p ≠ q →
  Z.to_nat p.1 ≠ Z.to_nat q.1 ∨ Z.to_nat p.2 ≠ Z.to_nat q.2.
Proof.
  destruct p as [a b], q as [a' b']; unfold inside; simpl; intros [? ?] [? ?] Hne.
  destruct (decide (a = a')) as [->|]; [|left; lia].
  right. intros Heq. apply Hne. f_equal. lia.
Qed.

End Grid.

Lemma outside_inside p : Anim.outside p = false ↔ inside p.
Proof.
  unfold Anim.outside, inside. destruct p as [a b]; simpl.
  rewrite !orb_false_iff, !Z.ltb_ge, !Z.geb_leb, !Z.leb_gt. lia.
Qed.

Lemma outside_not_inside p : Anim.outside p = true → ¬ inside p.
Proof. intros H Hin. apply outside_inside in Hin. congruence. Qed.

(** ** Reading and writing [cells] and [mergedFlags] *)

Lemma cellAt_setCell_eq cs p x :
  wf cs → inside p → Anim.cellAt (Anim.setCell cs p x) p = x.
Proof.
  intros Hwf Hin. destruct (wf_row cs p Hwf Hin) as (row & Hrow & Hlen & y & Hy).
  unfold Anim.cellAt, Anim.setCell.
  rewrite list_lookup_alter_eq, Hrow. simpl.
  rewrite list_lookup_insert_eq; [done|]. eapply lookup_lt_Some; eauto.
Qed.

Lemma cellAt_setCell_ne cs p q x :
  inside p → inside q → p ≠ q →
  Anim.cellAt (Anim.setCell cs p x) q = Anim.cellAt cs q.
Proof.
  intros Hp Hq Hne. unfold Anim.cellAt, Anim.setCell.
  destruct (decide (Z.to_nat p.1 = Z.to_nat q.1)) as [Heq|Hr].
  - rewrite Heq, list_lookup_alter_eq.
    destruct (cs !! Z.to_nat q.1) as [row|]; simpl; [|done].
    rewrite list_lookup_insert_ne; [done|].
    destruct (inside_to_nat_ne p q Hp Hq Hne); congruence.
  - by rewrite list_lookup_alter_ne.
Qed.

Lemma wf_setCell cs p x : wf cs → wf (Anim.setCell cs p x).
Proof. apply wf_alter. intros row. apply length_insert. Qed.

Lemma flagAt_setFlag_eq fs p :
  wf fs → inside p → Anim.flagAt (Anim.setFlag fs p) p = true.
Proof.
  intros Hwf Hin. destruct (wf_row fs p Hwf Hin) as (row & Hrow & Hlen & y & Hy).
  unfold Anim.flagAt, Anim.setFlag.
  rewrite list_lookup_alter_eq, Hrow. simpl.
  rewrite list_lookup_insert_eq; [done|]. eapply lookup_lt_Some; eauto.
Qed.

Lemma flagAt_setFlag_ne fs p q :
  inside p → inside q → p ≠ q →
  Anim.flagAt (Anim.setFlag fs p) q = Anim.flagAt fs q.
Proof.
  intros Hp Hq Hne. unfold Anim.flagAt, Anim.setFlag.
  destruct (decide (Z.to_nat p.1 = Z.to_nat q.1)) as [Heq|Hr].
  - rewrite Heq, list_lookup_alter_eq.
    destruct (fs !! Z.to_nat q.1) as [row|]; simpl; [|done].
    rewrite list_lookup_insert_ne; [done|].
    destruct (inside_to_nat_ne p q Hp Hq Hne); congruence.
  - by rewrite list_lookup_alter_ne.
Qed.

Lemma wf_setFlag fs p : wf fs → wf (Anim.setFlag fs p).
Proof. apply wf_alter. intros row. apply length_insert. Qed.

Lemma flagAt_setFlag_mono fs p q :
  Anim.flagAt fs q = true → Anim.flagAt (Anim.setFlag fs p) q = true.
Proof.
  unfold Anim.flagAt, Anim.setFlag. intros H.
  destruct (decide (Z.to_nat p.1 = Z.to_nat q.1)) as [Heq|Hr].
  - rewrite Heq, list_lookup_alter_eq.
    destruct (fs !! Z.to_nat q.1) as [row|]; simpl; [|done].
    destruct (decide (Z.to_nat p.2 = Z.to_nat q.2)) as [Heq2|Hc].
    + rewrite Heq2. destruct (row !! Z.to_nat q.2) eqn:E; [|done].
      rewrite list_lookup_insert_eq; [done|]. eapply lookup_lt_Some; eauto.
    + by rewrite list_lookup_insert_ne.
  - by rewrite list_lookup_alter_ne.
Qed.

(** ** The store *)

Lemma valueOf_setPosition h t p t' :
  Anim.valueOf (Anim.setPosition h t p) t' = Anim.valueOf h t'.
Proof.
  unfold Anim.valueOf, Anim.setPosition.
  destruct (decide (t = t')) as [->|Hne].
  - rewrite list_lookup_alter_eq. destruct (h !! t') as [tile|]; reflexivity.
  - by rewrite list_lookup_alter_ne.
Qed.

Lemma valueOf_setValue_eq h t v :
  (t < length h)%nat → Anim.valueOf (Anim.setValue h t v) t = v.
Proof.
  intros Hlt. unfold Anim.valueOf, Anim.setValue.
  rewrite list_lookup_alter_eq.
  destruct (lookup_lt_is_Some_2 h t Hlt) as [tile ->]. done.
Qed.

Lemma valueOf_setValue_ne h t v t' :
  t ≠ t' → Anim.valueOf (Anim.setValue h t v) t' = Anim.valueOf h t'.
Proof.
  intros Hne. unfold Anim.valueOf, Anim.setValue.
  by rewrite list_lookup_alter_ne.
Qed.

(** ** The references on the board *)

Lemma alter_as_insert {A} (f : A → A) (l : list A) i x :
  l !! i = Some x → alter f i l = <[i := f x]> l.
Proof.
  revert i. induction l as [|y l IH]; intros [|i] H; simplify_eq/=; [done|].
  f_equal. by apply IH.
Qed.

Lemma omap_id_cons (x : option nat) (l : list (option nat)) :
  omap id (x :: l) = option_list x ++ omap id l.
Proof. by destruct x. Qed.

Lemma tileRefs_setCell cs p :
  wf cs → inside p →
  ∃ l1 l2, tileRefs cs = l1 ++ option_list (Anim.cellAt cs p) ++ l2
           ∧ ∀ y, tileRefs (Anim.setCell cs p y) = l1 ++ option_list y ++ l2.
Proof.
  intros Hwf Hin.
  destruct (wf_row cs p Hwf Hin) as (row & Hrow & Hlen & x & Hx).
  set (i := Z.to_nat p.1) in *. set (j := Z.to_nat p.2) in *.
  exists (omap id (concat (take i cs)) ++ omap id (take j row)),
         (omap id (drop (S j) row) ++ omap id (concat (drop (S i) cs))).
  assert (∀ y, omap id (concat (take i cs ++ (take j row ++ y :: drop (S j) row)
                                  :: drop (S i) cs))
               = (omap id (concat (take i cs)) ++ omap id (take j row))
                   ++ option_list y
                   ++ omap id (drop (S j) row) ++ omap id (concat (drop (S i) cs))) as Hsplit.
  { intros y. rewrite concat_app, omap_app. simpl concat.
    rewrite !omap_app, omap_id_cons. by rewrite <- !app_assoc. }
  split.
  - unfold tileRefs, Anim.cellAt. fold i j. rewrite Hrow, Hx.
    rewrite <- Hsplit.
    by rewrite (take_drop_middle row j x Hx), (take_drop_middle cs i row Hrow).
  - intros y. unfold tileRefs, Anim.setCell. fold i j.
    rewrite (alter_as_insert _ _ _ row Hrow).
    rewrite insert_take_drop by (eapply lookup_lt_Some; eauto).
    rewrite (insert_take_drop row) by (eapply lookup_lt_Some; eauto).
    apply Hsplit.
Qed.

Lemma tileRefs_remove cs p t :
  wf cs → inside p → Anim.cellAt cs p = Some t →
  tileRefs cs ≡ₚ t :: tileRefs (Anim.setCell cs p None).
Proof.
  intros Hwf Hin Hcell.
  destruct (tileRefs_setCell cs p Hwf Hin) as (l1 & l2 & Hcs & Hset).
  rewrite Hcs, Hset, Hcell. simpl. by rewrite Permutation_middle.
Qed.

Lemma tileRefs_insert cs p t :
  wf cs → inside p → Anim.cellAt cs p = None →
  tileRefs (Anim.setCell cs p (Some t)) ≡ₚ t :: tileRefs cs.
Proof.
  intros Hwf Hin Hcell.
  destruct (tileRefs_setCell cs p Hwf Hin) as (l1 & l2 & Hcs & Hset).
  rewrite Hcs, Hset, Hcell. simpl. by rewrite Permutation_middle.
Qed.

Lemma cellAt_tileRefs cs p t :
  wf cs → inside p → Anim.cellAt cs p = Some t → t ∈ tileRefs cs.
Proof.
  intros Hwf Hin Hcell. rewrite (tileRefs_remove cs p t Hwf Hin Hcell). left.
Qed.

Lemma tileRefs_cellAt cs t :
  wf cs → t ∈ tileRefs cs → ∃ p, inside p ∧ Anim.cellAt cs p = Some t.
Proof.
  intros [Hlen Hrows] Hel. unfold tileRefs in Hel.
  apply list_elem_of_omap in Hel as (x & Hx & Hid). simpl in Hid. subst x.
  apply list_elem_of_In, in_concat in Hx as (row & Hrow & Ht).
  apply list_elem_of_In in Hrow, Ht.
  apply list_elem_of_lookup_1 in Hrow as [i Hi].
  apply list_elem_of_lookup_1 in Ht as [j Hj].
  assert (length row = SIZE) as Hl.
  { rewrite Forall_forall in Hrows. apply Hrows. eapply list_elem_of_lookup_2; eauto. }
  apply lookup_lt_Some in Hi as Hi'. apply lookup_lt_Some in Hj as Hj'.
  exists (Z.of_nat i, Z.of_nat j). split.
  - unfold inside; simpl. lia.
  - unfold Anim.cellAt; simpl. by rewrite !Nat2Z.id, Hi, Hj.
Qed.

Lemma setCell_same cs p :
  wf cs → inside p → Anim.setCell cs p (Anim.cellAt cs p) = cs.
Proof.
  intros Hwf Hin.
  destruct (wf_row cs p Hwf Hin) as (row & Hrow & Hlen & x & Hx).
  unfold Anim.setCell, Anim.cellAt. rewrite Hrow, Hx.
  rewrite (alter_as_insert _ _ _ row Hrow).
  rewrite (list_insert_id row _ _ Hx). by apply list_insert_id.
Qed.

(** No tile sits in two cells. *)
Lemma cellAt_inj cs p q t :
  wf cs → NoDup (tileRefs cs) → inside p → inside q →
  Anim.cellAt cs p = Some t → Anim.cellAt cs q = Some t → p = q.
Proof.
  intros Hwf Hnd Hp Hq Hcp Hcq.
  destruct (decide (p = q)) as [|Hne]; [done|].
  rewrite (tileRefs_remove cs p t Hwf Hp Hcp) in Hnd.
  apply NoDup_cons in Hnd as [Hnot _]. destruct Hnot.
  apply (cellAt_tileRefs _ q); [by apply wf_setCell|done|].
  by rewrite cellAt_setCell_ne.
Qed.

(** ** The walk to the farthest position *)

Lemma farthest_cases fuel d cs h fs tile p :
  let q := Anim.farthest fuel d cs h fs tile p in
  q = p
  ∨ (inside q
     ∧ (Anim.cellAt cs q = None
        ∨ ∃ t, Anim.cellAt cs q = Some t
               ∧ Anim.valueOf h t = Anim.valueOf h tile
               ∧ Anim.flagAt fs q = false)).
Proof.
  revert p. induction fuel as [|fuel IH]; intros p; simpl; [by left|].
  destruct (Anim.outside (Anim.ahead d p)) eqn:Hout; [by left|].
  apply outside_inside in Hout.
  destruct (Anim.cellAt cs (Anim.ahead d p)) as [target|] eqn:Hcell.
  - destruct (_ && _) eqn:Hcond; [|by left].
    apply andb_true_iff in Hcond as [Hv Hf].
    right. split; [done|]. right. exists target.
    split; [done|]. split; [lia|]. by destruct (Anim.flagAt fs _).
  - destruct (IH (Anim.ahead d p)) as [->|H]; [|by right].
    right. split; [done|]. by left.
Qed.

Lemma validDirection_dec d : validDirection d ∨ ¬ validDirection d.
Proof.
  unfold validDirection.
  destruct (String.eqb_spec d "ArrowUp"); [auto|].
  destruct (String.eqb_spec d "ArrowDown"); [auto|].
  destruct (String.eqb_spec d "ArrowLeft"); [auto|].
  destruct (String.eqb_spec d "ArrowRight"); [auto|].
  right. intros [?|[?|[?|?]]]; done.
Qed.

Lemma ahead_invalid d p : ¬ validDirection d → Anim.ahead d p = p.
Proof.
  intros Hd. unfold Anim.ahead.
  destruct (String.eqb_spec d "ArrowUp"); [destruct Hd; by left|].
  destruct (String.eqb_spec d "ArrowDown"); [destruct Hd; right; by left|].
  destruct (String.eqb_spec d "ArrowLeft"); [destruct Hd; right; right; by left|].
  destruct (String.eqb_spec d "ArrowRight"); [destruct Hd; right; right; by right|].
  done.
Qed.

(** ** One pass of the scan *)

Lemma processCell_cases d s p :
  Anim.processCell d s p = s ∨ Anim.hasMoved (Anim.processCell d s p) = true.
Proof.
  unfold Anim.processCell.
  destruct (Anim.cellAt (Anim.cells (Anim.st s)) p); [|by left].
  case_bool_decide; [|by left]. right. by destruct (Anim.cellAt _ _).
Qed.

Lemma processCell_sticky d s p :
  Anim.hasMoved s = true → Anim.hasMoved (Anim.processCell d s p) = true.
Proof.
  intros H. destruct (processCell_cases d s p) as [->|]; done.
Qed.

Lemma foldl_processCell_sticky d l s :
  Anim.hasMoved s = true → Anim.hasMoved (foldl (Anim.processCell d) s l) = true.
Proof.
  revert s. induction l as [|p l IH]; intros s H; simpl; [done|].
  apply IH. by apply processCell_sticky.
Qed.

Lemma foldl_processCell_unchanged d l s :
  Anim.hasMoved (foldl (Anim.processCell d) s l) = false →
  foldl (Anim.processCell d) s l = s.
Proof.
  revert s. induction l as [|p l IH]; intros s H; simpl in *; [done|].
  destruct (processCell_cases d s p) as [Heq|Hmoved].
  - rewrite Heq in *. by apply IH.
  - rewrite (foldl_processCell_sticky d l _ Hmoved) in H. done.
Qed.

Lemma processCell_invalid d s p :
  ¬ validDirection d → Anim.processCell d s p = s.
Proof.
  intros Hd. unfold Anim.processCell.
  destruct (Anim.cellAt (Anim.cells (Anim.st s)) p) as [tile|] eqn:Hcell; [|done].
  unfold SIZE at 1. simpl Anim.farthest. rewrite (ahead_invalid d p Hd), Hcell.
  destruct (Anim.outside p); [by rewrite bool_decide_eq_false_2 by tauto|].
  destruct (_ && _); by rewrite bool_decide_eq_false_2 by tauto.
Qed.

Lemma foldl_processCell_invalid d l s :
  ¬ validDirection d → foldl (Anim.processCell d) s l = s.
Proof.
  intros Hd. revert s. induction l as [|p l IH]; intros s; simpl; [done|].
  by rewrite processCell_invalid.
Qed.

Lemma setProcessing_twice b s :
  Anim.isProcessing s = b → Anim.setProcessing b (Anim.setProcessing (negb b) s) = s.
Proof. destruct s; simpl; intros ->; reflexivity. Qed.

(** ** Geometry of the scan *)

Lemma beyond_ahead d p : Anim.ahead d p = p ∨ beyond d p (Anim.ahead d p) = true.
Proof.
  unfold Anim.ahead, beyond. destruct p as [a b]; simpl.
  repeat (destruct (String.eqb d _); [right; simpl; lia|]).
  by left.
Qed.

Lemma beyond_trans d p q q' :
  beyond d p q = true → beyond d q q' = true → beyond d p q' = true.
Proof.
  unfold beyond. destruct p, q, q'; simpl.
  repeat (destruct (String.eqb d _); [simpl; lia|]).
  done.
Qed.

Lemma farthest_beyond fuel d cs h fs tile p :
  let q := Anim.farthest fuel d cs h fs tile p in
  q = p ∨ beyond d p q = true.
Proof.
  revert p. induction fuel as [|fuel IH]; intros p; simpl; [by left|].
  destruct (Anim.outside (Anim.ahead d p)); [by left|].
  destruct (Anim.cellAt cs (Anim.ahead d p)) as [target|].
  - destruct (_ && _); [|by left]. apply beyond_ahead.
  - destruct (IH (Anim.ahead d p)) as [Heq|Hb], (beyond_ahead d p) as [Ha|Ha].
    + left. congruence.
    + right. by rewrite Heq.
    + right. rewrite Ha in Hb. by rewrite Ha.
    + right. eapply beyond_trans; eauto.
Qed.

Lemma beyond_irrefl d p : beyond d p p = false.
Proof.
  unfold beyond. repeat (destruct (String.eqb d _); [simpl; lia|]).
  done.
Qed.

Lemma scanOrder_borderFirst d : borderFirst d (Anim.scanOrder d) = true.
Proof.
  unfold Anim.scanOrder.
  destruct (String.eqb_spec d "ArrowRight") as [->|HR]; [reflexivity|].
  destruct (String.eqb_spec d "ArrowDown") as [->|HD]; [reflexivity|].
  destruct (String.eqb_spec d "ArrowUp") as [->|HU]; [reflexivity|].
  destruct (String.eqb_spec d "ArrowLeft") as [->|HL]; [reflexivity|].
  assert (∀ p q, beyond d p q = false) as Hb.
  { intros p q. unfold beyond.
    apply String.eqb_neq in HR, HD, HU, HL. by rewrite HR, HD, HU, HL. }
  generalize (x ← Anim.loopRange SIZE 0 (Z.of_nat SIZE) 1;
              c ← Anim.loopRange SIZE 0 (Z.of_nat SIZE) 1; [(x, c)]).
  intros l. induction l as [|p l IH]; simpl; [done|].
  rewrite IH, andb_true_r. apply forallb_forall. intros q _. by rewrite Hb.
Qed.

Lemma scanOrder_inside d : Forall inside (Anim.scanOrder d).
Proof.
  unfold Anim.scanOrder.
  destruct (String.eqb d "ArrowRight"), (String.eqb d "ArrowDown");
    simpl; repeat (apply Forall_cons_2; [unfold inside, SIZE; simpl; lia|]);
    apply Forall_nil_2.
Qed.

(** ** The outcomes of one pass *)

Lemma processCell_outcome d s p :
  let cs := Anim.cells (Anim.st s) in
  let h := Anim.heap (Anim.st s) in
  Anim.processCell d s p = s
  ∨ ∃ tile q,
      Anim.cellAt cs p = Some tile ∧ q ≠ p ∧ inside q ∧ beyond d p q = true
      ∧ ((Anim.cellAt cs q = None
          ∧ Anim.processCell d s p =
              {| Anim.st := {| Anim.cells := Anim.setCell (Anim.setCell cs p None) q (Some tile);
                               Anim.heap := Anim.setPosition h tile q;
                               Anim.score := Anim.score (Anim.st s);
                               Anim.isProcessing := Anim.isProcessing (Anim.st s) |};
                 Anim.mergedFlags := Anim.mergedFlags s;
                 Anim.hasMoved := true;
                 Anim.promises := Anim.promises s |})
         ∨ (∃ t, Anim.cellAt cs q = Some t
                 ∧ Anim.valueOf h t = Anim.valueOf h tile
                 ∧ Anim.flagAt (Anim.mergedFlags s) q = false
                 ∧ Anim.processCell d s p =
                     {| Anim.st := {| Anim.cells := Anim.setCell cs p None;
                                      Anim.heap := Anim.setPosition h tile q;
                                      Anim.score := Anim.score (Anim.st s);
                                      Anim.isProcessing := Anim.isProcessing (Anim.st s) |};
                        Anim.mergedFlags := Anim.setFlag (Anim.mergedFlags s) q;
                        Anim.hasMoved := true;
                        Anim.promises :=
                          Anim.promises s ++ [Anim.mkMerge tile t q.1 q.2] |})).
Proof.
  intros cs h. unfold Anim.processCell. fold cs h.
  destruct (Anim.cellAt cs p) as [tile|] eqn:Hp; [|by left].
  case_bool_decide as Hmove; [|by left]. right.
  destruct (farthest_cases SIZE d cs h (Anim.mergedFlags s) tile p) as [Heq|[Hin Hq]]; [done|].
  destruct (farthest_beyond SIZE d cs h (Anim.mergedFlags s) tile p) as [Heq|Hb]; [done|].
  set (q := Anim.farthest _ _ _ _ _ _ _) in *.
  exists tile, q. do 4 (split; [done|]).
  destruct (Anim.cellAt cs q) as [t|] eqn:Hcell.
  - right. destruct Hq as [?|(t' & Ht' & Hv & Hflag)]; [done|]. simplify_eq.
    exists t'. done.
  - left. done.
Qed.

(** ** Merged flags and pending merges *)

Lemma processCell_flagsCover d s p :
  flagsCover s → flagsCover (Anim.processCell d s p).
Proof.
  intros (Hwf & Hfl & Hnd). unfold Anim.processCell.
  destruct (Anim.cellAt (Anim.cells (Anim.st s)) p) as [tile|]; [|done].
  case_bool_decide as Hmove; [|done].
  destruct (farthest_cases SIZE d (Anim.cells (Anim.st s)) (Anim.heap (Anim.st s))
              (Anim.mergedFlags s) tile p) as [Heq|[Hin Hq]]; [done|].
  set (q := Anim.farthest _ _ _ _ _ _ _) in *.
  destruct (Anim.cellAt (Anim.cells (Anim.st s)) q) as [t|] eqn:Hcell; [|done].
  destruct Hq as [?|(t' & _ & _ & Hflag)]; [done|].
  assert (q ∉ map dest (Anim.promises s)) as Hfresh.
  { intros Hel. apply list_elem_of_fmap in Hel as (m & -> & Hm).
    destruct (Hfl m Hm) as [_ Htrue]. congruence. }
  split; [|split]; simpl.
  - by apply wf_setFlag.
  - intros m Hm. apply elem_of_app in Hm as [Hm|Hm].
    + destruct (Hfl m Hm) as [? ?]. split; [done|]. by apply flagAt_setFlag_mono.
    + apply list_elem_of_singleton in Hm as ->. unfold dest; simpl.
      rewrite <- surjective_pairing. split; [done|]. by apply flagAt_setFlag_eq.
  - rewrite map_app. apply NoDup_app. split; [done|]. split.
    + intros x Hx Hx'. simpl in Hx'. apply list_elem_of_singleton in Hx' as ->.
      unfold dest in Hx; simpl in Hx. rewrite <- surjective_pairing in Hx. done.
    + simpl. apply NoDup_singleton.
Qed.

Lemma foldl_processCell_flagsCover d l s :
  flagsCover s → flagsCover (foldl (Anim.processCell d) s l).
Proof.
  revert s. induction l as [|p l IH]; intros s H; simpl; [done|].
  apply IH. by apply processCell_flagsCover.
Qed.

Lemma scan_flagsCover d s0 : flagsCover (Anim.scan d s0).
Proof.
  apply foldl_processCell_flagsCover. split; [|split]; simpl.
  - apply wf_replicate.
  - intros m Hm. by apply elem_of_nil in Hm.
  - apply NoDup_nil_2.
Qed.

(** ** The invariant of the scan *)

Lemma posOf_setPosition_eq h t p q :
  posOf h t = Some p → posOf (Anim.setPosition h t q) t = Some q.
Proof.
  unfold posOf, Anim.setPosition. rewrite list_lookup_alter_eq.
  destruct (h !! t); [|done]. intros _. simpl. by destruct q.
Qed.

Lemma posOf_setPosition_ne h t t' q :
  t ≠ t' → posOf (Anim.setPosition h t q) t' = posOf h t'.
Proof.
  intros Hne. unfold posOf, Anim.setPosition. by rewrite list_lookup_alter_ne.
Qed.

Lemma valuesOn_setPosition cs h t q :
  valuesOn cs (Anim.setPosition h t q) = valuesOn cs h.
Proof. apply map_ext. intros. apply valueOf_setPosition. Qed.

Lemma fromValues_setPosition h t q ms :
  fromValues (Anim.setPosition h t q) ms = fromValues h ms.
Proof. apply map_ext. intros. apply valueOf_setPosition. Qed.

Lemma borderFirst_head d p todo q :
  borderFirst d (p :: todo) = true → beyond d p q = true → q ∉ todo.
Proof.
  simpl. intros Hord Hb Hel. apply andb_true_iff in Hord as [Hall _].
  rewrite forallb_forall in Hall. apply list_elem_of_In in Hel.
  specialize (Hall q Hel). by rewrite Hb in Hall.
Qed.

Lemma processCell_ScanInv d s0 p todo s :
  inside p → borderFirst d (p :: todo) = true →
  ScanInv s0 (p :: todo) s → ScanInv s0 todo (Anim.processCell d s p).
Proof.
  intros Hp Hord [Hfl Hbd Hpend Hval Hgap Hsc Hpr Hex].
  pose proof (processCell_flagsCover d s p Hfl) as Hfl'.
  destruct (processCell_outcome d s p)
    as [Heq | (tile & q & Hcp & Hne & Hq & Hbey
               & [[Hcq Heq] | (t & Hcq & Hv & Hflag & Heq)])];
    rewrite Heq in *; clear Heq.
  { split; try done. intros m Hm. destruct (Hpend m Hm) as (? & Hnot & ? & ?).
    repeat split; try done. intros Hel. apply Hnot. by right. }
  all: set (cs := Anim.cells (Anim.st s)) in *.
  all: set (h := Anim.heap (Anim.st s)) in *.
  all: destruct Hbd as (Hwf & Hnd & Hpos).
  all: pose proof (tileRefs_remove cs p tile Hwf Hp Hcp) as Hperm.
  all: pose proof Hnd as Hnd1; rewrite Hperm in Hnd1.
  all: apply NoDup_cons in Hnd1 as [Hfresh Hnd1].
  all: pose proof (borderFirst_head d p todo q Hord Hbey) as Hqtodo.
  all: pose proof (wf_setCell cs p None Hwf) as Hwf1.
  all: assert (∀ p' t', inside p' → p' ≠ p → Anim.cellAt cs p' = Some t' →
                  posOf (Anim.setPosition h tile q) t' = Some p'
                  ∧ pow2 (Anim.valueOf (Anim.setPosition h tile q) t')) as Hold
    by (intros p' t' Hp' Hne' Hc'; rewrite valueOf_setPosition;
        rewrite posOf_setPosition_ne; [by apply Hpos|];
        intros <-; apply Hne'; by apply (cellAt_inj cs p' p tile)).
  all: assert (∀ m, m ∈ Anim.promises s → inside (dest m) ∧ dest m ≠ p) as Hdest
    by (intros m Hm; destruct Hfl as (_ & Hfl & _); destruct (Hfl m Hm) as [? _];
        split; [done|]; destruct (Hpend m Hm) as (_ & Hnot & _);
        intros Hmp; apply Hnot; rewrite Hmp; by left).
  - (* the tile slides to an empty cell *)
    assert (Anim.cellAt (Anim.setCell cs p None) q = None) as Hcq1
      by (by rewrite cellAt_setCell_ne).
    pose proof (tileRefs_insert _ q tile Hwf1 Hq Hcq1) as Hperm2.
    split; simpl.
    + done.
    + split; [by apply wf_setCell|]. split.
      * rewrite Hperm2. by apply NoDup_cons.
      * intros p' t' Hp' Hc'. destruct (decide (p' = q)) as [->|Hne'].
        -- rewrite cellAt_setCell_eq in Hc' by done. simplify_eq.
           destruct (Hpos p t' Hp Hcp) as [Hpo Hpw]. split.
           ++ by apply (posOf_setPosition_eq _ _ p).
           ++ by rewrite valueOf_setPosition.
        -- rewrite cellAt_setCell_ne in Hc' by done.
           destruct (decide (p' = p)) as [->|Hne''].
           ++ rewrite cellAt_setCell_eq in Hc' by done. done.
           ++ rewrite cellAt_setCell_ne in Hc' by done. by apply Hold.
    + intros m Hm. simpl. destruct (Hpend m Hm) as (Hcm & Hnot & Hvm & Hfm).
      destruct (Hdest m Hm) as [Hdin Hdne].
      rewrite !valueOf_setPosition. repeat split; try done.
      * rewrite !cellAt_setCell_ne; try done. intros ->. fold cs in Hcm. congruence.
      * intros Hel. apply Hnot. by right.
      * rewrite Hperm2, <- Hperm. done.
    + rewrite valuesOn_setPosition, fromValues_setPosition. rewrite <- Hval.
      apply Permutation_app_tail. apply Permutation_map. by rewrite Hperm2, <- Hperm.
    + intros _. exists p. split; [done|].
      rewrite cellAt_setCell_ne by done. by apply cellAt_setCell_eq.
    + done.
    + done.
    + done.
  - (* the tile slides onto an equal tile *)
    split; simpl.
    + done.
    + split; [done|]. split; [done|].
      intros p' t' Hp' Hc'. destruct (decide (p' = p)) as [->|Hne''].
      * rewrite cellAt_setCell_eq in Hc' by done. done.
      * rewrite cellAt_setCell_ne in Hc' by done. by apply Hold.
    + intros m Hm. simpl. rewrite !valueOf_setPosition.
      apply elem_of_app in Hm as [Hm|Hm].
      * destruct (Hpend m Hm) as (Hcm & Hnot & Hvm & Hfm).
        destruct (Hdest m Hm) as [Hdin Hdne].
        repeat split; try done.
        -- by rewrite cellAt_setCell_ne.
        -- intros Hel. apply Hnot. by right.
        -- intros Hel. apply Hfm. fold cs. rewrite Hperm. by right.
      * apply list_elem_of_singleton in Hm as ->. unfold dest; simpl.
        rewrite <- surjective_pairing. repeat split; try done.
        by rewrite cellAt_setCell_ne.
    + rewrite valuesOn_setPosition. unfold fromValues. rewrite map_app. simpl.
      rewrite valueOf_setPosition. rewrite <- Hval.
      change (map (λ m, Anim.valueOf (Anim.setPosition h tile q) (Anim.from m)))
        with (fromValues (Anim.setPosition h tile q)).
      rewrite fromValues_setPosition. fold h.
      unfold valuesOn at 2. fold cs. rewrite Hperm. simpl.
      rewrite (Permutation_app_comm (fromValues h (Anim.promises s))). simpl.
      rewrite <- Permutation_middle. apply perm_skip.
      done.
    + intros _. exists p. split; [done|]. by apply cellAt_setCell_eq.
    + done.
    + done.
    + intros q' Hq' Hf'. rewrite map_app. apply elem_of_app.
      destruct (decide (q' = q)) as [->|Hne'].
      * right. simpl. unfold dest; simpl. rewrite <- surjective_pairing. left.
      * left. apply Hex; [done|]. by rewrite flagAt_setFlag_ne in Hf'.
Qed.

Lemma foldl_processCell_ScanInv d s0 todo s :
  Forall inside todo → borderFirst d todo = true →
  ScanInv s0 todo s → ScanInv s0 [] (foldl (Anim.processCell d) s todo).
Proof.
  revert s. induction todo as [|p todo IH]; intros s Hin Hord Hinv; simpl; [done|].
  apply Forall_cons in Hin as [Hp Hin].
  apply IH; [done| |by apply processCell_ScanInv].
  simpl in Hord. by apply andb_true_iff in Hord as [_ ?].
Qed.

Lemma flagAt_replicate q : Anim.flagAt (replicate SIZE (replicate SIZE false)) q = false.
Proof.
  unfold Anim.flagAt.
  destruct (_ !! Z.to_nat q.1) as [row|] eqn:Hrow; [|done].
  apply lookup_replicate in Hrow as [-> _].
  destruct (_ !! Z.to_nat q.2) as [b|] eqn:Hb; [|done].
  by apply lookup_replicate in Hb as [-> _].
Qed.

Lemma scanStart_ScanInv s0 todo :
  boardOk (Anim.cells s0) (Anim.heap s0) → ScanInv s0 todo (Anim.scanStart s0).
Proof.
  intros Hbd. split; simpl; try done.
  - split; [apply wf_replicate|]. split; [|apply NoDup_nil_2].
    intros m Hm. by apply elem_of_nil in Hm.
  - intros m Hm. by apply elem_of_nil in Hm.
  - unfold fromValues. simpl. by rewrite app_nil_r.
  - intros q _ Hq. by rewrite flagAt_replicate in Hq.
Qed.

Lemma scan_ScanInv d s0 :
  boardOk (Anim.cells s0) (Anim.heap s0) → ScanInv s0 [] (Anim.scan d s0).
Proof.
  intros Hbd. apply foldl_processCell_ScanInv.
  - apply scanOrder_inside.
  - apply scanOrder_borderFirst.
  - by apply scanStart_ScanInv.
Qed.

(** ** Applying the pending merges *)

Lemma posOf_setValue h t v t' : posOf (Anim.setValue h t v) t' = posOf h t'.
Proof.
  unfold posOf, Anim.setValue. destruct (decide (t = t')) as [->|Hne].
  - rewrite list_lookup_alter_eq. by destruct (h !! t').
  - by rewrite list_lookup_alter_ne.
Qed.

Lemma posOf_allocated h t p : posOf h t = Some p → (t < length h)%nat.
Proof.
  unfold posOf. destruct (h !! t) eqn:E; [|done]. intros _.
  eapply lookup_lt_Some; eauto.
Qed.

Lemma pow2_double v : pow2 v → pow2 (v * 2).
Proof.
  intros (n & Hn & ->). exists (S n). split; [lia|].
  rewrite Nat2Z.inj_succ, Z.pow_succ_r; lia.
Qed.

Lemma pow2_pos v : pow2 v → 2 ≤ v.
Proof.
  intros (n & Hn & ->). destruct n as [|n]; [lia|].
  rewrite Nat2Z.inj_succ, Z.pow_succ_r by lia.
  pose proof (Z.pow_pos_nonneg 2 (Z.of_nat n)). lia.
Qed.

Lemma applyMerge_spec s m :
  boardOk (Anim.cells s) (Anim.heap s) →
  inside (dest m) →
  Anim.cellAt (Anim.cells s) (dest m) = Some (Anim.into m) →
  let s' := Anim.applyMerge s m in
  Anim.cells s' = Anim.cells s
  ∧ Anim.isProcessing s' = Anim.isProcessing s
  ∧ Anim.score s' = Anim.score s + Anim.valueOf (Anim.heap s) (Anim.into m) * 2
  ∧ (∀ t, Anim.valueOf (Anim.heap s') t =
          if decide (t = Anim.into m) then Anim.valueOf (Anim.heap s) t * 2
          else Anim.valueOf (Anim.heap s) t)
  ∧ (∀ t, posOf (Anim.heap s') t = posOf (Anim.heap s) t).
Proof.
  intros (Hwf & Hnd & Hpos) Hin Hcell. simpl.
  destruct (Hpos _ _ Hin Hcell) as [Hpo _]. apply posOf_allocated in Hpo.
  split; [|split; [done|split; [|split]]].
  - rewrite <- Hcell. by apply setCell_same.
  - by rewrite valueOf_setValue_eq.
  - intros t. case_decide as Ht.
    + subst t. by rewrite valueOf_setValue_eq.
    + by rewrite valueOf_setValue_ne.
  - intros t. apply posOf_setValue.
Qed.

Lemma boardOk_ext cs h h' :
  boardOk cs h →
  (∀ t, posOf h' t = posOf h t) →
  (∀ t, pow2 (Anim.valueOf h t) → pow2 (Anim.valueOf h' t)) →
  boardOk cs h'.
Proof.
  intros (Hwf & Hnd & Hpos) Hp Hv. split; [done|]. split; [done|].
  intros p t Hin Hcell. destruct (Hpos p t Hin Hcell) as [? ?].
  split; [by rewrite Hp|by apply Hv].
Qed.

Lemma settle_spec ms s :
  boardOk (Anim.cells s) (Anim.heap s) →
  (∀ m, m ∈ ms → inside (dest m)
                 ∧ Anim.cellAt (Anim.cells s) (dest m) = Some (Anim.into m)) →
  NoDup (map Anim.into ms) →
  let s' := foldl Anim.applyMerge s ms in
  Anim.cells s' = Anim.cells s
  ∧ Anim.isProcessing s' = Anim.isProcessing s
  ∧ Anim.score s'
    = Anim.score s + sumZ (map (fun m => Anim.valueOf (Anim.heap s) (Anim.into m) * 2) ms)
  ∧ (∀ t, Anim.valueOf (Anim.heap s') t =
          if decide (t ∈ map Anim.into ms) then Anim.valueOf (Anim.heap s) t * 2
          else Anim.valueOf (Anim.heap s) t)
  ∧ (∀ t, posOf (Anim.heap s') t = posOf (Anim.heap s) t).
Proof.
  revert s. induction ms as [|m ms IH]; intros s Hbd Hms Hnd; simpl.
  { repeat split; try done. lia. }
  destruct (Hms m) as [Hin Hcell]; [left|].
  destruct (applyMerge_spec s m Hbd Hin Hcell) as (Hc & Hp & Hs & Hv & Hpo).
  simpl in Hnd. apply NoDup_cons in Hnd as [Hfresh Hnd].
  destruct (IH (Anim.applyMerge s m)) as (Hc' & Hp' & Hs' & Hv' & Hpo').
  - rewrite Hc. eapply boardOk_ext; [exact Hbd|exact Hpo|].
    intros t Ht. rewrite Hv. case_decide; [by apply pow2_double|done].
  - intros m' Hm'. rewrite Hc. apply Hms. by right.
  - done.
  - split; [congruence|]. split; [congruence|]. split; [|split].
    + rewrite Hs', Hs. rewrite Z.add_assoc. f_equal. f_equal.
      apply map_ext_in. intros m' Hm'. rewrite Hv.
      case_decide as Heq; [|done].
      destruct Hfresh. rewrite <- Heq. apply list_elem_of_In. by apply in_map.
    + intros t. rewrite Hv', Hv.
      destruct (decide (t = Anim.into m)) as [->|Hne].
      * rewrite decide_False by done. rewrite decide_True by left. done.
      * destruct (decide (t ∈ map Anim.into ms)).
        -- rewrite decide_True by (by right). done.
        -- rewrite decide_False; [done|]. intros Hel.
           apply elem_of_cons in Hel as [?|?]; done.
    + intros t. by rewrite Hpo', Hpo.
Qed.

Lemma NoDup_map_transfer {A B C} (f : A → B) (g : A → C) (l : list A) :
  NoDup (map f l) →
  (∀ x y, x ∈ l → y ∈ l → g x = g y → f x = f y) →
  NoDup (map g l).
Proof.
  induction l as [|a l IH]; simpl; intros Hnd H; [apply NoDup_nil_2|].
  apply NoDup_cons in Hnd as [Hf Hnd]. apply NoDup_cons. split.
  - intros Hel. apply list_elem_of_fmap in Hel as (y & Hgy & Hy).
    apply Hf. apply list_elem_of_fmap. exists y. split; [|done].
    apply H; [left|by right|done].
  - apply IH; [done|]. intros x y Hx Hy. apply H; by right.
Qed.

Lemma ScanInv_into_NoDup s0 todo s :
  ScanInv s0 todo s → NoDup (map Anim.into (Anim.promises s)).
Proof.
  intros [(_ & Hfl & Hnd) (Hwf & Hndc & _) Hpend _ _ _ _ _].
  apply (NoDup_map_transfer dest); [done|].
  intros x y Hx Hy Heq.
  destruct (Hfl x Hx) as [Hix _], (Hfl y Hy) as [Hiy _].
  destruct (Hpend x Hx) as (Hcx & _), (Hpend y Hy) as (Hcy & _).
  rewrite Heq in Hcx. eapply cellAt_inj; eauto.
Qed.

(** ** Spawning a tile *)

Lemma emptyCells_elem cs r c :
  (r, c) ∈ Anim.emptyCells cs ↔
  (r < SIZE)%nat ∧ (c < SIZE)%nat ∧ Anim.cellAt cs (Z.of_nat r, Z.of_nat c) = None.
Proof.
  unfold Anim.emptyCells, indices. rewrite list_elem_of_bind. split.
  - intros (r' & Hc & Hr). apply elem_of_seq in Hr.
    apply list_elem_of_bind in Hc as (c' & Hel & Hc). apply elem_of_seq in Hc.
    destruct (Anim.cellAt cs _) eqn:E; [by apply elem_of_nil in Hel|].
    apply list_elem_of_singleton in Hel. simplify_eq. repeat split; try lia. done.
  - intros (Hr & Hc & Hcell). exists r. split; [|apply elem_of_seq; lia].
    apply list_elem_of_bind. exists c. split; [|apply elem_of_seq; lia].
    rewrite Hcell. by left.
Qed.

Lemma spawnTile_cases k lt09 s :
  (Anim.emptyCells (Anim.cells s) = [] ∧ Anim.spawnTile k lt09 s = s)
  ∨ ∃ r c,
      (r, c) ∈ Anim.emptyCells (Anim.cells s)
      ∧ Anim.spawnTile k lt09 s =
          {| Anim.cells :=
               Anim.setCell (Anim.cells s) (Z.of_nat r, Z.of_nat c)
                 (Some (length (Anim.heap s)));
             Anim.heap :=
               Anim.heap s
                 ++ [Anim.mkTile (if lt09 then 2 else 4) (Z.of_nat r) (Z.of_nat c)];
             Anim.score := Anim.score s;
             Anim.isProcessing := Anim.isProcessing s |}.
Proof.
  unfold Anim.spawnTile.
  destruct (Anim.emptyCells (Anim.cells s)) as [|x free] eqn:Hfree; [by left|].
  right.
  destruct (lookup_lt_is_Some_2 (x :: free) (k `mod` length (x :: free))%nat)
    as [[r c] Hrc].
  { apply Nat.mod_upper_bound. simpl. lia. }
  exists r, c. split; [eapply list_elem_of_lookup_2; eauto|]. by rewrite Hrc.
Qed.

Lemma emptyCells_nil cs p :
  Anim.emptyCells cs = [] → inside p → Anim.cellAt cs p ≠ None.
Proof.
  intros Hnil [Hr Hc] Hcell.
  assert ((Z.to_nat p.1, Z.to_nat p.2) ∈ Anim.emptyCells cs) as Hel.
  { apply emptyCells_elem. repeat split; try lia.
    rewrite !Z2Nat.id by lia. by rewrite <- surjective_pairing. }
  rewrite Hnil in Hel. by apply elem_of_nil in Hel.
Qed.

Lemma boardOk_allocated cs h t :
  boardOk cs h → t ∈ tileRefs cs → (t < length h)%nat.
Proof.
  intros (Hwf & _ & Hpos) Hel.
  destruct (tileRefs_cellAt cs t Hwf Hel) as (p & Hin & Hcell).
  destruct (Hpos p t Hin Hcell) as [Hpo _]. by eapply posOf_allocated.
Qed.

Lemma valueOf_alloc h tile t :
  (t < length h)%nat → Anim.valueOf (h ++ [tile]) t = Anim.valueOf h t.
Proof. intros Hlt. unfold Anim.valueOf. by rewrite lookup_app_l. Qed.

Lemma valueOf_alloc_new h tile :
  Anim.valueOf (h ++ [tile]) (length h) = Anim.value tile.
Proof.
  unfold Anim.valueOf. rewrite lookup_app_r by lia. by rewrite Nat.sub_diag.
Qed.

Lemma spawn_boardOk cs h p v :
  boardOk cs h → inside p → Anim.cellAt cs p = None → v = 2 ∨ v = 4 →
  boardOk (Anim.setCell cs p (Some (length h))) (h ++ [Anim.mkTile v p.1 p.2])
  ∧ valuesOn (Anim.setCell cs p (Some (length h))) (h ++ [Anim.mkTile v p.1 p.2])
    ≡ₚ v :: valuesOn cs h.
Proof.
  intros Hbd Hin Hcell Hv. pose proof Hbd as (Hwf & Hnd & Hpos).
  pose proof (tileRefs_insert cs p (length h) Hwf Hin Hcell) as Hperm.
  assert (length h ∉ tileRefs cs) as Hfresh.
  { intros Hel. apply (boardOk_allocated cs h) in Hel; [lia|done]. }
  split; [split; [by apply wf_setCell|split]|].
  - rewrite Hperm. by apply NoDup_cons.
  - intros p' t' Hp' Hc'. destruct (decide (p' = p)) as [->|Hne].
    + rewrite cellAt_setCell_eq in Hc' by done. simplify_eq. split.
      * unfold posOf. rewrite lookup_app_r by lia. rewrite Nat.sub_diag. simpl.
        by destruct p.
      * rewrite valueOf_alloc_new. simpl.
        destruct Hv as [->| ->]; [exists 1%nat|exists 2%nat]; split; (lia || done).
    + rewrite cellAt_setCell_ne in Hc' by done.
      destruct (Hpos p' t' Hp' Hc') as [Hpo Hpw].
      pose proof (posOf_allocated _ _ _ Hpo) as Hlt. split.
      * unfold posOf in *. by rewrite lookup_app_l.
      * by rewrite valueOf_alloc.
  - unfold valuesOn. rewrite Hperm. simpl. rewrite valueOf_alloc_new. simpl.
    apply perm_skip. apply Permutation_refl'. apply map_ext_in.
    intros t Ht. apply valueOf_alloc. apply (boardOk_allocated cs); [done|].
    by apply list_elem_of_In.
Qed.

(** ** A whole move *)

Lemma move_unchanged d k lt09 s0 :
  Anim.hasMoved (Anim.scan d (Anim.setProcessing true s0)) = false →
  Anim.move d k lt09 s0 = s0.
Proof.
  intros H. unfold Anim.move. destruct (Anim.isProcessing s0) eqn:Hp; [done|].
  rewrite H. unfold Anim.scan in *.
  rewrite foldl_processCell_unchanged by done. simpl.
  by apply (setProcessing_twice false).
Qed.

Lemma scan_unchanged_promises d s0 :
  Anim.hasMoved (Anim.scan d s0) = false → Anim.promises (Anim.scan d s0) = [].
Proof.
  intros H. unfold Anim.scan in *. by rewrite foldl_processCell_unchanged.
Qed.

Lemma processCell_valueOf d s p t :
  Anim.valueOf (Anim.heap (Anim.st (Anim.processCell d s p))) t
  = Anim.valueOf (Anim.heap (Anim.st s)) t.
Proof.
  destruct (processCell_outcome d s p)
    as [Heq | (tile & q & _ & _ & _ & _ & [[_ Heq] | (t' & _ & _ & _ & Heq)])];
    rewrite Heq; simpl; [done|apply valueOf_setPosition..].
Qed.

Lemma foldl_processCell_valueOf d l s t :
  Anim.valueOf (Anim.heap (Anim.st (foldl (Anim.processCell d) s l))) t
  = Anim.valueOf (Anim.heap (Anim.st s)) t.
Proof.
  revert s. induction l as [|p l IH]; intros s; simpl; [done|].
  rewrite IH. apply processCell_valueOf.
Qed.

Lemma scan_valueOf d s0 t :
  Anim.valueOf (Anim.heap (Anim.st (Anim.scan d s0))) t = Anim.valueOf (Anim.heap s0) t.
Proof. unfold Anim.scan. by rewrite foldl_processCell_valueOf. Qed.

(** What the scan and the merges make of a board that satisfies the
    invariant. *)
Lemma settle_scan d s0 :
  boardOk (Anim.cells s0) (Anim.heap s0) →
  let sc := Anim.scan d s0 in
  let s1 := Anim.settle sc in
  let vs := fromValues (Anim.heap s0) (Anim.promises sc) in
  boardOk (Anim.cells s1) (Anim.heap s1)
  ∧ Anim.isProcessing s1 = Anim.isProcessing s0
  ∧ Anim.score s1 = Anim.score s0 + sumZ (map (fun v => v * 2) vs)
  ∧ (∀ m, m ∈ Anim.promises sc →
          Anim.valueOf (Anim.heap s0) (Anim.from m) = Anim.valueOf (Anim.heap s0) (Anim.into m)
          ∧ Anim.valueOf (Anim.heap s1) (Anim.into m)
            = Anim.valueOf (Anim.heap s0) (Anim.into m) * 2
          ∧ Anim.into m ∈ tileRefs (Anim.cells s1))
  ∧ valuesOn (Anim.cells s1) (Anim.heap s1) ++ vs ++ vs
    ≡ₚ valuesOn (Anim.cells s0) (Anim.heap s0) ++ map (fun v => v * 2) vs
  ∧ (Anim.hasMoved sc = true → ∃ p, inside p ∧ Anim.cellAt (Anim.cells s1) p = None)
  ∧ Forall (fun v => 2 ≤ v) vs.
Proof.
  intros Hbd sc s1 vs.
  pose proof (scan_ScanInv d s0 Hbd) as Hinv. fold sc in Hinv.
  pose proof (ScanInv_into_NoDup _ _ _ Hinv) as Hndi.
  destruct Hinv as [Hfl Hbd' Hpend Hval Hgap Hsc Hpr Hex].
  destruct (settle_spec (Anim.promises sc) (Anim.st sc) Hbd')
    as (Hc & Hp & Hs & Hv & Hpo); [|done|].
  { intros m Hm. destruct Hfl as (_ & Hfl & _).
    destruct (Hfl m Hm) as [? _], (Hpend m Hm) as (? & _). done. }
  fold (Anim.settle sc) in Hc, Hp, Hs, Hv, Hpo. fold s1 in Hc, Hp, Hs, Hv, Hpo.
  assert (∀ m, m ∈ Anim.promises sc →
               Anim.valueOf (Anim.heap s0) (Anim.from m)
               = Anim.valueOf (Anim.heap s0) (Anim.into m)) as Heqv.
  { intros m Hm. destruct (Hpend m Hm) as (_ & _ & Hvm & _).
    unfold sc in Hvm. by rewrite !scan_valueOf in Hvm. }
  assert (vs = map (Anim.valueOf (Anim.heap (Anim.st sc))) (map Anim.into (Anim.promises sc)))
    as Hvs.
  { unfold vs, fromValues. rewrite map_map. apply map_ext_in. intros m Hm.
    unfold sc. rewrite scan_valueOf. apply Heqv. by apply list_elem_of_In. }
  split; [|split; [|split; [|split; [|split; [|split]]]]].
  - rewrite Hc. eapply boardOk_ext; [exact Hbd'|exact Hpo|].
    intros t Ht. rewrite Hv. case_decide; [by apply pow2_double|done].
  - congruence.
  - rewrite Hs, Hsc. f_equal. rewrite Hvs, !map_map. done.
  - intros m Hm. split; [by apply Heqv|]. split.
    + rewrite Hv.
      rewrite decide_True by (apply list_elem_of_In, in_map; by apply list_elem_of_In).
      unfold sc. by rewrite scan_valueOf.
    + rewrite Hc. destruct Hfl as (_ & Hfl & _). destruct Hbd' as (Hwf & _).
      destruct (Hfl m Hm) as [? _], (Hpend m Hm) as (? & _).
      by eapply cellAt_tileRefs.
  - destruct Hbd' as (Hwf & Hnd & Hpos).
    assert (map Anim.into (Anim.promises sc) ⊆+ tileRefs (Anim.cells (Anim.st sc))) as Hsub.
    { apply NoDup_submseteq; [done|]. intros t Ht.
      apply list_elem_of_fmap in Ht as (m & -> & Hm).
      destruct Hfl as (_ & Hfl & _).
      destruct (Hfl m Hm) as [? _], (Hpend m Hm) as (? & _).
      by eapply cellAt_tileRefs. }
    apply submseteq_Permutation in Hsub as [rest Hrest].
    rewrite Hrest in Hnd. apply NoDup_app in Hnd as (_ & Hdisj & _).
    rewrite <- Hval. unfold valuesOn. rewrite Hc, Hrest, !map_app.
    rewrite <- Hvs.
    assert (map (Anim.valueOf (Anim.heap s1)) (map Anim.into (Anim.promises sc))
            = map (fun v => v * 2) vs) as ->.
    { rewrite Hvs, !map_map. apply map_ext_in. intros m Hm. rewrite Hv.
      rewrite decide_True; [done|]. apply list_elem_of_In, in_map. done. }
    assert (map (Anim.valueOf (Anim.heap s1)) rest
            = map (Anim.valueOf (Anim.heap (Anim.st sc))) rest) as ->.
    { apply map_ext_in. intros t Ht. rewrite Hv. rewrite decide_False; [done|].
      intros Hel. apply (Hdisj t Hel). by apply list_elem_of_In. }
    replace (fromValues (Anim.heap (Anim.st sc)) (Anim.promises sc)) with vs.
    { solve_Permutation. }
    unfold vs, fromValues. apply map_ext. intros m. unfold sc. by rewrite scan_valueOf.
  - intros Hm. rewrite Hc. by apply Hgap.
  - rewrite Hvs. apply Forall_forall. intros v Hel.
    apply list_elem_of_fmap in Hel as (t & -> & Ht).
    apply list_elem_of_fmap in Ht as (m & -> & Hm).
    destruct Hfl as (_ & Hfl & _). destruct Hbd' as (_ & _ & Hpos).
    destruct (Hfl m Hm) as [Hin _], (Hpend m Hm) as (Hcell & _).
    destruct (Hpos _ _ Hin Hcell) as [_ Hpw]. by apply pow2_pos.
Qed.



Lemma move_changed d k lt09 s0 :
  Anim.isProcessing s0 = false →
  Anim.hasMoved (Anim.scan d (Anim.setProcessing true s0)) = true →
  Anim.move d k lt09 s0
  = Anim.setProcessing false
      (Anim.spawnTile k lt09 (Anim.settle (Anim.scan d (Anim.setProcessing true s0)))).
Proof. intros Hp Hm. unfold Anim.move. by rewrite Hp, Hm. Qed.

Lemma sumZ_nonneg l : Forall (fun v => 2 ≤ v) l → 0 ≤ sumZ (map (fun v => v * 2) l).
Proof.
  induction 1 as [|v l Hv _ IH]; simpl; [done|]. lia.
Qed.

Lemma spawnTile_boardOk k lt09 s :
  boardOk (Anim.cells s) (Anim.heap s) →
  let s' := Anim.spawnTile k lt09 s in
  boardOk (Anim.cells s') (Anim.heap s')
  ∧ Anim.score s' = Anim.score s
  ∧ Anim.isProcessing s' = Anim.isProcessing s.
Proof.
  intros Hbd.
  destruct (spawnTile_cases k lt09 s) as [[_ ->]|(r & c & Hel & ->)]; simpl; [done|].
  apply emptyCells_elem in Hel as (Hr & Hc & Hcell).
  split; [|done].
  apply (spawn_boardOk _ _ (Z.of_nat r, Z.of_nat c)); try done.
  - unfold inside; simpl; lia.
  - destruct lt09; auto.
Qed.

(** After a move that changed the board there is room for the new tile. *)
Lemma spawnTile_values k lt09 s :
  boardOk (Anim.cells s) (Anim.heap s) →
  (∃ p, inside p ∧ Anim.cellAt (Anim.cells s) p = None) →
  let s' := Anim.spawnTile k lt09 s in
  ∃ v, (v = 2 ∨ v = 4)
       ∧ valuesOn (Anim.cells s') (Anim.heap s') ≡ₚ v :: valuesOn (Anim.cells s) (Anim.heap s)
       ∧ ∀ t, t ∈ tileRefs (Anim.cells s) →
              Anim.valueOf (Anim.heap s') t = Anim.valueOf (Anim.heap s) t.
Proof.
  intros Hbd (p & Hp & Hnone).
  destruct (spawnTile_cases k lt09 s) as [[Hnil _]|(r & c & Hel & ->)]; simpl.
  { by destruct (emptyCells_nil _ p Hnil Hp). }
  apply emptyCells_elem in Hel as (Hr & Hc & Hcell).
  exists (if lt09 then 2 else 4). split; [destruct lt09; auto|]. split.
  - apply (spawn_boardOk _ _ (Z.of_nat r, Z.of_nat c)); try done.
    + unfold inside; simpl; lia.
    + destruct lt09; auto.
  - intros t Ht. apply valueOf_alloc. by apply (boardOk_allocated (Anim.cells s)).
Qed.

Lemma boardOk_setProcessing b s :
  boardOk (Anim.cells (Anim.setProcessing b s)) (Anim.heap (Anim.setProcessing b s))
  ↔ boardOk (Anim.cells s) (Anim.heap s).
Proof. done. Qed.

Lemma move_Inv d k lt09 s0 : Inv s0 → Inv (Anim.move d k lt09 s0).
Proof.
  intros (Hbd & Hsc & Hp).
  destruct (Anim.hasMoved (Anim.scan d (Anim.setProcessing true s0))) eqn:Hm.
  - rewrite move_changed by done.
    destruct (settle_scan d (Anim.setProcessing true s0) Hbd)
      as (Hbd1 & _ & Hs1 & _ & _ & _ & Hvs).
    destruct (spawnTile_boardOk k lt09 _ Hbd1) as (Hbd2 & Hs2 & _).
    split; [done|]. split; [|done]. simpl. rewrite Hs2, Hs1. simpl.
    pose proof (sumZ_nonneg _ Hvs). simpl in *. lia.
  - by rewrite move_unchanged.
Qed.

Lemma emptyBoard_Inv : Inv Anim.emptyBoard.
Proof.
  split; [|done]. split; [apply wf_replicate|]. split; [apply NoDup_nil_2|].
  intros p t Hin Hcell. unfold Anim.cellAt in Hcell.
  change (Anim.cells Anim.emptyBoard)
    with (replicate SIZE (replicate SIZE (@None nat))) in Hcell.
  destruct (_ !! Z.to_nat p.1) as [row|] eqn:Hrow; [|done].
  apply lookup_replicate in Hrow as [-> _].
  destruct (_ !! Z.to_nat p.2) as [x|] eqn:Hx; [|done].
  apply lookup_replicate in Hx as [-> _]. done.
Qed.

Lemma reachable_Inv s : reachable s → Inv s.
Proof.
  induction 1 as [|k lt09 s _ (Hbd & Hsc & Hp)|d k lt09 s _ IH].
  - apply emptyBoard_Inv.
  - destruct (spawnTile_boardOk k lt09 s Hbd) as (? & Hs & Hp').
    split; [done|]. split; congruence.
  - by apply move_Inv.
Qed.

(** * The full-redraw version *)

(** ** One line *)

Ltac slide_cases :=
  repeat (cbn -[Z.mul Z.add Z.eqb];
          match goal with
          | |- context [Z.eqb ?x ?y] => destruct (Z.eqb_spec x y); try lia; try subst
          end);
  cbn -[Z.mul Z.add Z.eqb].

Lemma mergeLoop_score n i arr s :
  Redraw.mergeLoop n i arr s
  = ((Redraw.mergeLoop n i arr 0).1, s + (Redraw.mergeLoop n i arr 0).2).
Proof.
  revert i arr s. induction n as [|n IH]; intros i arr s; simpl.
  { f_equal. lia. }
  destruct (arr !! i) as [x|]; [|apply IH].
  destruct (arr !! S i) as [y|]; [|apply IH].
  destruct (x =? y); [|apply IH].
  rewrite IH. rewrite (IH _ _ (0 + x * 2)). simpl. f_equal. lia.
Qed.

(** The score only accumulates: [slide] adds [gain row] to it. *)
Lemma slide_split row s : Redraw.slide row s = (slideRow row, s + gain row).
Proof.
  unfold slideRow, gain, Redraw.slide. rewrite mergeLoop_score.
  by destruct (Redraw.mergeLoop _ _ _ 0) as [arr g].
Qed.

Lemma slideRow_shape a b c d :
  ∃ x0 x1 x2 x3, slideRow [a; b; c; d] = [x0; x1; x2; x3].
Proof.
  unfold slideRow, Redraw.slide, Redraw.nonzero, Redraw.pad.
  slide_cases; by do 4 eexists.
Qed.

(** A line that [slide] leaves as it is (read in either direction) had
    nothing to merge. *)
Lemma slide_no_gain a b c d :
  slideRow [a; b; c; d] = [a; b; c; d] ∨ slideRow [a; b; c; d] = [d; c; b; a] →
  gain [a; b; c; d] = 0.
Proof.
  unfold slideRow, gain, Redraw.slide, Redraw.nonzero, Redraw.pad.
  slide_cases; try reflexivity; intros [H|H]; simplify_eq; lia.
Qed.

(** The merges of one line: [vs] lists the number on each pair that
    merges.  The sums of the pairs are tiles of the new line: none of them
    has been merged again. *)
Lemma slide_merges a b c d :
  ∃ vs, Redraw.nonzero (slideRow [a; b; c; d]) ++ vs ++ vs
        ≡ₚ Redraw.nonzero [a; b; c; d] ++ map (fun v => v * 2) vs
        ∧ gain [a; b; c; d] = sumZ (map (fun v => v * 2) vs)
        ∧ map (fun v => v * 2) vs ⊆+ Redraw.nonzero (slideRow [a; b; c; d]).
Proof.
  unfold slideRow, gain, Redraw.slide, Redraw.nonzero, Redraw.pad.
  slide_cases.
  all: let try_with vs :=
         (exists vs; split; [cbn -[Z.mul Z.add]; solve_Permutation
                            |split; [cbn -[Z.mul Z.add]; lia
                                    |cbn -[Z.mul Z.add]; solve_submseteq]]) in
       first [ try_with (@nil Z) | try_with [a] | try_with [b] | try_with [c]
             | try_with [d] | try_with [a; c] | try_with [a; b] | try_with [b; d]
             | try_with [c; d] | try_with [a; d] | try_with [d; d] ].
Qed.

(** ** The whole grid *)

Lemma wf_shape {A} (g : list (list A)) :
  wf g →
  ∃ a0 a1 a2 a3 b0 b1 b2 b3 c0 c1 c2 c3 d0 d1 d2 d3,
    g = [[a0; a1; a2; a3]; [b0; b1; b2; b3]; [c0; c1; c2; c3]; [d0; d1; d2; d3]].
Proof.
  intros [Hlen Hrows].
  do 5 (destruct g as [|? g]; try discriminate).
  repeat match goal with H : Forall _ (_ :: _) |- _ => apply Forall_cons in H as [? H] end.
  repeat match goal with
         | H : length ?l = SIZE |- _ =>
             do 5 (destruct l as [|? l]; try discriminate); clear H
         end.
  by do 16 eexists.
Qed.

Lemma leftRow_mk g b s r row :
  g !! r = Some row →
  Redraw.leftRow (Redraw.mkAcc g b s) r
  = Redraw.mkAcc (<[r := slideRow row]> g) (b || Redraw.differ row (slideRow row))
      (s + gain row).
Proof.
  intros Hr. unfold Redraw.leftRow. simpl.
  by rewrite (list_lookup_total_correct _ _ _ Hr), slide_split.
Qed.

Lemma rightRow_mk g b s r row :
  g !! r = Some row →
  Redraw.rightRow (Redraw.mkAcc g b s) r
  = Redraw.mkAcc (<[r := reverse (slideRow (reverse row))]> g)
      (b || Redraw.differ (reverse row) (reverse (slideRow (reverse row))))
      (s + gain (reverse row)).
Proof.
  intros Hr. unfold Redraw.rightRow. simpl.
  rewrite (list_lookup_total_correct _ _ _ Hr).
  rewrite list_lookup_total_insert_eq by (eapply lookup_lt_Some; eauto).
  rewrite slide_split. by rewrite list_insert_insert_eq.
Qed.

Lemma upCol_mk g b s c :
  Redraw.upCol (Redraw.mkAcc g b s) c
  = Redraw.writeCol c (slideRow (Redraw.column g c)) (s + gain (Redraw.column g c))
      (Redraw.mkAcc g b s).
Proof. unfold Redraw.upCol. simpl. by rewrite slide_split. Qed.

Lemma downCol_mk g b s c :
  Redraw.downCol (Redraw.mkAcc g b s) c
  = Redraw.writeCol c (reverse (slideRow (reverse (Redraw.column g c))))
      (s + gain (reverse (Redraw.column g c))) (Redraw.mkAcc g b s).
Proof. unfold Redraw.downCol. simpl. by rewrite slide_split. Qed.

Ltac grid_cbn :=
  cbn -[slideRow gain Z.add Z.eqb Z.mul Redraw.upCol Redraw.downCol Redraw.leftRow
        Redraw.rightRow Redraw.differ].

Ltac name_lines :=
  repeat match goal with
         | |- context [slideRow [?a; ?b; ?c; ?d]] =>
             lazymatch goal with
             | H : slideRow [a; b; c; d] = _ |- _ => rewrite !H
             | _ =>
                 let H := fresh "Hline" in
                 destruct (slideRow_shape a b c d) as (? & ? & ? & ? & H);
                 rewrite !H
             end
         end.

Ltac resolve_steps :=
  repeat (first [ rewrite upCol_mk | rewrite downCol_mk
                | erewrite leftRow_mk by reflexivity
                | erewrite rightRow_mk by reflexivity ];
          grid_cbn; name_lines; grid_cbn).

(** What [move] computes, line by line. *)
Lemma resolve_lines dir g s :
  wf g →
  Redraw.newGrid (Redraw.resolve (key dir) (Redraw.mkState g s))
  = unlines dir (map slideRow (lines dir g))
  ∧ Redraw.sc (Redraw.resolve (key dir) (Redraw.mkState g s))
    = s + sumZ (map gain (lines dir g)).
Proof.
  intros Hwf.
  destruct (wf_shape g Hwf)
    as (a0&a1&a2&a3&b0&b1&b2&b3&c0&c1&c2&c3&d0&d1&d2&d3&->).
  destruct dir; grid_cbn; resolve_steps; (split; [reflexivity|lia]).
Qed.

Lemma differ4 a b c d x0 x1 x2 x3 :
  Redraw.differ [a; b; c; d] [x0; x1; x2; x3]
  = negb ((a =? x0) && (b =? x1) && (c =? x2) && (d =? x3)).
Proof.
  unfold Redraw.differ.
  destruct (Z.eqb_spec a x0), (Z.eqb_spec b x1), (Z.eqb_spec c x2), (Z.eqb_spec d x3);
    simpl; subst;
    first [ by apply bool_decide_eq_false_2; intros H; apply H
          | by apply bool_decide_eq_true_2; intros H; simplify_eq ].
Qed.

(** The lines that a move left as they were added nothing to the score. *)
Ltac no_gain_lines Hm :=
  repeat match goal with
         | H : slideRow [?p; ?q; ?r; ?t] = [?x0; ?x1; ?x2; ?x3] |- _ =>
             first [ assert (x0 = p ∧ x1 = q ∧ x2 = r ∧ x3 = t) as (-> & -> & -> & ->)
                       by lia;
                     pose proof (slide_no_gain p q r t (or_introl H))
                   | assert (x0 = t ∧ x1 = r ∧ x2 = q ∧ x3 = p) as (-> & -> & -> & ->)
                       by lia;
                     pose proof (slide_no_gain p q r t (or_intror H)) ];
             clear H
         end.

(** When [move] finds no change, [slide] has not touched the score; and
    for three of the four directions [hasMoved] tells whether the new grid
    differs from the old one. *)
Lemma resolve_moved dir g s :
  wf g →
  let acc := Redraw.resolve (key dir) (Redraw.mkState g s) in
  (Redraw.hasMoved acc = false → Redraw.sc acc = s)
  ∧ (dir ≠ Right → (Redraw.hasMoved acc = true ↔ Redraw.newGrid acc ≠ g)).
Proof.
  intros Hwf.
  destruct (wf_shape g Hwf)
    as (a0&a1&a2&a3&b0&b1&b2&b3&c0&c1&c2&c3&d0&d1&d2&d3&->).
  destruct dir; grid_cbn; resolve_steps; rewrite ?differ4; split.
  all: try (intros Hm; no_gain_lines Hm; lia).
  all: intros Hdir; try done; split.
  all: try (intros Hm Heq; simplify_eq; lia).
  all: intros Hne; apply not_false_iff_true; intros Hm; apply Hne.
  all: repeat f_equal; lia.
Qed.

Lemma resolve_invalid d st :
  ¬ validDirection d →
  Redraw.resolve d st = Redraw.mkAcc (Redraw.grid st) false (Redraw.score st).
Proof.
  intros Hd. unfold Redraw.resolve.
  destruct (String.eqb_spec d "ArrowLeft"); [destruct Hd; right; right; by left|].
  destruct (String.eqb_spec d "ArrowRight"); [destruct Hd; right; right; by right|].
  destruct (String.eqb_spec d "ArrowUp"); [destruct Hd; by left|].
  destruct (String.eqb_spec d "ArrowDown"); [destruct Hd; right; by left|].
  done.
Qed.

Lemma validDirection_key d : validDirection d ↔ ∃ dir, d = key dir.
Proof.
  split.
  - intros [->|[->|[->| ->]]]; [by exists Up|by exists Down|by exists Left|by exists Right].
  - intros [[] ->]; unfold validDirection; simpl; auto.
Qed.

Lemma gain_nonneg a b c d :
  0 ≤ a → 0 ≤ b → 0 ≤ c → 0 ≤ d → 0 ≤ gain [a; b; c; d].
Proof.
  unfold gain, Redraw.slide, Redraw.nonzero, Redraw.pad. intros Ha Hb Hc Hd.
  slide_cases; lia.
Qed.

Lemma resolve_gain_nonneg dir g s :
  wf g → Forall (Forall (fun v => 0 ≤ v)) g →
  s ≤ Redraw.sc (Redraw.resolve (key dir) (Redraw.mkState g s)).
Proof.
  intros Hwf Hpos. rewrite (proj2 (resolve_lines dir g s Hwf)).
  destruct (wf_shape g Hwf)
    as (a0&a1&a2&a3&b0&b1&b2&b3&c0&c1&c2&c3&d0&d1&d2&d3&->).
  repeat match goal with
         | H : Forall _ (_ :: _) |- _ => apply Forall_cons in H as [? H]
         end.
  destruct dir; grid_cbn;
    repeat match goal with
           | |- context [gain [?a; ?b; ?c; ?d]] =>
               lazymatch goal with
               | H : 0 ≤ gain [a; b; c; d] |- _ => fail
               | _ => pose proof (gain_nonneg a b c d ltac:(done) ltac:(done)
                                    ltac:(done) ltac:(done))
               end;
               generalize dependent (gain [a; b; c; d]); intros
           end;
    lia.
Qed.

Lemma nonzero_app l1 l2 :
  Redraw.nonzero (l1 ++ l2) = Redraw.nonzero l1 ++ Redraw.nonzero l2.
Proof. apply List.filter_app. Qed.

Lemma nonzero_Permutation l1 l2 : l1 ≡ₚ l2 → Redraw.nonzero l1 ≡ₚ Redraw.nonzero l2.
Proof.
  unfold Redraw.nonzero.
  induction 1 as [|x l l' _ IH|x y l|l l' l'' _ IH1 _ IH2]; simpl.
  - done.
  - destruct (negb _); [by apply perm_skip|done].
  - destruct (negb (y =? 0)), (negb (x =? 0)); try done. apply perm_swap.
  - by etrans.
Qed.

Lemma sumZ_app l1 l2 : sumZ (l1 ++ l2) = sumZ l1 + sumZ l2.
Proof. induction l1 as [|x l1 IH]; simpl; [done|]. rewrite IH. lia. Qed.

(** The merges of a whole move of the full-redraw version: [ws] lists the
    number on each pair that merges. *)
Lemma resolve_merges dir g s :
  wf g →
  let acc := Redraw.resolve (key dir) (Redraw.mkState g s) in
  ∃ ws, Redraw.nonzero (concat (Redraw.newGrid acc)) ++ ws ++ ws
        ≡ₚ Redraw.nonzero (concat g) ++ map (fun v => v * 2) ws
        ∧ Redraw.sc acc = s + sumZ (map (fun v => v * 2) ws).
Proof.
  intros Hwf acc. unfold acc.
  destruct (resolve_lines dir g s Hwf) as [Hng Hsc]. revert Hng Hsc.
  destruct (wf_shape g Hwf)
    as (a0&a1&a2&a3&b0&b1&b2&b3&c0&c1&c2&c3&d0&d1&d2&d3&->).
  intros Hng Hsc.
  assert (∃ l0 l1 l2 l3, lines dir [[a0; a1; a2; a3]; [b0; b1; b2; b3];
                                    [c0; c1; c2; c3]; [d0; d1; d2; d3]]
                         = [l0; l1; l2; l3]
                         ∧ (∃ p q r t, l0 = [p; q; r; t]) ∧ (∃ p q r t, l1 = [p; q; r; t])
                         ∧ (∃ p q r t, l2 = [p; q; r; t]) ∧ (∃ p q r t, l3 = [p; q; r; t])
                         ∧ concat [[a0; a1; a2; a3]; [b0; b1; b2; b3];
                                   [c0; c1; c2; c3]; [d0; d1; d2; d3]]
                           ≡ₚ l0 ++ l1 ++ l2 ++ l3)
    as (l0 & l1 & l2 & l3 & Hl & H0 & H1 & H2 & H3 & Hperm).
  { destruct dir; do 4 eexists; (split; [reflexivity|]);
      repeat (split; [by do 4 eexists|]); simpl; solve_Permutation. }
  rewrite Hl in Hng, Hsc. clear Hl.
  destruct H0 as (p0 & q0 & r0 & t0 & ->), H1 as (p1 & q1 & r1 & t1 & ->),
           H2 as (p2 & q2 & r2 & t2 & ->), H3 as (p3 & q3 & r3 & t3 & ->).
  destruct (slide_merges p0 q0 r0 t0) as (w0 & Hw0 & Hg0 & _).
  destruct (slide_merges p1 q1 r1 t1) as (w1 & Hw1 & Hg1 & _).
  destruct (slide_merges p2 q2 r2 t2) as (w2 & Hw2 & Hg2 & _).
  destruct (slide_merges p3 q3 r3 t3) as (w3 & Hw3 & Hg3 & _).
  exists (w0 ++ w1 ++ w2 ++ w3). rewrite Hng, Hsc. split.
  - rewrite (nonzero_Permutation _ _ Hperm).
    assert (concat (unlines dir (map slideRow [[p0; q0; r0; t0]; [p1; q1; r1; t1];
                                               [p2; q2; r2; t2]; [p3; q3; r3; t3]]))
            ≡ₚ slideRow [p0; q0; r0; t0] ++ slideRow [p1; q1; r1; t1]
               ++ slideRow [p2; q2; r2; t2] ++ slideRow [p3; q3; r3; t3]) as Hout.
    { simpl map. name_lines. destruct dir; simpl; solve_Permutation. }
    rewrite (nonzero_Permutation _ _ Hout). rewrite !nonzero_app, !map_app.
    trans ((Redraw.nonzero (slideRow [p0; q0; r0; t0]) ++ w0 ++ w0)
           ++ (Redraw.nonzero (slideRow [p1; q1; r1; t1]) ++ w1 ++ w1)
           ++ (Redraw.nonzero (slideRow [p2; q2; r2; t2]) ++ w2 ++ w2)
           ++ (Redraw.nonzero (slideRow [p3; q3; r3; t3]) ++ w3 ++ w3)).
    { solve_Permutation. }
    rewrite Hw0, Hw1, Hw2, Hw3. solve_Permutation.
  - simpl map at 2. simpl sumZ at 1. rewrite !map_app, !sumZ_app. lia.
Qed.

(** * The two versions compute the same grid *)

(** ** One line: the scan against [slide] *)

Ltac line_cases :=
  repeat (cbn -[Z.mul Z.add Z.eqb lineStep];
          match goal with
          | |- context [Z.eqb ?x ?y] => destruct (Z.eqb_spec x y); try lia; try subst
          end);
  cbn -[Z.mul Z.add Z.eqb lineStep].

Ltac eval_lineStep :=
  match goal with
  | |- context [lineStep ((?x, ?f) :: ?tl) ?k] =>
      let r := fresh "r" in
      let H := fresh "Hr" in
      remember (lineStep ((x, f) :: tl) k) as r eqn:H;
      unfold lineStep in H; revert H; line_cases; intros H; subst r
  end.

Lemma line_slide a b c d :
  map settled (foldl lineStep [(a, false); (b, false); (c, false); (d, false)] indices)
  = slideRow [a; b; c; d].
Proof.
  unfold slideRow, Redraw.slide, Redraw.nonzero, Redraw.pad, indices.
  cbn [seq SIZE foldl].
  eval_lineStep.
  all: eval_lineStep.
  all: eval_lineStep.
  all: eval_lineStep.
  all: reflexivity.
Qed.

(** ** Geometry of a line *)

Lemma coord_inside dir i k : (i < SIZE)%nat → (k < SIZE)%nat → inside (coord dir i k).
Proof. destruct dir; unfold inside, coord, SIZE; simpl; lia. Qed.

Lemma coord_ahead dir i k : Anim.ahead (key dir) (coord dir i (S k)) = coord dir i k.
Proof. destruct dir; unfold Anim.ahead, coord, SIZE; simpl; f_equal; lia. Qed.

Lemma coord_border dir i : Anim.outside (Anim.ahead (key dir) (coord dir i 0)) = true.
Proof. destruct dir; unfold Anim.ahead, Anim.outside, coord, SIZE; simpl; lia. Qed.

Lemma coord_inj dir i k i' k' :
  (k < SIZE)%nat → (k' < SIZE)%nat →
  coord dir i k = coord dir i' k' → i = i' ∧ k = k'.
Proof. unfold SIZE. destruct dir; unfold coord; simpl; intros ? ? [= ? ?]; lia. Qed.

Lemma lineView_lookup dir i s k :
  (k < SIZE)%nat → lineView dir i s !! k = Some (cellInfo s (coord dir i k)).
Proof.
  intros Hk. unfold lineView, indices.
  change (map ?f ?l) with (f <$> l).
  rewrite list_lookup_fmap, lookup_seq_lt by done. done.
Qed.

Lemma lineView_length dir i s : length (lineView dir i s) = SIZE.
Proof. unfold lineView. by rewrite length_map. Qed.

(** A line of a state from a line of another one. *)
Lemma lineView_ext dir i s s' :
  (∀ k, (k < SIZE)%nat → cellInfo s' (coord dir i k) = cellInfo s (coord dir i k)) →
  lineView dir i s' = lineView dir i s.
Proof.
  intros H. unfold lineView. apply map_ext_in. intros k Hk.
  apply H. unfold indices in Hk. apply in_seq in Hk. lia.
Qed.

Lemma lineView_insert dir i s s' n x :
  (n < SIZE)%nat →
  cellInfo s' (coord dir i n) = x →
  (∀ k, (k < SIZE)%nat → k ≠ n →
        cellInfo s' (coord dir i k) = cellInfo s (coord dir i k)) →
  lineView dir i s' = <[n := x]> (lineView dir i s).
Proof.
  intros Hn Hx Hother. apply list_eq. intros k.
  destruct (decide (k < SIZE)%nat) as [Hk|Hk].
  - rewrite lineView_lookup by done. destruct (decide (k = n)) as [->|Hne].
    + rewrite list_lookup_insert_eq by (by rewrite lineView_length). by rewrite Hx.
    + rewrite list_lookup_insert_ne by done. rewrite lineView_lookup by done.
      by rewrite Hother.
  - rewrite !lookup_ge_None_2; [done|rewrite length_insert|];
      rewrite lineView_length; lia.
Qed.

(** ** The bounds on the loops are enough *)

Lemma inside_coord dir p :
  inside p → ∃ i k, (i < SIZE)%nat ∧ (k < SIZE)%nat ∧ p = coord dir i k.
Proof.
  destruct p as [a b]. unfold inside, SIZE. simpl. intros [Ha Hb].
  destruct dir; unfold coord, SIZE.
  - exists (Z.to_nat b), (Z.to_nat a). repeat split; try lia. f_equal; lia.
  - exists (Z.to_nat b), (Z.to_nat (3 - a)). repeat split; try lia. f_equal; lia.
  - exists (Z.to_nat a), (Z.to_nat b). repeat split; try lia. f_equal; lia.
  - exists (Z.to_nat a), (Z.to_nat (3 - b)). repeat split; try lia. f_equal; lia.
Qed.

Lemma farthest_enough dir i cs h fs tile k fuel fuel' :
  (i < SIZE)%nat → (k < SIZE)%nat → (k < fuel)%nat → (k < fuel')%nat →
  Anim.farthest fuel (key dir) cs h fs tile (coord dir i k)
  = Anim.farthest fuel' (key dir) cs h fs tile (coord dir i k).
Proof.
  intros Hi. revert fuel fuel'.
  induction k as [|k IH]; intros fuel fuel' Hk Hf Hf';
    destruct fuel as [|fuel], fuel' as [|fuel']; try lia; simpl.
  - by rewrite coord_border.
  - rewrite coord_ahead.
    destruct (Anim.outside (coord dir i k)); [done|].
    destruct (Anim.cellAt cs (coord dir i k)); [done|].
    apply IH; lia.
Qed.

(** The [while (true)] loop of [move] ends within [SIZE] passes when it
    starts on an occupied cell of the board: more fuel gives the same
    result. *)
Lemma farthest_fuel d cs h fs tile p n :
  inside p → Anim.cellAt cs p ≠ None →
  Anim.farthest (SIZE + n) d cs h fs tile p = Anim.farthest SIZE d cs h fs tile p.
Proof.
  intros Hin Hocc. destruct (validDirection_dec d) as [Hd|Hd].
  - apply validDirection_key in Hd as [dir ->].
    destruct (inside_coord dir p Hin) as (i & k & Hi & Hk & ->).
    apply farthest_enough; (done || lia).
  - unfold SIZE. simpl. rewrite (ahead_invalid d p Hd).
    destruct (Anim.outside p); [done|].
    destruct (Anim.cellAt cs p); [done|]. by destruct Hocc.
Qed.

(** The two [for] loops of [move] make [SIZE] passes. *)
Lemma loopRange_fuel n :
  Anim.loopRange (SIZE + n) 0 (Z.of_nat SIZE) 1 = Anim.loopRange SIZE 0 (Z.of_nat SIZE) 1
  ∧ Anim.loopRange (SIZE + n) (Z.of_nat SIZE - 1) (-1) (-1)
    = Anim.loopRange SIZE (Z.of_nat SIZE - 1) (-1) (-1).
Proof. by destruct n. Qed.

(** ** One pass of the scan, seen on the lines *)

Lemma numberAt_setCell_ne cs h p q x :
  inside p → inside q → p ≠ q →
  numberAt (Anim.setCell cs p x) h q = numberAt cs h q.
Proof. intros. unfold numberAt. by rewrite cellAt_setCell_ne. Qed.

Lemma numberAt_setCell_eq cs h p x :
  wf cs → inside p →
  numberAt (Anim.setCell cs p x) h p
  = match x with Some t => Anim.valueOf h t | None => 0 end.
Proof. intros. unfold numberAt. by rewrite cellAt_setCell_eq. Qed.

Lemma numberAt_setPosition cs h t q p :
  numberAt cs (Anim.setPosition h t q) p = numberAt cs h p.
Proof.
  unfold numberAt. destruct (Anim.cellAt cs p); [|done]. apply valueOf_setPosition.
Qed.

Lemma lineWalk_le fuel line v k : (lineWalk fuel line v k ≤ k)%nat.
Proof.
  revert k. induction fuel as [|fuel IH]; intros k; simpl; [done|].
  destruct k as [|k]; [done|].
  destruct (line !! k) as [[w merged]|]; [|done].
  destruct (w =? 0); [specialize (IH k); lia|].
  destruct (_ && _); lia.
Qed.

Lemma farthest_lineWalk dir i s tile fuel k :
  (i < SIZE)%nat → (k < SIZE)%nat →
  tilesNonzero (Anim.cells (Anim.st s)) (Anim.heap (Anim.st s)) →
  Anim.farthest fuel (key dir) (Anim.cells (Anim.st s)) (Anim.heap (Anim.st s))
    (Anim.mergedFlags s) tile (coord dir i k)
  = coord dir i (lineWalk fuel (lineView dir i s)
                   (Anim.valueOf (Anim.heap (Anim.st s)) tile) k).
Proof.
  intros Hi Hk Hnz. revert k Hk.
  induction fuel as [|fuel IH]; intros k Hk; simpl; [done|].
  destruct k as [|k].
  { by rewrite coord_border. }
  rewrite coord_ahead.
  assert (inside (coord dir i k)) as Hin by (apply coord_inside; lia).
  rewrite (proj2 (outside_inside _) Hin).
  rewrite lineView_lookup by lia. unfold cellInfo, numberAt.
  destruct (Anim.cellAt _ (coord dir i k)) as [target|] eqn:Hcell.
  - rewrite (proj2 (Z.eqb_neq _ 0) (Hnz _ _ Hin Hcell)).
    by destruct (_ && _).
  - simpl. apply IH. lia.
Qed.

Lemma processCell_lineView dir i k s j :
  (i < SIZE)%nat → (k < SIZE)%nat → (j < SIZE)%nat →
  wf (Anim.cells (Anim.st s)) → wf (Anim.mergedFlags s) →
  tilesNonzero (Anim.cells (Anim.st s)) (Anim.heap (Anim.st s)) →
  lineView dir j (Anim.processCell (key dir) s (coord dir i k))
  = if decide (j = i) then lineStep (lineView dir i s) k else lineView dir j s.
Proof.
  intros Hi Hk Hj Hwf Hwff Hnz.
  set (cs := Anim.cells (Anim.st s)) in *. set (h := Anim.heap (Anim.st s)) in *.
  set (fs := Anim.mergedFlags s) in *.
  set (p := coord dir i k).
  assert (inside p) as Hp by (by apply coord_inside).
  unfold Anim.processCell. fold cs h fs.
  assert (lineView dir i s !! k = Some (numberAt cs h p, Anim.flagAt fs p)) as Hlk
    by (by rewrite lineView_lookup).
  destruct (Anim.cellAt cs p) as [tile|] eqn:Hcp.
  2: { case_decide as Hji; [|done]. subst j. unfold lineStep. rewrite Hlk.
       unfold numberAt. by rewrite Hcp. }
  set (v := Anim.valueOf h tile).
  assert (v ≠ 0) as Hv by (by apply (Hnz p tile)).
  assert (numberAt cs h p = v) as Hnp by (unfold numberAt; by rewrite Hcp).
  set (n := lineWalk SIZE (lineView dir i s) v k).
  assert (Anim.farthest SIZE (key dir) cs h fs tile p = coord dir i n) as Hfar
    by (by apply farthest_lineWalk).
  rewrite Hfar. clear Hfar.
  pose proof (lineWalk_le SIZE (lineView dir i s) v k) as Hle. fold n in Hle.
  assert (lineStep (lineView dir i s) k
          = if (n =? k)%nat then lineView dir i s
            else match lineView dir i s !! n with
                 | Some (w, fn) =>
                     if w =? 0
                     then <[n := (v, fn)]> (<[k := (0, Anim.flagAt fs p)]> (lineView dir i s))
                     else <[n := (w, true)]> (<[k := (0, Anim.flagAt fs p)]> (lineView dir i s))
                 | None => lineView dir i s
                 end) as Hstep.
  { unfold lineStep. rewrite Hlk, Hnp. by rewrite (proj2 (Z.eqb_neq v 0) Hv). }
  destruct (decide (n = k)) as [Hnk|Hnk].
  { rewrite Hnk. rewrite bool_decide_eq_false_2 by (intros H; by apply H).
    case_decide; [|done]. subst j. rewrite Hstep, Hnk. by rewrite Nat.eqb_refl. }
  set (q := coord dir i n) in *.
  assert (inside q) as Hq by (apply coord_inside; lia).
  assert (q ≠ p) as Hqp.
  { intros Heq. apply coord_inj in Heq as [_ ?]; [done|lia|done]. }
  rewrite bool_decide_eq_true_2 by done.
  rewrite (proj2 (Nat.eqb_neq n k) Hnk) in Hstep.
  rewrite lineView_lookup in Hstep by lia. fold q in Hstep.
  unfold cellInfo in Hstep. fold cs h fs in Hstep.
  assert (∀ j' k', (j' < SIZE)%nat → (k' < SIZE)%nat → (j' ≠ i ∨ k' ≠ k) →
                   coord dir j' k' ≠ p) as Hnep.
  { intros j' k' ? ? Hor Heq. apply coord_inj in Heq as [? ?]; [|done..]. lia. }
  assert (∀ j' k', (j' < SIZE)%nat → (k' < SIZE)%nat → (j' ≠ i ∨ k' ≠ n) →
                   coord dir j' k' ≠ q) as Hneq.
  { intros j' k' ? ? Hor Heq. apply coord_inj in Heq as [? ?]; [|done|lia]. lia. }
  pose proof (wf_setCell cs p None Hwf) as Hwf1.
  (* the line of the mover, once its cell is cleared *)
  set (s1 := {| Anim.st := {| Anim.cells := Anim.setCell cs p None;
                              Anim.heap := Anim.setPosition h tile q;
                              Anim.score := Anim.score (Anim.st s);
                              Anim.isProcessing := Anim.isProcessing (Anim.st s) |};
                Anim.mergedFlags := fs; Anim.hasMoved := true;
                Anim.promises := Anim.promises s |}).
  assert (lineView dir i s1 = <[k := (0, Anim.flagAt fs p)]> (lineView dir i s)) as Hs1.
  { apply lineView_insert; [done| |].
    - unfold cellInfo; simpl. fold p. rewrite numberAt_setPosition.
      by rewrite numberAt_setCell_eq.
    - intros k' Hk' Hne. unfold cellInfo; simpl. fold cs h fs.
      rewrite numberAt_setPosition, numberAt_setCell_ne; try done.
      + by apply coord_inside.
      + intros Heq. symmetry in Heq. revert Heq. apply Hnep; auto. }
  assert (∀ j', (j' < SIZE)%nat → j' ≠ i → lineView dir j' s1 = lineView dir j' s) as Hs1'.
  { intros j' Hj' Hne. apply lineView_ext. intros k' Hk'. unfold cellInfo; simpl.
    fold cs h fs. rewrite numberAt_setPosition, numberAt_setCell_ne; try done.
    - by apply coord_inside.
    - intros Heq. symmetry in Heq. revert Heq. apply Hnep; auto. }
  destruct (Anim.cellAt cs q) as [t|] eqn:Hcq.
  - (* onto an equal tile *)
    assert (numberAt cs h q = Anim.valueOf h t) as Hnq by (unfold numberAt; by rewrite Hcq).
    rewrite Hnq in Hstep.
    rewrite (proj2 (Z.eqb_neq _ 0) (Hnz q t Hq Hcq)) in Hstep.
    case_decide as Hji.
    + subst j. rewrite Hstep, <- Hs1. apply lineView_insert; [lia| |].
      * unfold cellInfo; simpl. fold q.
        rewrite numberAt_setPosition, numberAt_setCell_ne by done.
        rewrite Hnq. by rewrite flagAt_setFlag_eq.
      * intros k' Hk' Hne. unfold cellInfo; simpl. f_equal.
        apply flagAt_setFlag_ne; [done|by apply coord_inside|].
        intros Heq. symmetry in Heq. revert Heq. apply Hneq; auto.
    + rewrite <- (Hs1' j) by done. apply lineView_ext. intros k' Hk'.
      unfold cellInfo; simpl. f_equal.
      apply flagAt_setFlag_ne; [done|by apply coord_inside|].
      intros Heq. symmetry in Heq. revert Heq. apply Hneq; auto.
  - (* to an empty cell *)
    assert (numberAt cs h q = 0) as Hnq by (unfold numberAt; by rewrite Hcq).
    rewrite Hnq in Hstep. simpl in Hstep.
    case_decide as Hji.
    + subst j. rewrite Hstep, <- Hs1. apply lineView_insert; [lia| |].
      * unfold cellInfo; simpl. fold q.
        rewrite numberAt_setPosition, numberAt_setCell_eq by done.
        done.
      * intros k' Hk' Hne. unfold cellInfo; simpl. f_equal.
        rewrite !numberAt_setPosition. apply numberAt_setCell_ne; [done|by apply coord_inside|].
        intros Heq. symmetry in Heq. revert Heq. apply Hneq; auto.
    + rewrite <- (Hs1' j) by done. apply lineView_ext. intros k' Hk'.
      unfold cellInfo; simpl. f_equal.
      rewrite !numberAt_setPosition. apply numberAt_setCell_ne; [done|by apply coord_inside|].
      intros Heq. symmetry in Heq. revert Heq. apply Hneq; auto.
Qed.

Lemma processCell_hasMoved dir i k s :
  (i < SIZE)%nat → (k < SIZE)%nat →
  tilesNonzero (Anim.cells (Anim.st s)) (Anim.heap (Anim.st s)) →
  Anim.hasMoved (Anim.processCell (key dir) s (coord dir i k))
  = Anim.hasMoved s || lineMoves (lineView dir i s) k.
Proof.
  intros Hi Hk Hnz.
  pose proof (coord_inside dir i k Hi Hk) as Hp.
  unfold Anim.processCell, lineMoves. rewrite lineView_lookup by done.
  unfold cellInfo, numberAt.
  destruct (Anim.cellAt _ (coord dir i k)) as [tile|] eqn:Hcp.
  2: { simpl. by rewrite orb_false_r. }
  rewrite (farthest_lineWalk dir i s tile SIZE k Hi Hk Hnz).
  rewrite (proj2 (Z.eqb_neq _ 0) (Hnz _ _ Hp Hcp)).
  pose proof (lineWalk_le SIZE (lineView dir i s)
                (Anim.valueOf (Anim.heap (Anim.st s)) tile) k) as Hle.
  set (n := lineWalk SIZE (lineView dir i s)
              (Anim.valueOf (Anim.heap (Anim.st s)) tile) k) in *.
  cbn [negb andb].
  destruct (Nat.eqb_spec n k) as [Hnk|Hnk].
  - rewrite Hnk. rewrite bool_decide_eq_false_2 by (intros H; by apply H).
    simpl. by rewrite orb_false_r.
  - rewrite bool_decide_eq_true_2.
    + destruct (Anim.cellAt _ (coord dir i n)); simpl; by rewrite orb_true_r.
    + intros Heq. apply coord_inj in Heq as [_ ?]; [done|lia|done].
Qed.

(** ** The whole scan, seen on the lines *)

Lemma scanOrder_lineOrder dir :
  Anim.scanOrder (key dir) = map (fun ik => coord dir ik.1 ik.2) (lineOrder dir).
Proof. destruct dir; vm_compute; reflexivity. Qed.

Lemma lineOrder_line dir j :
  (j < SIZE)%nat →
  map snd (List.filter (fun ik => (ik.1 =? j)%nat) (lineOrder dir)) = indices.
Proof.
  unfold SIZE. intros Hj.
  destruct dir; do 4 (destruct j as [|j]; [reflexivity|]); lia.
Qed.

Lemma lineOrder_bounds dir :
  Forall (fun ik => (ik.1 < SIZE)%nat ∧ (ik.2 < SIZE)%nat) (lineOrder dir).
Proof.
  destruct dir; unfold lineOrder, indices, SIZE; simpl;
    repeat (apply Forall_cons_2; [simpl; lia|]); apply Forall_nil_2.
Qed.

Lemma boardOk_tilesNonzero cs h : boardOk cs h → tilesNonzero cs h.
Proof.
  intros (_ & _ & Hpos) p t Hin Hcell. destruct (Hpos p t Hin Hcell) as [_ Hpw].
  apply pow2_pos in Hpw. lia.
Qed.

Lemma foldl_lineView dir j s0 l s :
  (j < SIZE)%nat →
  Forall (fun ik => (ik.1 < SIZE)%nat ∧ (ik.2 < SIZE)%nat) l →
  borderFirst (key dir) (map (fun ik => coord dir ik.1 ik.2) l) = true →
  ScanInv s0 (map (fun ik => coord dir ik.1 ik.2) l) s →
  lineView dir j
    (foldl (Anim.processCell (key dir)) s (map (fun ik => coord dir ik.1 ik.2) l))
  = foldl lineStep (lineView dir j s)
      (map snd (List.filter (fun ik => (ik.1 =? j)%nat) l)).
Proof.
  intros Hj. revert s. induction l as [|[i k] l IH]; intros s Hl Hord Hinv; [done|].
  apply Forall_cons in Hl as [[Hi Hk] Hl]. simpl in Hi, Hk.
  cbn [map foldl fst snd List.filter].
  pose proof (coord_inside dir i k Hi Hk) as Hp.
  rewrite IH; [|done| |by apply processCell_ScanInv].
  2: { simpl in Hord. by apply andb_true_iff in Hord as [_ ?]. }
  destruct Hinv as [(Hwff & _) Hbd _ _ _ _ _ _].
  rewrite processCell_lineView;
    [|done..|by destruct Hbd|done|by apply boardOk_tilesNonzero].
  destruct (Nat.eqb_spec i j) as [->|Hne].
  - by rewrite decide_True.
  - by rewrite decide_False.
Qed.

Lemma scan_lineView dir j s0 :
  (j < SIZE)%nat → boardOk (Anim.cells s0) (Anim.heap s0) →
  lineView dir j (Anim.scan (key dir) s0)
  = foldl lineStep (lineView dir j (Anim.scanStart s0)) indices.
Proof.
  intros Hj Hbd. unfold Anim.scan.
  rewrite scanOrder_lineOrder.
  rewrite (foldl_lineView dir j s0); [by rewrite lineOrder_line|done| | |].
  - apply lineOrder_bounds.
  - rewrite <- scanOrder_lineOrder. apply scanOrder_borderFirst.
  - by apply scanStart_ScanInv.
Qed.

Lemma foldl_lineRun_fst line b ks :
  (foldl lineRun (line, b) ks).1 = foldl lineStep line ks.
Proof.
  revert line b. induction ks as [|k ks IH]; intros line b; simpl; [done|].
  unfold lineRun at 2. simpl. apply IH.
Qed.

Lemma foldl_lineRun_snd line b ks :
  (foldl lineRun (line, b) ks).2 = b || (foldl lineRun (line, false) ks).2.
Proof.
  revert line b. induction ks as [|k ks IH]; intros line b; simpl.
  { by rewrite orb_false_r. }
  unfold lineRun at 2 4. simpl. rewrite IH.
  rewrite (IH _ (lineMoves line k)). by rewrite orb_assoc.
Qed.

Lemma foldl_lineRun_cons line k ks :
  (foldl lineRun (lineRun (line, false) k) ks).2
  = lineMoves line k || (foldl lineRun (lineStep line k, false) ks).2.
Proof.
  change (lineRun (line, false) k) with (lineStep line k, false || lineMoves line k).
  by rewrite foldl_lineRun_snd.
Qed.

Lemma foldl_hasMoved dir s0 l s :
  Forall (fun ik => (ik.1 < SIZE)%nat ∧ (ik.2 < SIZE)%nat) l →
  borderFirst (key dir) (map (fun ik => coord dir ik.1 ik.2) l) = true →
  ScanInv s0 (map (fun ik => coord dir ik.1 ik.2) l) s →
  Anim.hasMoved
    (foldl (Anim.processCell (key dir)) s (map (fun ik => coord dir ik.1 ik.2) l))
  = Anim.hasMoved s
    || existsb (fun j => (foldl lineRun (lineView dir j s, false)
                            (map snd (List.filter (fun ik => (ik.1 =? j)%nat) l))).2)
         indices.
Proof.
  revert s. induction l as [|[i k] l IH]; intros s Hl Hord Hinv.
  { simpl. by rewrite orb_false_r. }
  apply Forall_cons in Hl as [[Hi Hk] Hl]. simpl in Hi, Hk.
  cbn [map foldl fst snd].
  pose proof (coord_inside dir i k Hi Hk) as Hp.
  rewrite IH; [|done| |by apply processCell_ScanInv].
  2: { simpl in Hord. by apply andb_true_iff in Hord as [_ ?]. }
  destruct Hinv as [(Hwff & _) Hbd _ _ _ _ _ _].
  pose proof (boardOk_tilesNonzero _ _ Hbd) as Hnz. pose proof Hbd as (Hwf & _).
  rewrite processCell_hasMoved by done.
  unfold indices, SIZE. cbn [seq existsb].
  rewrite !(processCell_lineView dir i k s) by (done || (unfold SIZE; lia)).
  unfold SIZE in Hi.
  do 4 (destruct i as [|i];
        [cbn [List.filter fst snd Nat.eqb map foldl];
         repeat first [rewrite decide_True by done|rewrite decide_False by done];
         rewrite foldl_lineRun_cons;
         repeat match goal with
                | |- context [(foldl lineRun ?a ?b).2] =>
                    generalize ((foldl lineRun a b).2); intros ?
                end;
         match goal with
         | |- context [lineMoves ?a ?b] => generalize (lineMoves a b); intros ?
         end;
         generalize (Anim.hasMoved s); intros ?;
         repeat match goal with b : bool |- _ => destruct b end; reflexivity|]).
  lia.
Qed.

Lemma existsb_indices_ext (f g : nat → bool) :
  (∀ j, (j < SIZE)%nat → f j = g j) → existsb f indices = existsb g indices.
Proof.
  intros H. unfold indices, SIZE in *. simpl. by rewrite !H by lia.
Qed.

Lemma scan_hasMoved dir s0 :
  boardOk (Anim.cells s0) (Anim.heap s0) →
  Anim.hasMoved (Anim.scan (key dir) s0)
  = existsb (fun j => (foldl lineRun (lineView dir j (Anim.scanStart s0), false) indices).2)
      indices.
Proof.
  intros Hbd. unfold Anim.scan.
  rewrite scanOrder_lineOrder.
  rewrite (foldl_hasMoved dir s0).
  - simpl Anim.hasMoved. cbn [orb]. apply existsb_indices_ext.
    intros j Hj. by rewrite lineOrder_line.
  - apply lineOrder_bounds.
  - rewrite <- scanOrder_lineOrder. apply scanOrder_borderFirst.
  - by apply scanStart_ScanInv.
Qed.

(** ** The merges, seen on the cells *)

Lemma settle_numberAt d s0 p :
  boardOk (Anim.cells s0) (Anim.heap s0) → inside p →
  let sc := Anim.scan d s0 in
  numberAt (Anim.cells (Anim.settle sc)) (Anim.heap (Anim.settle sc)) p
  = settled (cellInfo sc p).
Proof.
  intros Hbd Hin sc.
  pose proof (scan_ScanInv d s0 Hbd) as Hinv. fold sc in Hinv.
  pose proof (ScanInv_into_NoDup _ _ _ Hinv) as Hndi.
  destruct Hinv as [Hfl Hbd' Hpend Hval Hgap Hsc Hpr Hex].
  destruct (settle_spec (Anim.promises sc) (Anim.st sc) Hbd')
    as (Hc & _ & _ & Hv & _); [|done|].
  { intros m Hm. destruct Hfl as (_ & Hfl & _).
    destruct (Hfl m Hm) as [? _], (Hpend m Hm) as (? & _). done. }
  fold (Anim.settle sc) in Hc, Hv.
  unfold numberAt, cellInfo, settled, numberAt. simpl. rewrite Hc.
  destruct (Anim.cellAt (Anim.cells (Anim.st sc)) p) as [t|] eqn:Hcell.
  2: { destruct (Anim.flagAt _ p); lia. }
  rewrite Hv. destruct Hfl as (_ & Hfl & _). destruct Hbd' as (Hwf & Hnd & _).
  destruct (Anim.flagAt (Anim.mergedFlags sc) p) eqn:Hflag.
  - rewrite decide_True; [done|].
    apply (Hex p Hin) in Hflag. apply list_elem_of_fmap in Hflag as (m & -> & Hm).
    destruct (Hpend m Hm) as (Hcm & _). rewrite Hcell in Hcm. simplify_eq.
    apply list_elem_of_In, in_map. by apply list_elem_of_In.
  - rewrite decide_False; [done|]. intros Hel.
    apply list_elem_of_fmap in Hel as (m & -> & Hm).
    destruct (Hfl m Hm) as [Hdin Hdf], (Hpend m Hm) as (Hcm & _).
    assert (dest m = p) as Heq by (by eapply cellAt_inj).
    rewrite Heq in Hdf. congruence.
Qed.

(** ** The grid after the merges *)

Lemma values_lines dir s :
  wf (Anim.cells s) →
  lines dir (Anim.values s)
  = map (fun i => numbersOn dir i (Anim.cells s) (Anim.heap s)) indices.
Proof.
  destruct s as [cs h sc pr]. simpl. intros Hwf.
  destruct (wf_shape cs Hwf)
    as (a0&a1&a2&a3&b0&b1&b2&b3&c0&c1&c2&c3&d0&d1&d2&d3&->).
  destruct dir; reflexivity.
Qed.

Lemma unlines_lines dir g : wf g → unlines dir (lines dir g) = g.
Proof.
  intros Hwf.
  destruct (wf_shape g Hwf)
    as (a0&a1&a2&a3&b0&b1&b2&b3&c0&c1&c2&c3&d0&d1&d2&d3&->).
  destruct dir; reflexivity.
Qed.

Lemma values_wf s : wf (Anim.cells s) → wf (Anim.values s).
Proof.
  intros [Hlen Hrows]. unfold Anim.values. split; [by rewrite length_map|].
  apply Forall_forall. intros row Hrow.
  apply list_elem_of_fmap in Hrow as (row0 & -> & Hrow0).
  rewrite length_map. rewrite Forall_forall in Hrows. by apply Hrows.
Qed.

Lemma lineView_start dir i s0 :
  lineView dir i (Anim.scanStart s0)
  = map (fun v => (v, false)) (numbersOn dir i (Anim.cells s0) (Anim.heap s0)).
Proof.
  unfold lineView, numbersOn. rewrite map_map. apply map_ext. intros k.
  unfold cellInfo. simpl. by rewrite flagAt_replicate.
Qed.

Lemma numbersOn_settle d dir i s0 :
  (i < SIZE)%nat → boardOk (Anim.cells s0) (Anim.heap s0) →
  let s1 := Anim.settle (Anim.scan d s0) in
  numbersOn dir i (Anim.cells s1) (Anim.heap s1)
  = map settled (lineView dir i (Anim.scan d s0)).
Proof.
  intros Hi Hbd s1. unfold numbersOn, lineView. rewrite map_map.
  apply map_ext_in. intros k Hk. apply settle_numberAt; [done|].
  apply coord_inside; [done|]. unfold indices in Hk. apply in_seq in Hk. lia.
Qed.

(** The grid that the animated version holds once the merges of a move are
    applied: every line of the board has gone through [slide]. *)
Lemma settle_scan_lines dir s0 :
  boardOk (Anim.cells s0) (Anim.heap s0) →
  Anim.values (Anim.settle (Anim.scan (key dir) s0))
  = unlines dir (map slideRow (lines dir (Anim.values s0))).
Proof.
  intros Hbd.
  destruct (settle_scan (key dir) s0 Hbd) as ((Hwf1 & _) & _).
  pose proof Hbd as (Hwf0 & _).
  rewrite <- (unlines_lines dir (Anim.values (Anim.settle _))) by (by apply values_wf).
  f_equal. rewrite !values_lines by done. rewrite map_map.
  apply map_ext_in. intros i Hi. unfold indices in Hi. apply in_seq in Hi.
  rewrite numbersOn_settle by (done || lia).
  rewrite scan_lineView by (done || lia). rewrite lineView_start.
  unfold numbersOn, indices. cbn [map seq SIZE]. apply line_slide.
Qed.

(** On a board that satisfies the invariant the two versions compute the
    same grid, whatever the direction. *)
Lemma versions_same_grid dir s0 sc0 :
  boardOk (Anim.cells s0) (Anim.heap s0) →
  Anim.values (Anim.settle (Anim.scan (key dir) s0))
  = Redraw.newGrid (Redraw.resolve (key dir) (Redraw.mkState (Anim.values s0) sc0)).
Proof.
  intros Hbd. rewrite settle_scan_lines by done.
  pose proof Hbd as (Hwf & _).
  by rewrite (proj1 (resolve_lines dir _ sc0 (values_wf _ Hwf))).
Qed.

(** ** The change flag of the animated version *)

Ltac run_cases :=
  repeat (cbn -[Z.mul Z.add Z.eqb lineRun];
          match goal with
          | |- context [Z.eqb ?x ?y] => destruct (Z.eqb_spec x y); try lia; try subst
          end);
  cbn -[Z.mul Z.add Z.eqb lineRun].

Ltac eval_lineRun :=
  match goal with
  | |- context [lineRun ((?x, ?f) :: ?tl, ?b) ?k] =>
      let r := fresh "r" in
      let H := fresh "Hr" in
      remember (lineRun ((x, f) :: tl, b) k) as r eqn:H;
      unfold lineRun, lineStep, lineMoves in H; revert H; run_cases; intros H; subst r
  end.

(** On a line no tile moves exactly when [slide] returns the line as it
    is. *)
Lemma line_moves a b c d :
  (foldl lineRun ([(a, false); (b, false); (c, false); (d, false)], false) indices).2
  = false
  ↔ slideRow [a; b; c; d] = [a; b; c; d].
Proof.
  unfold slideRow, Redraw.slide, Redraw.nonzero, Redraw.pad, indices.
  cbn [seq SIZE foldl].
  eval_lineRun.
  all: eval_lineRun.
  all: eval_lineRun.
  all: eval_lineRun.
  all: cbn -[Z.mul Z.add]; split; intros H; simplify_eq; try done; try lia.
Qed.

Lemma lines_fixed dir g :
  wf g →
  unlines dir (map slideRow (lines dir g)) = g
  ↔ map slideRow (lines dir g) = lines dir g.
Proof.
  intros Hwf.
  destruct (wf_shape g Hwf)
    as (a0&a1&a2&a3&b0&b1&b2&b3&c0&c1&c2&c3&d0&d1&d2&d3&->).
  destruct dir; grid_cbn; name_lines; grid_cbn; split; intros H; by simplify_eq.
Qed.

Lemma scan_hasMoved_false dir s0 :
  boardOk (Anim.cells s0) (Anim.heap s0) →
  Anim.hasMoved (Anim.scan (key dir) s0) = false
  ↔ map slideRow (lines dir (Anim.values s0)) = lines dir (Anim.values s0).
Proof.
  intros Hbd. rewrite scan_hasMoved by done. rewrite values_lines by apply Hbd.
  set (F := fun j => (foldl lineRun (lineView dir j (Anim.scanStart s0), false) indices).2).
  set (N := fun j => numbersOn dir j (Anim.cells s0) (Anim.heap s0)).
  assert (∀ j, F j = false ↔ slideRow (N j) = N j) as HFN.
  { intros j. unfold F, N. rewrite lineView_start.
    unfold numbersOn. unfold indices at 2 3 4, SIZE. cbn [map seq]. apply line_moves. }
  change (existsb F indices = false ↔ map slideRow (map N indices) = map N indices).
  unfold indices, SIZE. cbn [seq map existsb].
  rewrite !orb_false_iff, !HFN. split.
  - intros (H0 & H1 & H2 & H3 & _). by rewrite H0, H1, H2, H3.
  - intros [= H0 H1 H2 H3]. done.
Qed.

(** The animated version reports a change exactly when the grid after the
    merges differs from the grid before the move. *)
Lemma anim_hasMoved_iff dir s0 :
  boardOk (Anim.cells s0) (Anim.heap s0) →
  Anim.hasMoved (Anim.scan (key dir) s0) = true
  ↔ Anim.values (Anim.settle (Anim.scan (key dir) s0)) ≠ Anim.values s0.
Proof.
  intros Hbd. rewrite settle_scan_lines by done.
  pose proof (values_wf s0 (proj1 Hbd)) as Hwf.
  rewrite (lines_fixed dir _ Hwf), <- (scan_hasMoved_false dir s0 Hbd).
  by destruct (Anim.hasMoved _).
Qed.

(** For the directions left, up and down the two versions report the same
    change flag. *)
Lemma versions_same_flag dir s0 sc0 :
  dir ≠ Right →
  boardOk (Anim.cells s0) (Anim.heap s0) →
  Anim.hasMoved (Anim.scan (key dir) s0)
  = Redraw.hasMoved (Redraw.resolve (key dir) (Redraw.mkState (Anim.values s0) sc0)).
Proof.
  intros Hdir Hbd. pose proof (values_wf s0 (proj1 Hbd)) as Hwf.
  apply eq_true_iff_eq.
  rewrite (anim_hasMoved_iff dir s0 Hbd).
  rewrite (proj2 (resolve_moved dir _ sc0 Hwf) Hdir).
  by rewrite (versions_same_grid dir s0 sc0 Hbd).
Qed.

(** ** Symmetries of the grid *)

Ltac sym_grid g Hwf :=
  destruct (wf_shape g Hwf)
    as (a0&a1&a2&a3&b0&b1&b2&b3&c0&c1&c2&c3&d0&d1&d2&d3&->);
  grid_cbn; name_lines; reflexivity.

Lemma lines_mirrorH g :
  wf g →
  mirrorH (unlines Right (map slideRow (lines Right g)))
  = unlines Left (map slideRow (lines Left (mirrorH g))).
Proof. intros Hwf. sym_grid g Hwf. Qed.

Lemma lines_flipV g :
  wf g →
  flipV (unlines Down (map slideRow (lines Down g)))
  = unlines Up (map slideRow (lines Up (flipV g))).
Proof. intros Hwf. sym_grid g Hwf. Qed.

Lemma lines_transpose_up g :
  wf g →
  transpose (unlines Up (map slideRow (lines Up g)))
  = unlines Left (map slideRow (lines Left (transpose g))).
Proof. intros Hwf. sym_grid g Hwf. Qed.

Lemma lines_transpose_down g :
  wf g →
  transpose (unlines Down (map slideRow (lines Down g)))
  = unlines Right (map slideRow (lines Right (transpose g))).
Proof. intros Hwf. sym_grid g Hwf. Qed.

Lemma wf_mirrorH (g : list (list Z)) : wf g → wf (mirrorH g).
Proof.
  intros Hwf.
  destruct (wf_shape g Hwf)
    as (a0&a1&a2&a3&b0&b1&b2&b3&c0&c1&c2&c3&d0&d1&d2&d3&->).
  split; [reflexivity|]. repeat (apply Forall_cons_2; [reflexivity|]). apply Forall_nil_2.
Qed.

Lemma wf_flipV (g : list (list Z)) : wf g → wf (flipV g).
Proof.
  intros Hwf.
  destruct (wf_shape g Hwf)
    as (a0&a1&a2&a3&b0&b1&b2&b3&c0&c1&c2&c3&d0&d1&d2&d3&->).
  split; [reflexivity|]. repeat (apply Forall_cons_2; [reflexivity|]). apply Forall_nil_2.
Qed.

Lemma wf_transpose (g : list (list Z)) : wf g → wf (transpose g).
Proof.
  intros Hwf.
  destruct (wf_shape g Hwf)
    as (a0&a1&a2&a3&b0&b1&b2&b3&c0&c1&c2&c3&d0&d1&d2&d3&->).
  split; [reflexivity|]. repeat (apply Forall_cons_2; [reflexivity|]). apply Forall_nil_2.
Qed.

(** * Runs of the two scripts on small boards *)

Example slide_222 : Redraw.slide [2; 2; 2; 0] 0 = ([4; 2; 0; 0], 4).
Proof. reflexivity. Qed.

Example slide_2244 : Redraw.slide [2; 2; 4; 4] 7 = ([4; 8; 0; 0], 19).
Proof. reflexivity. Qed.

Example right_2000 :
  let acc := Redraw.resolve "ArrowRight"
               (Redraw.mkState [[2;0;0;0];[0;0;0;0];[0;0;0;0];[0;0;0;0]] 0) in
  Redraw.hasMoved acc = false ∧ Redraw.newGrid acc = [[0;0;0;2];[0;0;0;0];[0;0;0;0];[0;0;0;0]].
Proof. vm_compute. split; reflexivity. Qed.

Example anim_222 :
  Anim.values (Anim.settle (Anim.scan "ArrowLeft"
     (board [[2;2;2;0];[0;0;0;0];[0;0;0;0];[0;0;0;0]] 0)))
  = [[4;2;0;0];[0;0;0;0];[0;0;0;0];[0;0;0;0]].
Proof. vm_compute. reflexivity. Qed.

Example anim_updown :
  Anim.values (Anim.settle (Anim.scan "ArrowDown"
     (board [[2;2;2;0];[2;0;4;0];[4;0;4;8];[4;2;0;8]] 0)))
  = [[0;0;0;0];[0;0;0;0];[4;0;2;0];[8;4;8;16]].
Proof. vm_compute. reflexivity. Qed.

(** * The claims *)


(** C1 (merge-once rule).  In the scan of one [move] of the animated
    version, whatever the board and the direction: no two pending merges
    have the same destination cell; a pass of the scan records a new merge
    only on a cell whose flag is not set, and a flag that is set stays set
    until the end of the move, so that a tile that reaches a flagged cell is
    stopped in front of it.  In the full-redraw version the sum of every
    pair that [slide] merges is a tile of the new line: it has not been
    merged again.  Row [2,2,2,0] moved left becomes [4,2,0,0] in both
    versions. *)
Theorem C1_merge_once (direction : string) (s0 : Anim.State) :
  NoDup (map dest (Anim.promises (Anim.scan direction s0)))
  ∧ (∀ s p m, m ∈ Anim.promises (Anim.processCell direction s p) →
              m ∉ Anim.promises s →
              Anim.flagAt (Anim.mergedFlags s) (dest m) = false)
  ∧ (∀ s p q, Anim.flagAt (Anim.mergedFlags s) q = true →
              Anim.flagAt (Anim.mergedFlags (Anim.processCell direction s p)) q = true)
  ∧ (∀ a b c d,
       ∃ vs, Redraw.nonzero (slideRow [a; b; c; d]) ++ vs ++ vs
             ≡ₚ Redraw.nonzero [a; b; c; d] ++ map (fun v => v * 2) vs
             ∧ map (fun v => v * 2) vs ⊆+ Redraw.nonzero (slideRow [a; b; c; d]))
  ∧ slideRow [2; 2; 2; 0] = [4; 2; 0; 0]
  ∧ Anim.values (Anim.settle (Anim.scan "ArrowLeft"
       (board [[2; 2; 2; 0]; [0; 0; 0; 0]; [0; 0; 0; 0]; [0; 0; 0; 0]] 0)))
    = [[4; 2; 0; 0]; [0; 0; 0; 0]; [0; 0; 0; 0]; [0; 0; 0; 0]].
Proof.
  split; [apply scan_flagsCover|]. split; [|split; [|split; [|split; [reflexivity|]]]].
  - intros s p m Hm Hnew.
    destruct (processCell_outcome direction s p)
      as [Heq | (tile & q & _ & _ & _ & _ & [[_ Heq] | (t & _ & _ & Hflag & Heq)])];
      rewrite Heq in Hm; simpl in Hm; try done.
    apply elem_of_app in Hm as [Hm|Hm]; [done|].
    apply list_elem_of_singleton in Hm as ->. unfold dest; simpl.
    by rewrite <- surjective_pairing.
  - intros s p q Hq.
    destruct (processCell_outcome direction s p)
      as [Heq | (tile & q' & _ & _ & _ & _ & [[_ Heq] | (t & _ & _ & _ & Heq)])];
      rewrite Heq; simpl; try done.
    by apply flagAt_setFlag_mono.
  - intros a b c d. destruct (slide_merges a b c d) as (vs & Hperm & _ & Hsub).
    by exists vs.
  - vm_compute. reflexivity.
Qed.

(** C2 (the change flag of the full-redraw version, direction right).  The
    branch for [ArrowRight] reverses the row of [newGrid] in place before
    it compares it with the new row.  On a board whose only tile is in the
    top left corner the move to the right is computed (the tile ends in the
    top right corner) but reported as no change, so the board stays as it
    was; on a board whose only tile is in the top right corner nothing can
    move and a change is reported.  The example of the claim, row [2,4,2,0]
    moved left, is unchanged and reported so. *)
Theorem C2_right_compares_reversed_row :
  let corner := [[2; 0; 0; 0]; [0; 0; 0; 0]; [0; 0; 0; 0]; [0; 0; 0; 0]] in
  let moved := [[0; 0; 0; 2]; [0; 0; 0; 0]; [0; 0; 0; 0]; [0; 0; 0; 0]] in
  let blocked := [[2; 4; 2; 0]; [0; 0; 0; 0]; [0; 0; 0; 0]; [0; 0; 0; 0]] in
  (Redraw.hasMoved (Redraw.resolve "ArrowRight" (Redraw.mkState corner 0)) = false
   ∧ Redraw.newGrid (Redraw.resolve "ArrowRight" (Redraw.mkState corner 0)) = moved
   ∧ moved ≠ corner
   ∧ ∀ k lt09, Redraw.move "ArrowRight" k lt09 (Redraw.mkState corner 0)
               = Redraw.mkState corner 0)
  ∧ (Redraw.hasMoved (Redraw.resolve "ArrowRight" (Redraw.mkState moved 0)) = true
     ∧ Redraw.newGrid (Redraw.resolve "ArrowRight" (Redraw.mkState moved 0)) = moved)
  ∧ (Redraw.hasMoved (Redraw.resolve "ArrowLeft" (Redraw.mkState blocked 0)) = false
     ∧ Redraw.newGrid (Redraw.resolve "ArrowLeft" (Redraw.mkState blocked 0)) = blocked).
Proof.
  repeat split; try (vm_compute; reflexivity); try discriminate.
Qed.

(** C4 (a move without change is a no-op).  Animated version: when the scan
    ends with [hasMoved] false, the whole state after [move] (board, tiles,
    score, processing flag) is the state before it, so nothing was spawned.
    Full-redraw version, on a 4x4 grid: when [hasMoved] is false after the
    four branches, the state after [move] (grid and score) is the state
    before it. *)
Theorem C4_unchanged_is_noop (direction : string) (k : nat) (lt09 : bool) :
  (∀ s0, Anim.hasMoved (Anim.scan direction (Anim.setProcessing true s0)) = false →
         Anim.move direction k lt09 s0 = s0)
  ∧ (∀ st, wf (Redraw.grid st) →
           Redraw.hasMoved (Redraw.resolve direction st) = false →
           Redraw.move direction k lt09 st = st).
Proof.
  split; [intros s0; apply move_unchanged|].
  intros [g s] Hwf Hm. unfold Redraw.move. rewrite Hm. simpl in *. f_equal.
  destruct (validDirection_dec direction) as [Hd|Hd].
  - apply validDirection_key in Hd as [dir ->].
    by apply (resolve_moved dir g s Hwf).
  - by rewrite resolve_invalid.
Qed.

Lemma C4_unchanged_is_noop_witness :
  Anim.move "ArrowLeft" 0 true
    (board [[2; 4; 2; 0]; [0; 0; 0; 0]; [0; 0; 0; 0]; [0; 0; 0; 0]] 0)
  = board [[2; 4; 2; 0]; [0; 0; 0; 0]; [0; 0; 0; 0]; [0; 0; 0; 0]] 0
  ∧ Redraw.move "ArrowLeft" 0 true
      (Redraw.mkState [[2; 4; 2; 0]; [0; 0; 0; 0]; [0; 0; 0; 0]; [0; 0; 0; 0]] 5)
    = Redraw.mkState [[2; 4; 2; 0]; [0; 0; 0; 0]; [0; 0; 0; 0]; [0; 0; 0; 0]] 5.
Proof.
  split.
  - apply (proj1 (C4_unchanged_is_noop "ArrowLeft" 0%nat true)). vm_compute. reflexivity.
  - apply (proj2 (C4_unchanged_is_noop "ArrowLeft" 0%nat true)).
    + apply (wf_replicate 0) || (split; [reflexivity|repeat constructor]).
    + vm_compute. reflexivity.
Defined.

(** C8 (a direction that is none of the four).  [move] called with any
    other string leaves the whole state of either version as it was: grid
    or board, tiles, score; nothing is spawned. *)
Theorem C8_invalid_direction (direction : string) (k : nat) (lt09 : bool)
    (st : Redraw.State) (s0 : Anim.State) :
  ¬ validDirection direction →
  Redraw.move direction k lt09 st = st ∧ Anim.move direction k lt09 s0 = s0.
Proof.
  intros Hd. split.
  - unfold Redraw.move. rewrite resolve_invalid by done. by destruct st.
  - apply move_unchanged. unfold Anim.scan.
    by rewrite foldl_processCell_invalid.
Qed.

Lemma C8_invalid_direction_witness :
  Redraw.move "Enter" 1 false
    (Redraw.mkState [[2; 2; 0; 0]; [0; 0; 0; 0]; [0; 0; 0; 0]; [0; 0; 0; 0]] 0)
  = Redraw.mkState [[2; 2; 0; 0]; [0; 0; 0; 0]; [0; 0; 0; 0]; [0; 0; 0; 0]] 0
  ∧ Anim.move "Enter" 1 false
      (board [[2; 2; 0; 0]; [0; 0; 0; 0]; [0; 0; 0; 0]; [0; 0; 0; 0]] 0)
    = board [[2; 2; 0; 0]; [0; 0; 0; 0]; [0; 0; 0; 0]; [0; 0; 0; 0]] 0.
Proof.
  apply C8_invalid_direction.
  intros [H|[H|[H|H]]]; discriminate H.
Defined.



(** C10 (the two versions against each other).  On the board whose only
    tile, a 2, is in the top left corner, moved right, both versions compute
    the same new grid, but the animated version reports a change and the
    full-redraw version reports none: its branch for [ArrowRight] compares
    the new row with the row it has just reversed in place. *)
Theorem C10_versions_differ_on_right :
  let corner := [[2; 0; 0; 0]; [0; 0; 0; 0]; [0; 0; 0; 0]; [0; 0; 0; 0]] in
  let sc := Anim.scan "ArrowRight" (Anim.setProcessing true (board corner 0)) in
  let acc := Redraw.resolve "ArrowRight" (Redraw.mkState corner 0) in
  Anim.values (board corner 0) = corner
  ∧ Anim.values (Anim.settle sc) = Redraw.newGrid acc
  ∧ Anim.hasMoved sc = true
  ∧ Redraw.hasMoved acc = false.
Proof. repeat split; vm_compute; reflexivity. Qed.

Lemma forallb_indices (f : nat → bool) :
  forallb f indices = true ↔ ∀ i, (i < SIZE)%nat → f i = true.
Proof.
  rewrite forallb_forall. unfold indices.
  split; intros H i Hi; apply H; [apply in_seq; lia|apply in_seq in Hi; lia].
Qed.

Lemma redraw_blocks_false g r c :
  Redraw.blocks g r c = false ↔
  Redraw.at2 g r c ≠ 0
  ∧ ((c + 1 < SIZE)%nat → Redraw.at2 g r c ≠ Redraw.at2 g r (c + 1))
  ∧ ((r + 1 < SIZE)%nat → Redraw.at2 g r c ≠ Redraw.at2 g (r + 1) c).
Proof.
  unfold Redraw.blocks, SIZE. repeat case_bool_decide; simpl; lia.
Qed.

Lemma anim_blocks_false s r c :
  Anim.blocks s r c = false ↔
  ∃ t, Anim.cellAt (Anim.cells s) (Z.of_nat r, Z.of_nat c) = Some t
       ∧ ((c + 1 < SIZE)%nat →
          ∀ t', Anim.cellAt (Anim.cells s) (Z.of_nat r, Z.of_nat (c + 1)) = Some t' →
                Anim.valueOf (Anim.heap s) t' ≠ Anim.valueOf (Anim.heap s) t)
       ∧ ((r + 1 < SIZE)%nat →
          ∀ t', Anim.cellAt (Anim.cells s) (Z.of_nat (r + 1), Z.of_nat c) = Some t' →
                Anim.valueOf (Anim.heap s) t' ≠ Anim.valueOf (Anim.heap s) t).
Proof.
  unfold Anim.blocks, SIZE.
  destruct (Anim.cellAt _ (Z.of_nat r, Z.of_nat c)) as [t|].
  2: { split; [done|]. intros [t [Ht _]]. discriminate Ht. }
  destruct (Anim.cellAt _ (Z.of_nat r, Z.of_nat (c + 1))) as [t1|],
           (Anim.cellAt _ (Z.of_nat (r + 1), Z.of_nat c)) as [t2|];
    repeat case_bool_decide; simpl; split.
  all: try (intros Hb; exists t; split; [done|]; split; intros ? t' Ht'; simplify_eq; lia).
  all: intros (t' & Ht' & Hright & Hdown); simplify_eq;
    try specialize (Hright ltac:(lia) _ eq_refl);
    try specialize (Hdown ltac:(lia) _ eq_refl);
    lia.
Qed.

(** C5 (game over).  In both versions the game-over test answers true
    exactly when every cell of the 4x4 board is occupied and no cell holds
    the number of its right or of its bottom neighbour; a board with an
    empty cell gets the answer false.  The test reads the board and returns
    a truth value; it is a function of the state. *)
Theorem C5_game_over :
  (∀ g, Redraw.isGameOver g = true ↔
        (∀ r c, (r < SIZE)%nat → (c < SIZE)%nat → Redraw.at2 g r c ≠ 0)
        ∧ (∀ r c, (r < SIZE)%nat → (c + 1 < SIZE)%nat →
                  Redraw.at2 g r c ≠ Redraw.at2 g r (c + 1))
        ∧ (∀ r c, (r + 1 < SIZE)%nat → (c < SIZE)%nat →
                  Redraw.at2 g r c ≠ Redraw.at2 g (r + 1) c))
  ∧ (∀ g r c, (r < SIZE)%nat → (c < SIZE)%nat → Redraw.at2 g r c = 0 →
              Redraw.isGameOver g = false)
  ∧ (∀ s, Anim.checkGameOver s = true ↔
          (∀ r c, (r < SIZE)%nat → (c < SIZE)%nat →
                  Anim.cellAt (Anim.cells s) (Z.of_nat r, Z.of_nat c) ≠ None)
          ∧ (∀ r c t t', (r < SIZE)%nat → (c + 1 < SIZE)%nat →
                Anim.cellAt (Anim.cells s) (Z.of_nat r, Z.of_nat c) = Some t →
                Anim.cellAt (Anim.cells s) (Z.of_nat r, Z.of_nat (c + 1)) = Some t' →
                Anim.valueOf (Anim.heap s) t ≠ Anim.valueOf (Anim.heap s) t')
          ∧ (∀ r c t t', (r + 1 < SIZE)%nat → (c < SIZE)%nat →
                Anim.cellAt (Anim.cells s) (Z.of_nat r, Z.of_nat c) = Some t →
                Anim.cellAt (Anim.cells s) (Z.of_nat (r + 1), Z.of_nat c) = Some t' →
                Anim.valueOf (Anim.heap s) t ≠ Anim.valueOf (Anim.heap s) t'))
  ∧ (∀ s r c, (r < SIZE)%nat → (c < SIZE)%nat →
              Anim.cellAt (Anim.cells s) (Z.of_nat r, Z.of_nat c) = None →
              Anim.checkGameOver s = false).
Proof.
  assert (∀ g, Redraw.isGameOver g = true ↔
               ∀ r c, (r < SIZE)%nat → (c < SIZE)%nat → Redraw.blocks g r c = false) as HR.
  { intros g. unfold Redraw.isGameOver. rewrite forallb_indices.
    split; intros H r.
    - intros c Hr Hc. specialize (H r Hr). rewrite forallb_indices in H.
      apply negb_true_iff. by apply H.
    - intros Hr. apply forallb_indices. intros c Hc. apply negb_true_iff. by apply H. }
  assert (∀ s, Anim.checkGameOver s = true ↔
               ∀ r c, (r < SIZE)%nat → (c < SIZE)%nat → Anim.blocks s r c = false) as HA.
  { intros s. unfold Anim.checkGameOver. rewrite forallb_indices.
    split; intros H r.
    - intros c Hr Hc. specialize (H r Hr). rewrite forallb_indices in H.
      apply negb_true_iff. by apply H.
    - intros Hr. apply forallb_indices. intros c Hc. apply negb_true_iff. by apply H. }
  split; [|split; [|split]].
  - intros g. rewrite HR. split.
    + intros H. split; [|split]; intros r c Hr Hc.
      * by apply (redraw_blocks_false g r c), H.
      * apply (redraw_blocks_false g r c); [apply H; unfold SIZE in *; lia|done].
      * apply (redraw_blocks_false g r c); [apply H; unfold SIZE in *; lia|done].
    + intros (H1 & H2 & H3) r c Hr Hc. apply redraw_blocks_false.
      split; [by apply H1|]. split; intros ?; [by apply H2|by apply H3].
  - intros g r c Hr Hc H0. apply not_true_iff_false. intros Hover.
    rewrite HR in Hover. specialize (Hover r c Hr Hc).
    apply redraw_blocks_false in Hover as [Hne _]. done.
  - intros s. rewrite HA. split.
    + intros H. split; [|split].
      * intros r c Hr Hc Hnone.
        destruct (proj1 (anim_blocks_false s r c) (H r c Hr Hc)) as (t & Ht & _).
        congruence.
      * intros r c t t' Hr Hc Ht Ht' Heq.
        destruct (proj1 (anim_blocks_false s r c)) as (t0 & Ht0 & Hright & _).
        { apply H; unfold SIZE in *; lia. }
        simplify_eq. by apply (Hright Hc t').
      * intros r c t t' Hr Hc Ht Ht' Heq.
        destruct (proj1 (anim_blocks_false s r c)) as (t0 & Ht0 & _ & Hdown).
        { apply H; unfold SIZE in *; lia. }
        simplify_eq. by apply (Hdown Hr t').
    + intros (H1 & H2 & H3) r c Hr Hc. apply anim_blocks_false.
      destruct (Anim.cellAt (Anim.cells s) (Z.of_nat r, Z.of_nat c)) as [t|] eqn:Ht.
      2: { by destruct (H1 r c Hr Hc). }
      exists t. split; [done|]. split.
      * intros Hc' t' Ht' Heq. by apply (H2 r c t t' Hr Hc' Ht Ht').
      * intros Hr' t' Ht' Heq. by apply (H3 r c t t' Hr' Hc Ht Ht').
  - intros s r c Hr Hc Hnone. apply not_true_iff_false. intros Hover.
    rewrite HA in Hover. specialize (Hover r c Hr Hc).
    apply anim_blocks_false in Hover as (t & Ht & _). congruence.
Qed.

Lemma redraw_spawnTile_score k lt09 st :
  Redraw.score (Redraw.spawnTile k lt09 st) = Redraw.score st.
Proof.
  unfold Redraw.spawnTile. by destruct (_ !! _) as [[r c]|].
Qed.

(** C3 (conservation).  Animated version, for a move accepted in a state
    that satisfies the invariant; [vs] lists the number on each tile that
    slid onto an equal tile.  If the scan reports no change, the numbers on
    the board after [move] are the numbers before it.  If it reports a
    change, the numbers after the move, with each merged pair put back, are
    the numbers before it with the sum of each pair and one new number,
    2 or 4.  The two tiles of a pair hold the same number.  Full-redraw
    version: the same accounting for the pairs of the grid that the four
    branches compute. *)
Theorem C3_conservation (direction : string) (k : nat) (lt09 : bool) (s0 : Anim.State) :
  Inv s0 →
  let sc := Anim.scan direction (Anim.setProcessing true s0) in
  let s1 := Anim.move direction k lt09 s0 in
  let vs := fromValues (Anim.heap s0) (Anim.promises sc) in
  ((Anim.hasMoved sc = false ∧ vs = []
    ∧ valuesOn (Anim.cells s1) (Anim.heap s1) = valuesOn (Anim.cells s0) (Anim.heap s0))
   ∨ (Anim.hasMoved sc = true
      ∧ ∃ v, (v = 2 ∨ v = 4)
             ∧ valuesOn (Anim.cells s1) (Anim.heap s1) ++ vs ++ vs
               ≡ₚ valuesOn (Anim.cells s0) (Anim.heap s0)
                  ++ map (fun x => x * 2) vs ++ [v]))
  ∧ (∀ m, m ∈ Anim.promises sc →
          Anim.valueOf (Anim.heap s0) (Anim.from m)
          = Anim.valueOf (Anim.heap s0) (Anim.into m))
  ∧ (∀ dir g s, wf g →
       ∃ ws, Redraw.nonzero (concat (Redraw.newGrid
                (Redraw.resolve (key dir) (Redraw.mkState g s)))) ++ ws ++ ws
             ≡ₚ Redraw.nonzero (concat g) ++ map (fun x => x * 2) ws).
Proof.
  intros (Hbd & Hsc & Hp) sc s1 vs.
  pose proof (settle_scan direction (Anim.setProcessing true s0) Hbd)
    as (Hbd1 & _ & _ & Hms & Hperm & Hgap & _).
  fold sc in Hbd1, Hms, Hperm, Hgap. simpl in Hms, Hperm.
  split; [|split].
  - destruct (Anim.hasMoved sc) eqn:Hm; [right|left].
    + split; [done|]. unfold s1. rewrite move_changed by done. fold sc. simpl.
      destruct (spawnTile_values k lt09 _ Hbd1 (Hgap eq_refl)) as (v & Hv & Hnew & _).
      exists v. split; [done|]. rewrite Hnew. simpl. fold vs in Hperm.
      rewrite Hperm. solve_Permutation.
    + split; [done|]. unfold s1, vs. rewrite move_unchanged by done.
      unfold sc. by rewrite scan_unchanged_promises.
  - intros m Hm. by apply Hms.
  - intros dir g s Hwf. destruct (resolve_merges dir g s Hwf) as (ws & Hws & _).
    by exists ws.
Qed.

Lemma C3_conservation_witness :
  let s0 := Anim.restartGame 3 true 7 false in
  let sc := Anim.scan "ArrowUp" (Anim.setProcessing true s0) in
  let s1 := Anim.move "ArrowUp" 2 true s0 in
  let vs := fromValues (Anim.heap s0) (Anim.promises sc) in
  ((Anim.hasMoved sc = false ∧ vs = []
    ∧ valuesOn (Anim.cells s1) (Anim.heap s1) = valuesOn (Anim.cells s0) (Anim.heap s0))
   ∨ (Anim.hasMoved sc = true
      ∧ ∃ v, (v = 2 ∨ v = 4)
             ∧ valuesOn (Anim.cells s1) (Anim.heap s1) ++ vs ++ vs
               ≡ₚ valuesOn (Anim.cells s0) (Anim.heap s0)
                  ++ map (fun x => x * 2) vs ++ [v]))
  ∧ (∀ m, m ∈ Anim.promises sc →
          Anim.valueOf (Anim.heap s0) (Anim.from m)
          = Anim.valueOf (Anim.heap s0) (Anim.into m))
  ∧ (∀ dir g s, wf g →
       ∃ ws, Redraw.nonzero (concat (Redraw.newGrid
                (Redraw.resolve (key dir) (Redraw.mkState g s)))) ++ ws ++ ws
             ≡ₚ Redraw.nonzero (concat g) ++ map (fun x => x * 2) ws).
Proof.
  exact (C3_conservation "ArrowUp" 2%nat true (Anim.restartGame 3 true 7 false)
           (reachable_Inv _ (reach_spawn _ _ _ (reach_spawn _ _ _ reach_created)))).
Defined.

(** C6 (score).  Animated version, for a move in a state that satisfies the
    invariant: the score grows by the sum, over the merges of the move, of
    the number that the surviving tile holds after the move, which is twice
    the number it held before; the score is not negative and does not
    decrease; [spawnTile] leaves it as it is.  Full-redraw version: the
    score grows by the sum of the doubled numbers of the pairs that merge,
    and does not decrease on a grid without negative numbers.  Row
    [2,2,4,4] moved left becomes [4,8,0,0] and adds 12, in both versions. *)
Theorem C6_score (direction : string) (k : nat) (lt09 : bool) (s0 : Anim.State) :
  Inv s0 →
  let sc := Anim.scan direction (Anim.setProcessing true s0) in
  let s1 := Anim.move direction k lt09 s0 in
  Anim.score s1
  = Anim.score s0
    + sumZ (map (fun m => Anim.valueOf (Anim.heap s1) (Anim.into m)) (Anim.promises sc))
  ∧ (∀ m, m ∈ Anim.promises sc →
          Anim.valueOf (Anim.heap s1) (Anim.into m)
          = Anim.valueOf (Anim.heap s0) (Anim.into m) * 2)
  ∧ 0 ≤ Anim.score s0 ≤ Anim.score s1
  ∧ Anim.score (Anim.spawnTile k lt09 s0) = Anim.score s0
  ∧ (∀ dir g s, wf g →
       ∃ ws, Redraw.nonzero (concat (Redraw.newGrid
                (Redraw.resolve (key dir) (Redraw.mkState g s)))) ++ ws ++ ws
             ≡ₚ Redraw.nonzero (concat g) ++ map (fun x => x * 2) ws
             ∧ Redraw.sc (Redraw.resolve (key dir) (Redraw.mkState g s))
               = s + sumZ (map (fun x => x * 2) ws))
  ∧ (∀ st, wf (Redraw.grid st) →
           Forall (Forall (fun v => 0 ≤ v)) (Redraw.grid st) →
           Redraw.score st ≤ Redraw.score (Redraw.move direction k lt09 st)
           ∧ Redraw.score (Redraw.spawnTile k lt09 st) = Redraw.score st)
  ∧ Redraw.slide [2; 2; 4; 4] 0 = ([4; 8; 0; 0], 12)
  ∧ (let b := board [[2; 2; 4; 4]; [0; 0; 0; 0]; [0; 0; 0; 0]; [0; 0; 0; 0]] 0 in
     Anim.values (Anim.settle (Anim.scan "ArrowLeft" b))
     = [[4; 8; 0; 0]; [0; 0; 0; 0]; [0; 0; 0; 0]; [0; 0; 0; 0]]
     ∧ Anim.score (Anim.move "ArrowLeft" 0 true b) = 12).
Proof.
  intros (Hbd & Hsc & Hp) sc s1.
  pose proof (settle_scan direction (Anim.setProcessing true s0) Hbd)
    as (Hbd1 & _ & Hs1 & Hms & _ & Hgap & Hvs).
  fold sc in Hbd1, Hs1, Hms, Hgap, Hvs. simpl in Hs1, Hms, Hvs.
  assert (∀ m, m ∈ Anim.promises sc →
               Anim.valueOf (Anim.heap s1) (Anim.into m)
               = Anim.valueOf (Anim.heap s0) (Anim.into m) * 2) as Hdouble.
  { intros m Hm. destruct (Hms m Hm) as (_ & Hv & Hel). unfold s1.
    destruct (Anim.hasMoved sc) eqn:Hmoved.
    - rewrite move_changed by done. fold sc. simpl.
      destruct (spawnTile_values k lt09 _ Hbd1 (Hgap eq_refl)) as (v & _ & _ & Hkeep).
      by rewrite Hkeep.
    - unfold sc in Hm. rewrite scan_unchanged_promises in Hm by done.
      by apply elem_of_nil in Hm. }
  assert (Anim.score s1
          = Anim.score s0
            + sumZ (map (fun v => v * 2) (fromValues (Anim.heap s0) (Anim.promises sc))))
    as Hscore.
  { unfold s1. destruct (Anim.hasMoved sc) eqn:Hmoved.
    - rewrite move_changed by done. fold sc. simpl.
      destruct (spawnTile_boardOk k lt09 _ Hbd1) as (_ & -> & _). done.
    - rewrite move_unchanged by done. unfold sc.
      rewrite scan_unchanged_promises by done. simpl. lia. }
  split; [|split; [done|split; [|split; [|split; [|split; [|split]]]]]].
  - rewrite Hscore. f_equal. f_equal. unfold fromValues. rewrite map_map.
    apply map_ext_in. intros m Hm. apply list_elem_of_In in Hm.
    rewrite (Hdouble m Hm). destruct (Hms m Hm) as (-> & _). done.
  - rewrite Hscore. pose proof (sumZ_nonneg _ Hvs). lia.
  - by destruct (spawnTile_boardOk k lt09 s0 Hbd) as (_ & ? & _).
  - intros dir g s Hwf. apply (resolve_merges dir g s Hwf).
  - intros [g s] Hwf Hpos. simpl in *. split; [|apply redraw_spawnTile_score].
    unfold Redraw.move.
    assert (s ≤ Redraw.sc (Redraw.resolve direction (Redraw.mkState g s))) as Hle.
    { destruct (validDirection_dec direction) as [Hd|Hd].
      - apply validDirection_key in Hd as [dir ->]. by apply resolve_gain_nonneg.
      - by rewrite resolve_invalid. }
    destruct (Redraw.hasMoved _); [by rewrite redraw_spawnTile_score|done].
  - reflexivity.
  - vm_compute. split; reflexivity.
Qed.

Lemma C6_score_witness :
  let s0 := Anim.move "ArrowLeft" 0 true
              (Anim.move "ArrowDown" 1 true (Anim.restartGame 3 true 7 true)) in
  0 ≤ Anim.score s0 ≤ Anim.score (Anim.move "ArrowRight" 4 false s0).
Proof.
  intros s0.
  assert (reachable s0) as Hr
    by apply reach_move, reach_move, reach_spawn, reach_spawn, reach_created.
  destruct (C6_score "ArrowRight" 4%nat false s0 (reachable_Inv s0 Hr))
    as (_ & _ & Hmono & _).
  exact Hmono.
Defined.

(** The grids that the two versions compute before the new tile is
    spawned ([newGrid] in the full-redraw version, the board once the merges
    are applied in the animated version) are symmetric: computing for the
    right and then mirroring left-right is mirroring and then computing for
    the left; down and then mirroring top-bottom is mirroring and then up;
    up (down) and then transposing is transposing and then left (right).
    This holds of the full-redraw version on every 4x4 grid, and of the
    animated version on every two boards that satisfy the invariant and
    hold a grid and its image. *)
Lemma computed_grids_symmetric (s s' : Anim.State) (g : list (list Z)) (sc0 : Z) :
  wf g →
  boardOk (Anim.cells s) (Anim.heap s) →
  boardOk (Anim.cells s') (Anim.heap s') →
  let redraw d x := Redraw.newGrid (Redraw.resolve d (Redraw.mkState x sc0)) in
  let anim d x := Anim.values (Anim.settle (Anim.scan d x)) in
  (mirrorH (redraw "ArrowRight" g) = redraw "ArrowLeft" (mirrorH g)
   ∧ flipV (redraw "ArrowDown" g) = redraw "ArrowUp" (flipV g)
   ∧ transpose (redraw "ArrowUp" g) = redraw "ArrowLeft" (transpose g)
   ∧ transpose (redraw "ArrowDown" g) = redraw "ArrowRight" (transpose g))
  ∧ (Anim.values s' = mirrorH (Anim.values s) →
     mirrorH (anim "ArrowRight" s) = anim "ArrowLeft" s')
  ∧ (Anim.values s' = flipV (Anim.values s) →
     flipV (anim "ArrowDown" s) = anim "ArrowUp" s')
  ∧ (Anim.values s' = transpose (Anim.values s) →
     transpose (anim "ArrowUp" s) = anim "ArrowLeft" s')
  ∧ (Anim.values s' = transpose (Anim.values s) →
     transpose (anim "ArrowDown" s) = anim "ArrowRight" s').
Proof.
  intros Hwf Hbd Hbd' redraw anim.
  assert (∀ dir x, wf x →
                   redraw (key dir) x = unlines dir (map slideRow (lines dir x))) as HR.
  { intros dir x Hx. apply (resolve_lines dir x sc0 Hx). }
  assert (∀ dir x, boardOk (Anim.cells x) (Anim.heap x) →
                   anim (key dir) x = unlines dir (map slideRow (lines dir (Anim.values x))))
    as HA.
  { intros dir x Hx. by apply settle_scan_lines. }
  pose proof (values_wf s (proj1 Hbd)) as Hwfs.
  change "ArrowRight" with (key Right). change "ArrowLeft" with (key Left).
  change "ArrowUp" with (key Up). change "ArrowDown" with (key Down).
  rewrite !HR by (done || by apply wf_mirrorH || by apply wf_flipV || by apply wf_transpose).
  rewrite !HA by done.
  split; [|split; [|split; [|split]]].
  - split; [by apply lines_mirrorH|]. split; [by apply lines_flipV|].
    split; [by apply lines_transpose_up|by apply lines_transpose_down].
  - intros ->. by apply lines_mirrorH.
  - intros ->. by apply lines_flipV.
  - intros ->. by apply lines_transpose_up.
  - intros ->. by apply lines_transpose_down.
Qed.

(** C7 (directional symmetry).  The full-redraw version drops a move to the
    right whose new rows are the old rows reversed.  On the board with a 2
    at the left end of each of the two upper rows, which [restartGame]
    creates, [move('ArrowRight')] leaves the board as it is although both
    tiles can move, so what it leaves, mirrored, has its tiles at the right
    border; the mirrored board moved left has them, before the spawn, at
    the left border.  The grid that the branch for the right computes is
    the symmetric one: the slip is in the change flag, which compares the
    new row with the row reversed in place.  The animated version moves the
    tiles on both boards, and its two results are mirror images. *)
Theorem C7_right_move_dropped :
  let g := [[2; 0; 0; 0]; [2; 0; 0; 0]; [0; 0; 0; 0]; [0; 0; 0; 0]] in
  let st := Redraw.mkState g 0 in
  let st' := Redraw.mkState (mirrorH g) 0 in
  let a := Anim.setProcessing true (board g 0) in
  let a' := Anim.setProcessing true (board (mirrorH g) 0) in
  Redraw.restartGame 0 true 3 true = st
  ∧ (∀ k lt09, Redraw.move "ArrowRight" k lt09 st = st)
  ∧ (∀ k lt09, Redraw.move "ArrowLeft" k lt09 st' = Redraw.spawnTile k lt09 st)
  ∧ mirrorH g ≠ g
  ∧ mirrorH (Redraw.newGrid (Redraw.resolve "ArrowRight" st))
    = Redraw.newGrid (Redraw.resolve "ArrowLeft" st')
  ∧ Anim.values a = g ∧ Anim.values a' = mirrorH g
  ∧ Anim.hasMoved (Anim.scan "ArrowRight" a) = true
  ∧ Anim.hasMoved (Anim.scan "ArrowLeft" a') = true
  ∧ mirrorH (Anim.values (Anim.settle (Anim.scan "ArrowRight" a)))
    = Anim.values (Anim.settle (Anim.scan "ArrowLeft" a')).
Proof.
  repeat split; try (vm_compute; reflexivity); try discriminate.
Qed.


(** * The function [slide] on rows of any length *)

Lemma sumZ_insert (l : list Z) i x v :
  l !! i = Some x → sumZ (<[i := v]> l) = sumZ l - x + v.
Proof.
  revert i. induction l as [|a l IH]; intros [|i] Hi; simplify_eq/=; [lia|].
  rewrite (IH i Hi). lia.
Qed.

Lemma sumZ_nonzero l : sumZ (Redraw.nonzero l) = sumZ l.
Proof.
  induction l as [|a l IH]; [done|]. simpl.
  destruct (Z.eqb_spec a 0); simpl; lia.
Qed.

Lemma sumZ_replicate0 n : sumZ (replicate n 0) = 0.
Proof. induction n; simpl; lia. Qed.

Lemma sumZ_pad l : sumZ (Redraw.pad l) = sumZ l.
Proof. unfold Redraw.pad. rewrite sumZ_app, sumZ_replicate0. lia. Qed.

Lemma mergeLoop_cons n i a arr s :
  Redraw.mergeLoop n (S i) (a :: arr) s
  = (a :: (Redraw.mergeLoop n i arr s).1, (Redraw.mergeLoop n i arr s).2).
Proof.
  revert i arr s. induction n as [|n IH]; intros i arr s; [done|].
  cbn [Redraw.mergeLoop].
  change ((a :: arr) !! S i) with (arr !! i).
  change ((a :: arr) !! S (S i)) with (arr !! S i).
  destruct (arr !! i) as [x|], (arr !! S i) as [y|]; try apply IH.
  destruct (x =? y); apply IH.
Qed.

Lemma mergeLoop_length n i arr s :
  length (Redraw.mergeLoop n i arr s).1 = length arr.
Proof.
  revert i arr s. induction n as [|n IH]; intros i arr s; [done|].
  cbn [Redraw.mergeLoop].
  destruct (arr !! i) as [x|], (arr !! S i) as [y|]; try apply IH.
  destruct (x =? y); rewrite IH; [|done]. by rewrite !length_insert.
Qed.

Lemma mergeLoop_sum n i arr s :
  sumZ (Redraw.mergeLoop n i arr s).1 = sumZ arr.
Proof.
  revert i arr s. induction n as [|n IH]; intros i arr s; [done|].
  cbn [Redraw.mergeLoop].
  destruct (arr !! i) as [x|] eqn:Hi, (arr !! S i) as [y|] eqn:Hsi; try apply IH.
  destruct (Z.eqb_spec x y) as [->|]; rewrite IH; [|done].
  rewrite (sumZ_insert _ (S i) y 0), (sumZ_insert _ i y (y * 2)); [lia|done|].
  by rewrite list_lookup_insert_ne.
Qed.

Lemma mergeLoop_nonneg n i arr s :
  Forall (fun v => 0 ≤ v) arr →
  s ≤ (Redraw.mergeLoop n i arr s).2
  ∧ Forall (fun v => 0 ≤ v) (Redraw.mergeLoop n i arr s).1.
Proof.
  revert i arr s. induction n as [|n IH]; intros i arr s Hpos; [done|].
  cbn [Redraw.mergeLoop].
  destruct (arr !! i) as [x|] eqn:Hi, (arr !! S i) as [y|] eqn:Hsi; try by apply IH.
  destruct (Z.eqb_spec x y) as [->|]; [|by apply IH].
  assert (0 ≤ y) by (eapply (Forall_lookup_1 _ _ _ _ Hpos Hi)).
  destruct (IH (S i) (<[S i := 0]> (<[i := y * 2]> arr)) (s + y * 2)) as [H1 H2].
  - apply Forall_insert; [|lia]. apply Forall_insert; [done|lia].
  - split; [lia|done].
Qed.

(** No two neighbours of the array are equal. *)
Lemma mergeLoop_no_pair n arr s :
  (∀ i x, arr !! i = Some x → arr !! S i ≠ Some x) →
  Redraw.mergeLoop n 0 arr s = (arr, s).
Proof.
  revert arr s. induction n as [|n IH]; intros arr s Hno; [done|].
  cbn [Redraw.mergeLoop].
  destruct arr as [|x [|y l]]; simpl.
  - clear. revert s. generalize 1%nat.
    induction n as [|n IH]; intros i s; [done|]. simpl. apply IH.
  - clear. revert s. generalize 1%nat.
    induction n as [|n IH]; intros i s; [done|]. simpl.
    destruct i; simpl; apply IH.
  - destruct (Z.eqb_spec x y) as [->|Hne].
    { by destruct (Hno 0%nat y eq_refl). }
    rewrite mergeLoop_cons, IH; [done|].
    intros i z Hi. apply (Hno (S i) z Hi).
Qed.

Lemma mergeLoop_pair arr s i x :
  Forall (fun v => 0 < v) arr →
  arr !! i = Some x → arr !! S i = Some x →
  s < (Redraw.mergeLoop (length arr - 1) 0 arr s).2.
Proof.
  revert i s. induction arr as [|a arr IH]; intros i s Hpos Hi Hsi; [done|].
  destruct arr as [|b l]; [by destruct i|].
  replace (length (a :: b :: l) - 1)%nat with (S (length l)) by (simpl; lia).
  cbn [Redraw.mergeLoop]. simpl.
  apply Forall_cons in Hpos as [Ha Hpos].
  destruct (Z.eqb_spec a b) as [->|Hne].
  - pose proof (Forall_cons_1 _ _ _ Hpos) as [Hb Hl].
    destruct (mergeLoop_nonneg (length l) 1 (b * 2 :: 0 :: l) (s + b * 2)) as [H1 _].
    + repeat apply Forall_cons_2; try lia.
      eapply Forall_impl; [exact Hl|]. simpl. lia.
    + lia.
  - rewrite mergeLoop_cons. simpl.
    destruct i as [|i]; [simplify_eq/=|].
    replace (length l) with (length (b :: l) - 1)%nat by (simpl; lia).
    by apply (IH i).
Qed.

Lemma nonzero_positive row :
  Forall (fun v => 0 ≤ v) row → Forall (fun v => 0 < v) (Redraw.nonzero row).
Proof.
  induction 1 as [|a l Ha _ IH]; [constructor|]. simpl.
  destruct (Z.eqb_spec a 0); simpl; [done|]. constructor; [lia|done].
Qed.

Lemma nonzero_Forall row : Forall (fun v => v ≠ 0) (Redraw.nonzero row).
Proof.
  induction row as [|a l IH]; [constructor|]. simpl.
  destruct (Z.eqb_spec a 0); simpl; [done|]. by constructor.
Qed.

Lemma nonzero_id l : Forall (fun v => v ≠ 0) l → Redraw.nonzero l = l.
Proof.
  induction 1 as [|a l Ha _ IH]; [done|]. simpl.
  destruct (Z.eqb_spec a 0); simpl; [done|]. by rewrite IH.
Qed.

Lemma nonzero_length l : (length (Redraw.nonzero l) ≤ length l)%nat.
Proof.
  induction l as [|a l IH]; [done|]. simpl.
  destruct (a =? 0); simpl; lia.
Qed.

Lemma nonzero_Forall_keep (P : Z → Prop) l : Forall P l → Forall P (Redraw.nonzero l).
Proof.
  induction 1 as [|a l Ha _ IH]; [constructor|]. simpl.
  destruct (a =? 0); simpl; [done|]. by constructor.
Qed.

Lemma nonzero_replicate0 n : Redraw.nonzero (replicate n 0) = [].
Proof. induction n as [|n IH]; [done|]. simpl. exact IH. Qed.

Lemma slide_unfold row s :
  Redraw.slide row s
  = (Redraw.pad (Redraw.nonzero
       (Redraw.mergeLoop (length (Redraw.nonzero row) - 1) 0 (Redraw.nonzero row) s).1),
     (Redraw.mergeLoop (length (Redraw.nonzero row) - 1) 0 (Redraw.nonzero row) s).2).
Proof. unfold Redraw.slide. by destruct (Redraw.mergeLoop _ _ _ _). Qed.

Lemma slide_general row s :
  let r := Redraw.slide row s in
  sumZ r.1 = sumZ row
  ∧ r.1 = Redraw.nonzero r.1 ++ replicate (length r.1 - length (Redraw.nonzero r.1)) 0
  ∧ (length (Redraw.nonzero r.1) ≤ length (Redraw.nonzero row))%nat
  ∧ length r.1 = (SIZE `max` length (Redraw.nonzero r.1))%nat
  ∧ (Forall (fun v => 0 ≤ v) row → s ≤ r.2 ∧ Forall (fun v => 0 ≤ v) r.1).
Proof.
  intros r. unfold r. rewrite slide_unfold. simpl.
  set (m := Redraw.mergeLoop _ _ _ _).
  assert (Redraw.nonzero (Redraw.pad (Redraw.nonzero m.1)) = Redraw.nonzero m.1) as Hnz.
  { unfold Redraw.pad. rewrite nonzero_app, (nonzero_id _ (nonzero_Forall _)).
    rewrite nonzero_replicate0. apply app_nil_r. }
  assert (length (Redraw.pad (Redraw.nonzero m.1))
          = (SIZE `max` length (Redraw.nonzero m.1))%nat) as Hlen.
  { unfold Redraw.pad. rewrite length_app, length_replicate. lia. }
  split; [|split; [|split; [|split]]].
  - rewrite sumZ_pad, sumZ_nonzero. unfold m. by rewrite mergeLoop_sum, sumZ_nonzero.
  - rewrite Hnz, Hlen. unfold Redraw.pad at 1. f_equal. f_equal. lia.
  - rewrite Hnz. etrans; [apply nonzero_length|]. unfold m. by rewrite mergeLoop_length.
  - by rewrite Hnz.
  - intros Hpos.
    destruct (mergeLoop_nonneg (length (Redraw.nonzero row) - 1) 0 (Redraw.nonzero row) s)
      as [H1 H2]; [by apply nonzero_Forall_keep|].
    split; [done|]. unfold Redraw.pad. apply Forall_app. split.
    + by apply nonzero_Forall_keep.
    + by apply Forall_replicate.
Qed.

Lemma slide_compacts row s :
  (∀ i x, Redraw.nonzero row !! i = Some x → Redraw.nonzero row !! S i ≠ Some x) →
  Redraw.slide row s = (Redraw.pad (Redraw.nonzero row), s).
Proof.
  intros Hno. rewrite slide_unfold, mergeLoop_no_pair by done. simpl.
  by rewrite (nonzero_id _ (nonzero_Forall _)).
Qed.

Lemma slide_scores row s i x :
  Forall (fun v => 0 ≤ v) row →
  Redraw.nonzero row !! i = Some x → Redraw.nonzero row !! S i = Some x →
  s < (Redraw.slide row s).2.
Proof.
  intros Hpos Hi Hsi. rewrite slide_unfold. simpl.
  apply (mergeLoop_pair _ s i x); [by apply nonzero_positive|done|done].
Qed.

(** * Spawning a tile in the full-redraw version *)

Lemma at2_set2_eq g r c v :
  wf g → (r < SIZE)%nat → (c < SIZE)%nat → Redraw.at2 (Redraw.set2 g r c v) r c = v.
Proof.
  intros [Hlen Hrows] Hr Hc. unfold Redraw.at2, Redraw.set2.
  rewrite list_lookup_total_insert_eq by lia.
  rewrite list_lookup_total_insert_eq; [done|].
  assert (length (g !!! r) = SIZE) as ->; [|done].
  apply (Forall_lookup_1 _ _ r _ Hrows). apply list_lookup_lookup_total_lt. lia.
Qed.

Lemma at2_set2_ne g r c v r' c' :
  (r', c') ≠ (r, c) → Redraw.at2 (Redraw.set2 g r c v) r' c' = Redraw.at2 g r' c'.
Proof.
  intros Hne. unfold Redraw.at2, Redraw.set2.
  destruct (decide (r' = r)) as [->|Hr].
  - destruct (decide (r < length g)%nat) as [Hlt|Hge].
    + rewrite list_lookup_total_insert_eq by done.
      rewrite list_lookup_total_insert_ne; [done|]. congruence.
    + by rewrite list_insert_ge by lia.
  - by rewrite list_lookup_total_insert_ne.
Qed.

Lemma wf_set2 g r c v : wf g → wf (Redraw.set2 g r c v).
Proof.
  intros [Hlen Hrows]. unfold Redraw.set2. split; [by rewrite length_insert|].
  destruct (decide (r < length g)%nat) as [Hlt|Hge]; [|by rewrite list_insert_ge by lia].
  apply Forall_insert; [done|]. rewrite length_insert.
  apply (Forall_lookup_1 _ _ r _ Hrows). by apply list_lookup_lookup_total_lt.
Qed.

Lemma nonzero_set2 g r c v :
  wf g → (r < SIZE)%nat → (c < SIZE)%nat → Redraw.at2 g r c = 0 → v ≠ 0 →
  Redraw.nonzero (concat (Redraw.set2 g r c v)) ≡ₚ v :: Redraw.nonzero (concat g).
Proof.
  intros [Hlen Hrows] Hr Hc H0 Hv. unfold Redraw.at2, Redraw.set2 in *.
  assert (g !! r = Some (g !!! r)) as Hrow by (apply list_lookup_lookup_total_lt; lia).
  assert (length (g !!! r) = SIZE) as Hlr by apply (Forall_lookup_1 _ _ r _ Hrows Hrow).
  assert ((g !!! r) !! c = Some 0) as Hcell.
  { rewrite <- H0. apply list_lookup_lookup_total_lt. lia. }
  set (row := g !!! r) in *.
  rewrite (insert_take_drop g r) by lia. rewrite (insert_take_drop row c) by lia.
  assert (concat g = concat (take r g) ++ (take c row ++ 0 :: drop (S c) row)
                       ++ concat (drop (S r) g)) as ->.
  { rewrite (take_drop_middle row c 0 Hcell).
    rewrite <- (take_drop_middle g r row Hrow) at 1. by rewrite concat_app. }
  rewrite !concat_app, !concat_cons, !nonzero_app. simpl.
  destruct (Z.eqb_spec v 0); [done|]. simpl. solve_Permutation.
Qed.

Lemma redraw_emptyCells_elem g r c :
  (r, c) ∈ Redraw.emptyCells g ↔
  (r < SIZE)%nat ∧ (c < SIZE)%nat ∧ Redraw.at2 g r c = 0.
Proof.
  unfold Redraw.emptyCells, indices. rewrite list_elem_of_bind. split.
  - intros (r' & Hc & Hr). apply elem_of_seq in Hr.
    apply list_elem_of_bind in Hc as (c' & Hel & Hc). apply elem_of_seq in Hc.
    destruct (Z.eqb_spec (Redraw.at2 g r' c') 0); [|by apply elem_of_nil in Hel].
    apply list_elem_of_singleton in Hel. simplify_eq. repeat split; (lia || done).
  - intros (Hr & Hc & Hcell). exists r. split; [|apply elem_of_seq; lia].
    apply list_elem_of_bind. exists c. split; [|apply elem_of_seq; lia].
    rewrite Hcell. by left.
Qed.

Lemma redraw_spawnTile_cases k lt09 st :
  (Redraw.emptyCells (Redraw.grid st) = [] ∧ Redraw.spawnTile k lt09 st = st)
  ∨ ∃ r c,
      (r, c) ∈ Redraw.emptyCells (Redraw.grid st)
      ∧ Redraw.spawnTile k lt09 st =
          {| Redraw.grid := Redraw.set2 (Redraw.grid st) r c (if lt09 then 2 else 4);
             Redraw.score := Redraw.score st |}.
Proof.
  unfold Redraw.spawnTile.
  destruct (Redraw.emptyCells (Redraw.grid st)) as [|x free] eqn:Hfree; [by left|].
  right.
  destruct (lookup_lt_is_Some_2 (x :: free) (k `mod` length (x :: free))%nat)
    as [[r c] Hrc].
  { apply Nat.mod_upper_bound. simpl. lia. }
  exists r, c. split; [eapply list_elem_of_lookup_2; eauto|]. by rewrite Hrc.
Qed.

Lemma redraw_spawnTile_effect k lt09 st :
  wf (Redraw.grid st) →
  let st' := Redraw.spawnTile k lt09 st in
  Redraw.score st' = Redraw.score st
  ∧ wf (Redraw.grid st')
  ∧ (((∀ r c, (r < SIZE)%nat → (c < SIZE)%nat → Redraw.at2 (Redraw.grid st) r c ≠ 0)
      ∧ st' = st)
     ∨ (∃ r c,
          (r < SIZE)%nat ∧ (c < SIZE)%nat
          ∧ Redraw.at2 (Redraw.grid st) r c = 0
          ∧ Redraw.at2 (Redraw.grid st') r c = (if lt09 then 2 else 4)
          ∧ (∀ r' c', (r', c') ≠ (r, c) →
                      Redraw.at2 (Redraw.grid st') r' c' = Redraw.at2 (Redraw.grid st) r' c')
          ∧ Redraw.nonzero (concat (Redraw.grid st'))
            ≡ₚ (if lt09 then 2 else 4) :: Redraw.nonzero (concat (Redraw.grid st)))).
Proof.
  intros Hwf st'. unfold st'.
  destruct (redraw_spawnTile_cases k lt09 st) as [[Hnil ->]|(r & c & Hel & ->)].
  - split; [done|]. split; [done|]. left. split; [|done].
    intros r c Hr Hc H0.
    assert ((r, c) ∈ Redraw.emptyCells (Redraw.grid st)) as Hel
      by by apply redraw_emptyCells_elem.
    rewrite Hnil in Hel. by apply elem_of_nil in Hel.
  - apply redraw_emptyCells_elem in Hel as (Hr & Hc & H0). simpl.
    split; [done|]. split; [by apply wf_set2|]. right. exists r, c.
    split; [done|]. split; [done|]. split; [done|].
    split; [by apply at2_set2_eq|]. split; [intros r' c' Hne; by apply at2_set2_ne|].
    apply nonzero_set2; try done. by destruct lt09.
Qed.

Lemma redraw_restartGame_tiles k1 b1 k2 b2 :
  let st := Redraw.restartGame k1 b1 k2 b2 in
  Redraw.score st = 0
  ∧ wf (Redraw.grid st)
  ∧ Redraw.nonzero (concat (Redraw.grid st))
    ≡ₚ [if b2 then 2 else 4; if b1 then 2 else 4].
Proof.
  unfold Redraw.restartGame.
  set (st0 := {| Redraw.grid := replicate SIZE (replicate SIZE 0); Redraw.score := 0 |}).
  assert (wf (Redraw.grid st0)) as Hwf0 by apply wf_replicate.
  destruct (redraw_spawnTile_effect k1 b1 st0 Hwf0) as (Hs1 & Hwf1 & [[Hfull _]|H1]).
  { by destruct (Hfull 0%nat 0%nat); unfold SIZE; try lia. }
  destruct H1 as (r1 & c1 & _ & _ & _ & _ & _ & Hp1).
  set (st1 := Redraw.spawnTile k1 b1 st0) in *.
  destruct (redraw_spawnTile_effect k2 b2 st1 Hwf1) as (Hs2 & Hwf2 & [[Hfull _]|H2]).
  { exfalso.
    assert (length (Redraw.nonzero (concat (Redraw.grid st1))) = 1%nat) as Hone
      by (by rewrite Hp1).
    assert (Redraw.nonzero (concat (Redraw.grid st1)) = concat (Redraw.grid st1)) as Hall.
    { apply nonzero_id. apply Forall_forall. intros x Hx.
      apply list_elem_of_In, in_concat in Hx as (row & Hrow & Hx).
      apply list_elem_of_In, list_elem_of_lookup in Hrow as [r Hrow].
      apply list_elem_of_In, list_elem_of_lookup in Hx as [c Hx].
      destruct Hwf1 as [Hlen Hrows].
      pose proof (lookup_lt_Some _ _ _ Hrow) as Hr.
      pose proof (Forall_lookup_1 _ _ _ _ Hrows Hrow) as Hlr.
      pose proof (lookup_lt_Some _ _ _ Hx) as Hc.
      simpl in Hlr. specialize (Hfull r c ltac:(lia) ltac:(lia)). unfold Redraw.at2 in Hfull.
      by rewrite (list_lookup_total_correct _ _ _ Hrow),
        (list_lookup_total_correct _ _ _ Hx) in Hfull. }
    rewrite Hall in Hone. destruct Hwf1 as [Hlen Hrows].
    destruct (Redraw.grid st1) as [|ra [|rb l]]; try done.
    apply Forall_cons in Hrows as [Ha Hrows]. apply Forall_cons in Hrows as [Hb _].
    simpl in Hone. rewrite !length_app in Hone. unfold SIZE in *. lia. }
  destruct H2 as (r2 & c2 & _ & _ & _ & _ & _ & Hp2).
  split; [by rewrite Hs2, Hs1|]. split; [done|].
  rewrite Hp2, Hp1. done.
Qed.

(** * Game over and the moves that are left *)

(** ** One line *)

Lemma slideRow4_stuck a b c d :
  a ≠ 0 → b ≠ 0 → c ≠ 0 → d ≠ 0 → a ≠ b → b ≠ c → c ≠ d →
  slideRow [a; b; c; d] = [a; b; c; d] ∧ gain [a; b; c; d] = 0.
Proof.
  intros. unfold slideRow, gain, Redraw.slide, Redraw.nonzero, Redraw.pad.
  slide_cases. done.
Qed.

Lemma slideRow4_pair a b c d :
  (a = b ∧ a ≠ 0) ∨ (b = c ∧ b ≠ 0) ∨ (c = d ∧ c ≠ 0) →
  slideRow [a; b; c; d] ≠ [a; b; c; d].
Proof.
  unfold slideRow, Redraw.slide, Redraw.nonzero, Redraw.pad.
  slide_cases; intros Hp Heq; simplify_eq; lia.
Qed.

Lemma slideRow4_gap a b c d :
  a = 0 ∨ b = 0 ∨ c = 0 ∨ d = 0 →
  a ≠ 0 ∨ b ≠ 0 ∨ c ≠ 0 ∨ d ≠ 0 →
  slideRow [a; b; c; d] ≠ [a; b; c; d] ∨ slideRow [d; c; b; a] ≠ [d; c; b; a].
Proof.
  intros Hz Hn.
  destruct (decide (slideRow [a; b; c; d] = [a; b; c; d])) as [H1|H1]; [|by left].
  right. revert H1.
  unfold slideRow, Redraw.slide, Redraw.nonzero, Redraw.pad.
  slide_cases; intros H1 H2; simplify_eq; lia.
Qed.

(** ** The lines of a grid *)

(** Cell [k] of line [i] of a grid. *)
Lemma lines_lookup dir g i :
  wf g → (i < SIZE)%nat →
  lines dir g !! i
  = Some (map (fun k => Redraw.at2 g (Z.to_nat (coord dir i k).1)
                                     (Z.to_nat (coord dir i k).2)) indices).
Proof.
  intros Hwf Hi.
  destruct (wf_shape g Hwf)
    as (a0&a1&a2&a3&b0&b1&b2&b3&c0&c1&c2&c3&d0&d1&d2&d3&->).
  unfold SIZE in Hi.
  destruct dir; destruct i as [|[|[|[|i]]]]; try lia; reflexivity.
Qed.

Lemma lines_length dir g : wf g → length (lines dir g) = SIZE.
Proof.
  intros Hwf.
  destruct (wf_shape g Hwf)
    as (a0&a1&a2&a3&b0&b1&b2&b3&c0&c1&c2&c3&d0&d1&d2&d3&->).
  by destruct dir.
Qed.

Lemma lines_all_fixed dir g :
  wf g →
  (∀ i line, lines dir g !! i = Some line → slideRow line = line) →
  map slideRow (lines dir g) = lines dir g.
Proof.
  intros Hwf H. apply list_eq. intros i. rewrite list_lookup_fmap.
  destruct (lines dir g !! i) as [line|] eqn:Hl; [|done]. simpl.
  by rewrite (H i line Hl).
Qed.

Lemma lines_one_moves dir g i line :
  lines dir g !! i = Some line → slideRow line ≠ line →
  map slideRow (lines dir g) ≠ lines dir g.
Proof.
  intros Hl Hne Heq. apply Hne.
  assert (map slideRow (lines dir g) !! i = Some (slideRow line)) as H
    by (by rewrite list_lookup_fmap, Hl).
  rewrite Heq, Hl in H. by simplify_eq.
Qed.

(** ** The test of the full-redraw version *)

Lemma forallb_indices_false (f : nat → bool) :
  forallb f indices = false → ∃ i, (i < SIZE)%nat ∧ f i = false.
Proof.
  unfold indices, SIZE. cbn [seq forallb]. rewrite !andb_false_iff.
  intros [H|[H|[H|[H|H]]]]; try done.
  - exists 0%nat. split; [lia|done].
  - exists 1%nat. split; [lia|done].
  - exists 2%nat. split; [lia|done].
  - exists 3%nat. split; [lia|done].
Qed.

Lemma redraw_isGameOver_true g :
  Redraw.isGameOver g = true ↔
  ∀ r c, (r < SIZE)%nat → (c < SIZE)%nat → Redraw.blocks g r c = false.
Proof.
  unfold Redraw.isGameOver. rewrite forallb_indices. split; intros H r.
  - intros c Hr Hc. specialize (H r Hr). rewrite forallb_indices in H.
    apply negb_true_iff. by apply H.
  - intros Hr. apply forallb_indices. intros c Hc. apply negb_true_iff. by apply H.
Qed.

Lemma redraw_isGameOver_false g :
  Redraw.isGameOver g = false →
  ∃ r c, (r < SIZE)%nat ∧ (c < SIZE)%nat ∧ Redraw.blocks g r c = true.
Proof.
  unfold Redraw.isGameOver. intros H.
  apply forallb_indices_false in H as (r & Hr & H).
  apply forallb_indices_false in H as (c & Hc & H).
  exists r, c. split; [done|]. split; [done|]. by apply negb_false_iff.
Qed.

(** A board on which the game is over: no line can move. *)
Lemma gameOver_lines_fixed dir g :
  wf g → Redraw.isGameOver g = true →
  map slideRow (lines dir g) = lines dir g ∧ sumZ (map gain (lines dir g)) = 0.
Proof.
  intros Hwf Hover. rewrite redraw_isGameOver_true in Hover.
  assert (∀ i line, lines dir g !! i = Some line →
                    slideRow line = line ∧ gain line = 0) as Hline.
  { intros i line Hl.
    assert (i < SIZE)%nat as Hi.
    { rewrite <- (lines_length dir g Hwf). by eapply lookup_lt_Some. }
    rewrite (lines_lookup dir g i Hwf Hi) in Hl. simplify_eq.
    pose proof (fun r c Hr Hc => proj1 (redraw_blocks_false g r c) (Hover r c Hr Hc)) as Hb.
    unfold SIZE in *.
    destruct dir; unfold indices, SIZE; cbn [seq map coord fst snd];
      rewrite ?Nat2Z.id;
      change (Z.to_nat (Z.of_nat 4 - 1 - Z.of_nat 0)) with 3%nat;
      change (Z.to_nat (Z.of_nat 4 - 1 - Z.of_nat 1)) with 2%nat;
      change (Z.to_nat (Z.of_nat 4 - 1 - Z.of_nat 2)) with 1%nat;
      change (Z.to_nat (Z.of_nat 4 - 1 - Z.of_nat 3)) with 0%nat.
    - pose proof (Hb 0%nat i ltac:(lia) Hi) as (? & _ & Hd0).
      pose proof (Hb 1%nat i ltac:(lia) Hi) as (? & _ & Hd1).
      pose proof (Hb 2%nat i ltac:(lia) Hi) as (? & _ & Hd2).
      pose proof (Hb 3%nat i ltac:(lia) Hi) as (? & _ & _).
      specialize (Hd0 ltac:(lia)). specialize (Hd1 ltac:(lia)).
      specialize (Hd2 ltac:(lia)). simpl in *.
      by apply slideRow4_stuck.
    - pose proof (Hb 0%nat i ltac:(lia) Hi) as (? & _ & Hd0).
      pose proof (Hb 1%nat i ltac:(lia) Hi) as (? & _ & Hd1).
      pose proof (Hb 2%nat i ltac:(lia) Hi) as (? & _ & Hd2).
      pose proof (Hb 3%nat i ltac:(lia) Hi) as (? & _ & _).
      specialize (Hd0 ltac:(lia)). specialize (Hd1 ltac:(lia)).
      specialize (Hd2 ltac:(lia)). simpl in *.
      by apply slideRow4_stuck.
    - pose proof (Hb i 0%nat Hi ltac:(lia)) as (? & Hd0 & _).
      pose proof (Hb i 1%nat Hi ltac:(lia)) as (? & Hd1 & _).
      pose proof (Hb i 2%nat Hi ltac:(lia)) as (? & Hd2 & _).
      pose proof (Hb i 3%nat Hi ltac:(lia)) as (? & _ & _).
      specialize (Hd0 ltac:(lia)). specialize (Hd1 ltac:(lia)).
      specialize (Hd2 ltac:(lia)). simpl in *.
      by apply slideRow4_stuck.
    - pose proof (Hb i 0%nat Hi ltac:(lia)) as (? & Hd0 & _).
      pose proof (Hb i 1%nat Hi ltac:(lia)) as (? & Hd1 & _).
      pose proof (Hb i 2%nat Hi ltac:(lia)) as (? & Hd2 & _).
      pose proof (Hb i 3%nat Hi ltac:(lia)) as (? & _ & _).
      specialize (Hd0 ltac:(lia)). specialize (Hd1 ltac:(lia)).
      specialize (Hd2 ltac:(lia)). simpl in *.
      by apply slideRow4_stuck. }
  split.
  - apply lines_all_fixed; [done|]. intros i line Hl. by apply (Hline i line).
  - assert (Forall (fun line => gain line = 0) (lines dir g)) as Hg.
    { apply Forall_lookup. intros i line Hl. by apply (Hline i line). }
    clear Hline. induction Hg as [|line l H0 _ IH]; [done|]. simpl. rewrite H0, IH. done.
Qed.

Lemma lines_explicit g i :
  wf g → (i < SIZE)%nat →
  lines Left g !! i
  = Some [Redraw.at2 g i 0; Redraw.at2 g i 1; Redraw.at2 g i 2; Redraw.at2 g i 3]
  ∧ lines Right g !! i
    = Some [Redraw.at2 g i 3; Redraw.at2 g i 2; Redraw.at2 g i 1; Redraw.at2 g i 0]
  ∧ lines Up g !! i
    = Some [Redraw.at2 g 0 i; Redraw.at2 g 1 i; Redraw.at2 g 2 i; Redraw.at2 g 3 i]
  ∧ lines Down g !! i
    = Some [Redraw.at2 g 3 i; Redraw.at2 g 2 i; Redraw.at2 g 1 i; Redraw.at2 g 0 i].
Proof.
  intros Hwf Hi. rewrite !lines_lookup by done.
  unfold indices, SIZE. cbn [seq map coord fst snd]. rewrite ?Nat2Z.id. done.
Qed.

Lemma redraw_full_spawn k lt09 st :
  (∀ r c, (r < SIZE)%nat → (c < SIZE)%nat → Redraw.at2 (Redraw.grid st) r c ≠ 0) →
  Redraw.spawnTile k lt09 st = st.
Proof.
  intros Hfull.
  destruct (redraw_spawnTile_cases k lt09 st) as [[_ ->]|(r & c & Hel & _)]; [done|].
  apply redraw_emptyCells_elem in Hel as (Hr & Hc & H0). by destruct (Hfull r c).
Qed.

(** Once the game is over no call of [move] changes the state. *)
Lemma redraw_gameOver_move d k lt09 st :
  wf (Redraw.grid st) → Redraw.isGameOver (Redraw.grid st) = true →
  Redraw.move d k lt09 st = st.
Proof.
  destruct st as [g s]. simpl. intros Hwf Hover. unfold Redraw.move.
  assert (Redraw.newGrid (Redraw.resolve d (Redraw.mkState g s)) = g
          ∧ Redraw.sc (Redraw.resolve d (Redraw.mkState g s)) = s) as [Hg Hs].
  { destruct (validDirection_dec d) as [Hd|Hd].
    - apply validDirection_key in Hd as [dir ->].
      destruct (resolve_lines dir g s Hwf) as [-> ->].
      destruct (gameOver_lines_fixed dir g Hwf Hover) as [-> ->].
      split; [by apply unlines_lines|lia].
    - by rewrite resolve_invalid. }
  rewrite Hg, Hs. destruct (Redraw.hasMoved _); [|done].
  apply redraw_full_spawn. simpl. intros r c Hr Hc.
  rewrite redraw_isGameOver_true in Hover.
  by apply (redraw_blocks_false g r c), Hover.
Qed.

(** A board with an empty cell and a tile: some line holds both, and it
    moves in one of its two directions. *)
Lemma redraw_gap_line g r c r' c' :
  wf g → (r < SIZE)%nat → (c < SIZE)%nat → (r' < SIZE)%nat → (c' < SIZE)%nat →
  Redraw.at2 g r c = 0 → Redraw.at2 g r' c' ≠ 0 →
  ∃ dir, map slideRow (lines dir g) ≠ lines dir g.
Proof.
  intros Hwf Hr Hc Hr' Hc' H0 Htile.
  pose proof (lines_explicit g r Hwf Hr) as (HL & HR & _ & _).
  pose proof (lines_explicit g c' Hwf Hc') as (_ & _ & HU & HD).
  destruct (decide (Redraw.at2 g r 0 = 0 ∧ Redraw.at2 g r 1 = 0
                    ∧ Redraw.at2 g r 2 = 0 ∧ Redraw.at2 g r 3 = 0))
    as [(Z0 & Z1 & Z2 & Z3)|Hn].
  - assert (Redraw.at2 g r c' = 0) as Hz.
    { unfold SIZE in *. destruct c' as [|[|[|[|]]]]; (done || lia). }
    destruct (slideRow4_gap (Redraw.at2 g 0 c') (Redraw.at2 g 1 c')
                (Redraw.at2 g 2 c') (Redraw.at2 g 3 c')) as [Hm|Hm].
    + unfold SIZE in *. destruct r as [|[|[|[|]]]]; try lia; tauto.
    + unfold SIZE in *. destruct r' as [|[|[|[|]]]]; try lia; tauto.
    + exists Up. by apply (lines_one_moves Up g c' _ HU).
    + exists Down. by apply (lines_one_moves Down g c' _ HD).
  - destruct (slideRow4_gap (Redraw.at2 g r 0) (Redraw.at2 g r 1)
                (Redraw.at2 g r 2) (Redraw.at2 g r 3)) as [Hm|Hm].
    + unfold SIZE in *. destruct c as [|[|[|[|]]]]; try lia; tauto.
    + lia.
    + exists Left. by apply (lines_one_moves Left g r _ HL).
    + exists Right. by apply (lines_one_moves Right g r _ HR).
Qed.

(** While the game is not over and the board holds a tile, some line can
    move. *)
Lemma redraw_not_over_line g :
  wf g → Redraw.isGameOver g = false →
  (∃ r c, (r < SIZE)%nat ∧ (c < SIZE)%nat ∧ Redraw.at2 g r c ≠ 0) →
  ∃ dir, map slideRow (lines dir g) ≠ lines dir g.
Proof.
  intros Hwf Hover (r' & c' & Hr' & Hc' & Htile).
  apply redraw_isGameOver_false in Hover as (r & c & Hr & Hc & Hb).
  destruct (Z.eqb_spec (Redraw.at2 g r c) 0) as [H0|H0].
  { by apply (redraw_gap_line g r c r' c'). }
  pose proof (lines_explicit g r Hwf Hr) as (HL & _).
  pose proof (lines_explicit g c Hwf Hc) as (_ & _ & HU & _).
  unfold Redraw.blocks in Hb. apply orb_true_iff in Hb as [Hb|Hb];
    [apply orb_true_iff in Hb as [Hb|Hb]; [lia|]|].
  - apply andb_true_iff in Hb as [Hlt Heq]. case_bool_decide; [|done].
    exists Left. apply (lines_one_moves Left g r _ HL). apply slideRow4_pair.
    unfold SIZE in *. destruct c as [|[|[|]]]; try lia; simpl in Heq.
    + left. lia.
    + right; left. lia.
    + right; right. lia.
  - apply andb_true_iff in Hb as [Hlt Heq]. case_bool_decide; [|done].
    exists Up. apply (lines_one_moves Up g c _ HU). apply slideRow4_pair.
    unfold SIZE in *. destruct r as [|[|[|]]]; try lia; simpl in Heq.
    + left. lia.
    + right; left. lia.
    + right; right. lia.
Qed.

Lemma redraw_not_over_move g s :
  wf g → Redraw.isGameOver g = false →
  (∃ r c, (r < SIZE)%nat ∧ (c < SIZE)%nat ∧ Redraw.at2 g r c ≠ 0) →
  ∃ dir, Redraw.newGrid (Redraw.resolve (key dir) (Redraw.mkState g s)) ≠ g.
Proof.
  intros Hwf Hover Htile.
  destruct (redraw_not_over_line g Hwf Hover Htile) as [dir Hdir].
  exists dir. destruct (resolve_lines dir g s Hwf) as [-> _].
  by rewrite (lines_fixed dir g Hwf).
Qed.

(** * The invariant of the full-redraw version *)

Lemma isArrowKey_valid key : isArrowKey key = true ↔ validDirection key.
Proof.
  unfold isArrowKey, validDirection. rewrite bool_decide_eq_true.
  rewrite !elem_of_cons, elem_of_nil. tauto.
Qed.

Lemma mergeLoop_Forall (P : Z → Prop) n i arr s :
  (∀ x, P x → P (x * 2)) → P 0 →
  Forall P arr → Forall P (Redraw.mergeLoop n i arr s).1.
Proof.
  intros Hdouble H0. revert i arr s.
  induction n as [|n IH]; intros i arr s Harr; [done|].
  cbn [Redraw.mergeLoop].
  destruct (arr !! i) as [x|] eqn:Hi, (arr !! S i) as [y|] eqn:Hsi; try by apply IH.
  destruct (Z.eqb_spec x y) as [->|]; [|by apply IH].
  apply IH. apply Forall_insert; [|done]. apply Forall_insert; [done|].
  apply Hdouble. apply (Forall_lookup_1 _ _ _ _ Harr Hi).
Qed.

Lemma slideRow_Forall (P : Z → Prop) row :
  (∀ x, P x → P (x * 2)) → P 0 → Forall P row → Forall P (slideRow row).
Proof.
  intros Hdouble H0 Hrow. unfold slideRow. rewrite slide_unfold. simpl.
  unfold Redraw.pad. apply Forall_app. split; [|by apply Forall_replicate].
  apply nonzero_Forall_keep. apply mergeLoop_Forall; try done.
  by apply nonzero_Forall_keep.
Qed.

Lemma slideRow4_Forall (P : Z → Prop) a b c d x0 x1 x2 x3 :
  (∀ x, P x → P (x * 2)) → P 0 →
  slideRow [a; b; c; d] = [x0; x1; x2; x3] →
  P a → P b → P c → P d → P x0 ∧ P x1 ∧ P x2 ∧ P x3.
Proof.
  intros Hdouble H0 Heq Ha Hb Hc Hd.
  assert (Forall P (slideRow [a; b; c; d])) as H.
  { apply slideRow_Forall; try done. by repeat constructor. }
  rewrite Heq in H. rewrite !Forall_cons in H. tauto.
Qed.

Ltac lines_Forall Hdouble H0 :=
  repeat match goal with
         | H : slideRow [?a; ?b; ?c; ?d] = [?x0; ?x1; ?x2; ?x3] |- _ =>
             let Hx := fresh "Hx" in
             assert (_ x0 ∧ _ x1 ∧ _ x2 ∧ _ x3) as Hx
               by (apply (slideRow4_Forall _ a b c d x0 x1 x2 x3 Hdouble H0 H); tauto);
             clear H
         end.

(** A property of the cells that holds of [0] and is kept by doubling
    holds of the grid that a move computes. *)
Lemma lines_slide_Forall (P : Z → Prop) dir g :
  (∀ x, P x → P (x * 2)) → P 0 → wf g →
  Forall (Forall P) g →
  Forall (Forall P) (unlines dir (map slideRow (lines dir g))).
Proof.
  intros Hdouble H0 Hwf Hg.
  destruct (wf_shape g Hwf)
    as (a0&a1&a2&a3&b0&b1&b2&b3&c0&c1&c2&c3&d0&d1&d2&d3&->).
  rewrite !Forall_cons in Hg.
  destruct dir; grid_cbn; name_lines; grid_cbn; lines_Forall Hdouble H0;
    rewrite !Forall_cons; repeat split; (tauto || by apply Forall_nil_2).
Qed.

Lemma lines_slide_wf dir g : wf g → wf (unlines dir (map slideRow (lines dir g))).
Proof.
  intros Hwf.
  destruct (wf_shape g Hwf)
    as (a0&a1&a2&a3&b0&b1&b2&b3&c0&c1&c2&c3&d0&d1&d2&d3&->).
  destruct dir; grid_cbn; name_lines; grid_cbn;
    (split; [reflexivity|repeat (apply Forall_cons_2; [reflexivity|]); apply Forall_nil_2]).
Qed.

Lemma lines_Forall (P : Z → Prop) dir g :
  wf g → Forall (Forall P) g → Forall (Forall P) (lines dir g).
Proof.
  intros Hwf Hg.
  destruct (wf_shape g Hwf)
    as (a0&a1&a2&a3&b0&b1&b2&b3&c0&c1&c2&c3&d0&d1&d2&d3&->).
  rewrite !Forall_cons in Hg.
  destruct dir; grid_cbn;
    rewrite !Forall_cons; repeat split; (tauto || by apply Forall_nil_2).
Qed.

Lemma sumZ_Permutation l1 l2 : l1 ≡ₚ l2 → sumZ l1 = sumZ l2.
Proof. induction 1; simpl; lia. Qed.

Lemma sumZ_double l : sumZ (map (fun v => v * 2) l) = 2 * sumZ l.
Proof. induction l as [|a l IH]; simpl; lia. Qed.

(** A move keeps the sum of the numbers on the grid. *)
Lemma resolve_sum dir g s :
  wf g →
  sumZ (concat (Redraw.newGrid (Redraw.resolve (key dir) (Redraw.mkState g s))))
  = sumZ (concat g).
Proof.
  intros Hwf. destruct (resolve_merges dir g s Hwf) as (ws & Hperm & _).
  apply sumZ_Permutation in Hperm.
  rewrite !sumZ_app, !sumZ_nonzero, sumZ_double in Hperm. lia.
Qed.

Lemma cellOk_nonneg v : cellOk v → 0 ≤ v.
Proof. intros [->|H]; [done|]. apply pow2_pos in H. lia. Qed.

Lemma cellOk_even v : cellOk v → (2 | v).
Proof.
  intros [->|(n & Hn & ->)]; [by exists 0|].
  exists (2 ^ Z.of_nat (n - 1)).
  replace (Z.of_nat n) with (Z.succ (Z.of_nat (n - 1))) by lia.
  rewrite Z.pow_succ_r by lia. lia.
Qed.

Lemma cellOk_double v : cellOk v → cellOk (v * 2).
Proof. intros [->|H]; [by left|right; by apply pow2_double]. Qed.

Lemma tiles_sum l :
  Forall (fun v => 0 ≤ v) l → (0 < sumZ l ↔ Redraw.nonzero l ≠ []).
Proof.
  induction 1 as [|a l Ha _ IH]; simpl; [split; [lia|done]|].
  destruct (Z.eqb_spec a 0) as [->|Hne]; simpl.
  - rewrite <- IH. split; lia.
  - split; [done|]. intros _.
    assert (0 ≤ sumZ l); [|lia].
    destruct (decide (Redraw.nonzero l = [])) as [Hnil|Hnn]; [|apply IH in Hnn; lia].
    rewrite <- sumZ_nonzero, Hnil. done.
Qed.

Lemma mergeLoop_div4 n i arr s :
  Forall (fun v => (2 | v)) arr → (4 | s) → (4 | (Redraw.mergeLoop n i arr s).2).
Proof.
  revert i arr s. induction n as [|n IH]; intros i arr s Harr Hs; [done|].
  cbn [Redraw.mergeLoop].
  destruct (arr !! i) as [x|] eqn:Hi, (arr !! S i) as [y|] eqn:Hsi; try by apply IH.
  destruct (Z.eqb_spec x y) as [->|]; [|by apply IH].
  pose proof (Forall_lookup_1 _ _ _ _ Harr Hi) as [q Hq]. simpl in Hq.
  apply IH.
  - apply Forall_insert; [|by exists 0]. apply Forall_insert; [done|].
    exists y. lia.
  - destruct Hs as [p ->]. exists (p + q). lia.
Qed.

Lemma gain_div4 row : Forall cellOk row → (4 | gain row).
Proof.
  intros Hrow. unfold gain. rewrite slide_unfold. simpl. apply mergeLoop_div4.
  - apply nonzero_Forall_keep. eapply Forall_impl; [exact Hrow|]. apply cellOk_even.
  - by exists 0.
Qed.

Lemma gains_div4 l : Forall (Forall cellOk) l → (4 | sumZ (map gain l)).
Proof.
  induction 1 as [|row l Hrow _ IH]; simpl; [by exists 0|].
  apply Z.divide_add_r; [by apply gain_div4|done].
Qed.

Lemma concat_Forall (P : Z → Prop) g : Forall (Forall P) g → Forall P (concat g).
Proof. induction 1; simpl; [constructor|]. by apply Forall_app. Qed.

Lemma full_tileCount g :
  wf g →
  (∀ r c, (r < SIZE)%nat → (c < SIZE)%nat → Redraw.at2 g r c ≠ 0) →
  tileCount g = (SIZE * SIZE)%nat.
Proof.
  intros Hwf Hfull.
  destruct (wf_shape g Hwf)
    as (a0&a1&a2&a3&b0&b1&b2&b3&c0&c1&c2&c3&d0&d1&d2&d3&->).
  unfold tileCount. rewrite nonzero_id; [done|].
  unfold SIZE in *.
  assert (∀ r c, (r < 4)%nat → (c < 4)%nat →
                 [[a0; a1; a2; a3]; [b0; b1; b2; b3]; [c0; c1; c2; c3]; [d0; d1; d2; d3]]
                   !! r ≫= (.!! c) ≠ Some 0) as Hcell.
  { intros r c Hr Hc Heq. apply (Hfull r c Hr Hc). unfold Redraw.at2.
    destruct r as [|[|[|[|]]]], c as [|[|[|[|]]]]; try lia; by simplify_eq/=. }
  simpl.
  repeat match goal with
         | |- Forall _ (?x :: _) =>
             apply Forall_cons_2; [intros ->|]
         end; try apply Forall_nil_2.
  all: first [ by apply (Hcell 0 0)%nat; try lia | by apply (Hcell 0 1)%nat; try lia
             | by apply (Hcell 0 2)%nat; try lia | by apply (Hcell 0 3)%nat; try lia
             | by apply (Hcell 1 0)%nat; try lia | by apply (Hcell 1 1)%nat; try lia
             | by apply (Hcell 1 2)%nat; try lia | by apply (Hcell 1 3)%nat; try lia
             | by apply (Hcell 2 0)%nat; try lia | by apply (Hcell 2 1)%nat; try lia
             | by apply (Hcell 2 2)%nat; try lia | by apply (Hcell 2 3)%nat; try lia
             | by apply (Hcell 3 0)%nat; try lia | by apply (Hcell 3 1)%nat; try lia
             | by apply (Hcell 3 2)%nat; try lia | by apply (Hcell 3 3)%nat; try lia ].
Qed.

Lemma set2_Forall (P : Z → Prop) g r c v :
  Forall (Forall P) g → P v → Forall (Forall P) (Redraw.set2 g r c v).
Proof.
  intros Hg Hv. unfold Redraw.set2.
  destruct (decide (r < length g)%nat) as [Hlt|Hge]; [|by rewrite list_insert_ge by lia].
  apply Forall_insert; [done|].
  pose proof (list_lookup_lookup_total_lt g r Hlt) as Hrow.
  pose proof (Forall_lookup_1 _ _ _ _ Hg Hrow) as Hr.
  destruct (decide (c < length (g !!! r))%nat) as [Hc|Hc];
    [|by rewrite list_insert_ge by lia].
  by apply Forall_insert.
Qed.

(** The invariant of the full-redraw version. *)
Lemma redraw_spawnTile_inv k lt09 st :
  wf (Redraw.grid st) → Forall (Forall cellOk) (Redraw.grid st) →
  (1 ≤ tileCount (Redraw.grid st))%nat →
  let st' := Redraw.spawnTile k lt09 st in
  wf (Redraw.grid st') ∧ Forall (Forall cellOk) (Redraw.grid st')
  ∧ Redraw.score st' = Redraw.score st
  ∧ (2 ≤ tileCount (Redraw.grid st'))%nat.
Proof.
  intros Hwf Hcells Hone st'.
  destruct (redraw_spawnTile_effect k lt09 st Hwf) as (Hs & Hwf' & Hcase).
  fold st' in Hs, Hwf', Hcase. split; [done|].
  destruct (redraw_spawnTile_cases k lt09 st) as [[_ Heq]|(r & c & _ & Heq)].
  - fold st' in Heq. rewrite Heq. split; [done|]. split; [done|].
    destruct Hcase as [[Hfull _]|(r & c & Hr & Hc & H0 & _ & _ & Hperm)].
    + rewrite (full_tileCount _ Hwf Hfull). unfold SIZE. lia.
    + unfold tileCount in *. rewrite Heq in Hperm. apply Permutation_length in Hperm.
      simpl in Hperm. lia.
  - fold st' in Heq. split; [|split; [done|]].
    + rewrite Heq. simpl. apply set2_Forall; [done|].
      right. destruct lt09; [exists 1%nat|exists 2%nat]; split; (lia || done).
    + destruct Hcase as [[Hfull Hsame]|(r' & c' & _ & _ & _ & _ & _ & Hperm)].
      * rewrite Hsame. rewrite (full_tileCount _ Hwf Hfull). unfold SIZE. lia.
      * unfold tileCount in *. apply Permutation_length in Hperm. simpl in Hperm. lia.
Qed.

Lemma redraw_resolve_inv dir g s :
  wf g → Forall (Forall cellOk) g → 0 ≤ s → (4 | s) → (1 ≤ tileCount g)%nat →
  let acc := Redraw.resolve (key dir) (Redraw.mkState g s) in
  wf (Redraw.newGrid acc) ∧ Forall (Forall cellOk) (Redraw.newGrid acc)
  ∧ 0 ≤ Redraw.sc acc ∧ (4 | Redraw.sc acc)
  ∧ (1 ≤ tileCount (Redraw.newGrid acc))%nat.
Proof.
  intros Hwf Hcells Hs H4 Hone acc.
  assert (Forall (Forall (fun v => 0 ≤ v)) g) as Hpos.
  { eapply Forall_impl; [exact Hcells|]. intros row Hrow.
    eapply Forall_impl; [exact Hrow|]. apply cellOk_nonneg. }
  pose proof (resolve_sum dir g s Hwf) as Hsum. fold acc in Hsum.
  pose proof (resolve_gain_nonneg dir g s Hwf Hpos) as Hge. fold acc in Hge.
  destruct (resolve_lines dir g s Hwf) as [Hg Hsc]. fold acc in Hg, Hsc.
  assert (Forall (Forall cellOk) (Redraw.newGrid acc)) as Hcells'.
  { rewrite Hg. apply lines_slide_Forall; try done; [apply cellOk_double|by left]. }
  split; [rewrite Hg; by apply lines_slide_wf|]. split; [done|].
  split; [lia|]. split.
  - rewrite Hsc. apply Z.divide_add_r; [done|]. apply gains_div4. by apply lines_Forall.
  - unfold tileCount in *.
    assert (Redraw.nonzero (concat (Redraw.newGrid acc)) ≠ []) as Hnn.
    { apply tiles_sum.
      - apply concat_Forall. eapply Forall_impl; [exact Hcells'|]. intros row Hrow.
        eapply Forall_impl; [exact Hrow|]. apply cellOk_nonneg.
      - rewrite Hsum. apply tiles_sum; [by apply concat_Forall|].
        intros Hnil. rewrite Hnil in Hone. simpl in Hone. lia. }
    revert Hnn. generalize (Redraw.nonzero (concat (Redraw.newGrid acc))).
    intros [|x l] Hnn; [done|simpl; lia].
Qed.

Lemma redraw_move_inv d k lt09 st :
  wf (Redraw.grid st) → Forall (Forall cellOk) (Redraw.grid st) →
  0 ≤ Redraw.score st → (4 | Redraw.score st) → (2 ≤ tileCount (Redraw.grid st))%nat →
  let st' := Redraw.move d k lt09 st in
  wf (Redraw.grid st') ∧ Forall (Forall cellOk) (Redraw.grid st')
  ∧ 0 ≤ Redraw.score st' ∧ (4 | Redraw.score st')
  ∧ (2 ≤ tileCount (Redraw.grid st'))%nat.
Proof.
  destruct st as [g s]. simpl. intros Hwf Hcells Hs H4 Htwo.
  unfold Redraw.move.
  destruct (validDirection_dec d) as [Hd|Hd].
  2: { rewrite resolve_invalid by done. simpl. done. }
  apply validDirection_key in Hd as [dir ->].
  destruct (redraw_resolve_inv dir g s Hwf Hcells Hs H4 ltac:(lia))
    as (Hwf' & Hcells' & Hs' & H4' & Hone').
  destruct (Redraw.hasMoved _) eqn:Hm.
  - set (st1 := {| Redraw.grid := _; Redraw.score := _ |}).
    destruct (redraw_spawnTile_inv k lt09 st1 Hwf' Hcells' Hone')
      as (? & ? & Hsc & ?).
    rewrite Hsc. done.
  - simpl. destruct (resolve_moved dir g s Hwf) as [Hsame _].
    rewrite (Hsame Hm). done.
Qed.

Lemma redrawReachable_inv st :
  redrawReachable st →
  wf (Redraw.grid st) ∧ Forall (Forall cellOk) (Redraw.grid st)
  ∧ 0 ≤ Redraw.score st ∧ (4 | Redraw.score st)
  ∧ (2 ≤ tileCount (Redraw.grid st))%nat.
Proof.
  induction 1 as [k1 b1 k2 b2|p st Hst IH].
  - destruct (redraw_restartGame_tiles k1 b1 k2 b2) as (Hs & Hwf & Hperm).
    split; [done|]. split; [|split; [lia|split; [rewrite Hs; by exists 0|]]].
    + unfold Redraw.restartGame.
      set (st0 := {| Redraw.grid := replicate SIZE (replicate SIZE 0);
                     Redraw.score := 0 |}).
      assert (∀ k b st, Forall (Forall cellOk) (Redraw.grid st) →
                        Forall (Forall cellOk) (Redraw.grid (Redraw.spawnTile k b st)))
        as Hspawn.
      { intros k b st Hc.
        destruct (redraw_spawnTile_cases k b st) as [[_ ->]|(r & c & _ & ->)]; [done|].
        simpl. apply set2_Forall; [done|].
        right. destruct b; [exists 1%nat|exists 2%nat]; split; (lia || done). }
      apply Hspawn, Hspawn. simpl. repeat constructor.
    + unfold tileCount. apply Permutation_length in Hperm. rewrite Hperm. done.
  - destruct IH as (Hwf & Hcells & Hs & H4 & Htwo).
    unfold Redraw.keydown. destruct (isArrowKey _); [|done].
    by apply redraw_move_inv.
Qed.

(** * After a move the tiles are packed against the border *)

Lemma lines_unlines_slide dir g :
  wf g →
  lines dir (unlines dir (map slideRow (lines dir g))) = map slideRow (lines dir g).
Proof.
  intros Hwf.
  destruct (wf_shape g Hwf)
    as (a0&a1&a2&a3&b0&b1&b2&b3&c0&c1&c2&c3&d0&d1&d2&d3&->).
  destruct dir; grid_cbn; name_lines; reflexivity.
Qed.

Lemma slideRow_packed row i j x :
  (i < j)%nat → slideRow row !! i = Some 0 → slideRow row !! j = Some x → x = 0.
Proof.
  intros Hij Hi Hj.
  destruct (slide_general row 0) as (_ & Hshape & _). fold (slideRow row) in Hshape.
  revert Hi Hj. rewrite Hshape.
  set (nz := Redraw.nonzero (slideRow row)).
  generalize (length (slideRow row) - length nz)%nat. intros n Hi Hj.
  destruct (decide (i < length nz)%nat) as [Hlt|Hge].
  - rewrite lookup_app_l in Hi by done.
    pose proof (Forall_lookup_1 _ _ _ _ (nonzero_Forall (slideRow row)) Hi). done.
  - rewrite lookup_app_r in Hj by lia.
    apply lookup_replicate in Hj as [-> _]. done.
Qed.

Lemma lines_slide_packed dir g line i j x :
  wf g →
  line ∈ lines dir (unlines dir (map slideRow (lines dir g))) →
  (i < j)%nat → line !! i = Some 0 → line !! j = Some x → x = 0.
Proof.
  intros Hwf Hline. rewrite lines_unlines_slide in Hline by done.
  apply list_elem_of_fmap in Hline as (row & -> & _). apply slideRow_packed.
Qed.

(** * The two versions, operation by operation *)

Lemma at2_values s r c :
  wf (Anim.cells s) → (r < SIZE)%nat → (c < SIZE)%nat →
  Redraw.at2 (Anim.values s) r c
  = numberAt (Anim.cells s) (Anim.heap s) (Z.of_nat r, Z.of_nat c).
Proof.
  intros [Hlen Hrows] Hr Hc.
  unfold Redraw.at2, numberAt, Anim.cellAt, Anim.values. simpl. rewrite !Nat2Z.id.
  destruct (lookup_lt_is_Some_2 (Anim.cells s) r ltac:(lia)) as [row Hrow].
  pose proof (Forall_lookup_1 _ _ _ _ Hrows Hrow) as Hlr. simpl in Hlr.
  destruct (lookup_lt_is_Some_2 row c ltac:(lia)) as [cell Hcell].
  rewrite Hrow, Hcell.
  set (f := fun cell0 : option nat => match cell0 with
                                      | Some t => Anim.valueOf (Anim.heap s) t
                                      | None => 0
                                      end).
  rewrite (list_lookup_total_correct (map (map f) (Anim.cells s)) r (map f row))
    by (by rewrite list_lookup_fmap, Hrow).
  rewrite (list_lookup_total_correct (map f row) c (f cell))
    by (by rewrite list_lookup_fmap, Hcell).
  done.
Qed.

Lemma numberAt_zero cs h p :
  tilesNonzero cs h → inside p → numberAt cs h p = 0 ↔ Anim.cellAt cs p = None.
Proof.
  intros Hnz Hin. unfold numberAt.
  destruct (Anim.cellAt cs p) as [t|] eqn:Hc; [|done].
  split; [|done]. intros H0. by destruct (Hnz p t Hin Hc).
Qed.

Lemma inside_nat r c : (r < SIZE)%nat → (c < SIZE)%nat → inside (Z.of_nat r, Z.of_nat c).
Proof. unfold inside, SIZE. simpl. lia. Qed.

(** The two game-over tests agree. *)
Lemma blocks_values s r c :
  wf (Anim.cells s) → tilesNonzero (Anim.cells s) (Anim.heap s) →
  (r < SIZE)%nat → (c < SIZE)%nat →
  Anim.blocks s r c = Redraw.blocks (Anim.values s) r c.
Proof.
  intros Hwf Hnz Hr Hc. unfold Anim.blocks, Redraw.blocks.
  rewrite (at2_values s r c) by done. unfold numberAt at 1 2 3.
  destruct (Anim.cellAt (Anim.cells s) (Z.of_nat r, Z.of_nat c)) as [t|] eqn:Ht; [|done].
  pose proof (Hnz _ t (inside_nat r c Hr Hc) Ht) as Hv.
  destruct (Z.eqb_spec (Anim.valueOf (Anim.heap s) t) 0) as [|_]; [done|]. simpl.
  f_equal.
  - case_bool_decide; [|done]. simpl.
    rewrite at2_values by (done || unfold SIZE in *; lia).
    unfold numberAt.
    destruct (Anim.cellAt _ (Z.of_nat r, Z.of_nat (c + 1))) as [t'|]; lia.
  - case_bool_decide; [|done]. simpl.
    rewrite at2_values by (done || unfold SIZE in *; lia).
    unfold numberAt.
    destruct (Anim.cellAt _ (Z.of_nat (r + 1), Z.of_nat c)) as [t'|]; lia.
Qed.

Lemma forallb_indices_ext (f g : nat → bool) :
  (∀ i, (i < SIZE)%nat → f i = g i) → forallb f indices = forallb g indices.
Proof.
  intros H. unfold indices, SIZE in *. cbn [seq forallb].
  by rewrite !H by lia.
Qed.

Lemma checkGameOver_values s :
  wf (Anim.cells s) → tilesNonzero (Anim.cells s) (Anim.heap s) →
  Anim.checkGameOver s = Redraw.isGameOver (Anim.values s).
Proof.
  intros Hwf Hnz. unfold Anim.checkGameOver, Redraw.isGameOver.
  apply forallb_indices_ext. intros r Hr.
  apply forallb_indices_ext. intros c Hc. by rewrite blocks_values.
Qed.

(** The empty cells are listed alike. *)
Lemma bind_indices_ext {A} (f g : nat → list A) :
  (∀ i, (i < SIZE)%nat → f i = g i) → indices ≫= f = indices ≫= g.
Proof.
  intros H. unfold indices, SIZE in *. cbn [seq mbind list_bind].
  by rewrite !H by lia.
Qed.

Lemma emptyCells_values s :
  wf (Anim.cells s) → tilesNonzero (Anim.cells s) (Anim.heap s) →
  Anim.emptyCells (Anim.cells s) = Redraw.emptyCells (Anim.values s).
Proof.
  intros Hwf Hnz. unfold Anim.emptyCells, Redraw.emptyCells.
  apply bind_indices_ext. intros r Hr. apply bind_indices_ext. intros c Hc.
  rewrite at2_values by done.
  pose proof (numberAt_zero _ _ _ Hnz (inside_nat r c Hr Hc)) as Hz.
  destruct (Anim.cellAt _ _) as [t|] eqn:Ht.
  - destruct (Z.eqb_spec (numberAt (Anim.cells s) (Anim.heap s) (Z.of_nat r, Z.of_nat c)) 0)
      as [H0|]; [|done].
    apply Hz in H0. congruence.
  - rewrite (proj2 Hz) by done. done.
Qed.

(** Two 4x4 grids with the same cells are equal. *)
Lemma grid_ext (g g' : list (list Z)) :
  wf g → wf g' →
  (∀ r c, (r < SIZE)%nat → (c < SIZE)%nat → Redraw.at2 g r c = Redraw.at2 g' r c) →
  g = g'.
Proof.
  intros Hwf Hwf' H.
  destruct (wf_shape g Hwf)
    as (a0&a1&a2&a3&b0&b1&b2&b3&c0&c1&c2&c3&d0&d1&d2&d3&->).
  destruct (wf_shape g' Hwf')
    as (a0'&a1'&a2'&a3'&b0'&b1'&b2'&b3'&c0'&c1'&c2'&c3'&d0'&d1'&d2'&d3'&->).
  unfold SIZE in H.
  pose proof (H 0 0 ltac:(lia) ltac:(lia))%nat. pose proof (H 0 1 ltac:(lia) ltac:(lia))%nat.
  pose proof (H 0 2 ltac:(lia) ltac:(lia))%nat. pose proof (H 0 3 ltac:(lia) ltac:(lia))%nat.
  pose proof (H 1 0 ltac:(lia) ltac:(lia))%nat. pose proof (H 1 1 ltac:(lia) ltac:(lia))%nat.
  pose proof (H 1 2 ltac:(lia) ltac:(lia))%nat. pose proof (H 1 3 ltac:(lia) ltac:(lia))%nat.
  pose proof (H 2 0 ltac:(lia) ltac:(lia))%nat. pose proof (H 2 1 ltac:(lia) ltac:(lia))%nat.
  pose proof (H 2 2 ltac:(lia) ltac:(lia))%nat. pose proof (H 2 3 ltac:(lia) ltac:(lia))%nat.
  pose proof (H 3 0 ltac:(lia) ltac:(lia))%nat. pose proof (H 3 1 ltac:(lia) ltac:(lia))%nat.
  pose proof (H 3 2 ltac:(lia) ltac:(lia))%nat. pose proof (H 3 3 ltac:(lia) ltac:(lia))%nat.
  clear H. unfold Redraw.at2 in *. simpl in *. by simplify_eq.
Qed.

(** The grid after [spawnTile], in the animated version. *)
Lemma values_spawn cs h sc pr r c v :
  boardOk cs h → (r < SIZE)%nat → (c < SIZE)%nat →
  Anim.values {| Anim.cells := Anim.setCell cs (Z.of_nat r, Z.of_nat c) (Some (length h));
                 Anim.heap := h ++ [Anim.mkTile v (Z.of_nat r) (Z.of_nat c)];
                 Anim.score := sc; Anim.isProcessing := pr |}
  = Redraw.set2 (Anim.values (Anim.mkState cs h sc pr)) r c v.
Proof.
  intros Hbd Hr Hc. pose proof Hbd as (Hwf & _ & _).
  apply grid_ext.
  - apply values_wf. simpl. by apply wf_setCell.
  - apply wf_set2. by apply values_wf.
  - intros r' c' Hr' Hc'. rewrite at2_values by (done || by apply wf_setCell). simpl.
    destruct (decide ((r', c') = (r, c))) as [[= -> ->]|Hne].
    + rewrite at2_set2_eq by (done || by apply values_wf).
      rewrite numberAt_setCell_eq by (done || by apply inside_nat).
      by rewrite valueOf_alloc_new.
    + rewrite at2_set2_ne by done. rewrite at2_values by done. simpl.
      rewrite numberAt_setCell_ne; [|by apply inside_nat..|intros [= ? ?]; apply Hne; f_equal; lia].
      unfold numberAt.
      destruct (Anim.cellAt cs (Z.of_nat r', Z.of_nat c')) as [t|] eqn:Ht; [|done].
      apply valueOf_alloc. apply (boardOk_allocated cs h t Hbd).
      eapply cellAt_tileRefs; [done|by apply (inside_nat r' c')|done].
Qed.

Lemma spawnTile_values_grid k lt09 s :
  boardOk (Anim.cells s) (Anim.heap s) →
  Anim.values (Anim.spawnTile k lt09 s)
  = Redraw.grid (Redraw.spawnTile k lt09 (Redraw.mkState (Anim.values s) (Anim.score s))).
Proof.
  intros Hbd. pose proof (boardOk_tilesNonzero _ _ Hbd) as Hnz.
  unfold Anim.spawnTile, Redraw.spawnTile. simpl.
  rewrite <- emptyCells_values by (done || apply Hbd).
  destruct (Anim.emptyCells (Anim.cells s) !! _) as [[r c]|] eqn:Hrc; [|done].
  apply list_elem_of_lookup_2, emptyCells_elem in Hrc as (Hr & Hc & _).
  destruct s as [cs h sc pr]. simpl in *. by apply values_spawn.
Qed.

(** * The score of the animated version, line by line *)

Lemma line_gain a b c d :
  pendingGain (foldl lineStep [(a, false); (b, false); (c, false); (d, false)] indices)
  = gain [a; b; c; d].
Proof.
  unfold pendingGain, gain, Redraw.slide, Redraw.nonzero, Redraw.pad, indices.
  cbn [seq SIZE foldl].
  eval_lineStep.
  all: eval_lineStep.
  all: eval_lineStep.
  all: eval_lineStep.
  all: cbn -[Z.mul Z.add]; lia.
Qed.

Lemma cellsByLine_NoDup dir : NoDup (cellsByLine dir).
Proof. destruct dir; refine (bool_decide_unpack _ _); vm_compute; exact I. Qed.

Lemma cellsByLine_inside dir p : p ∈ cellsByLine dir ↔ inside p.
Proof.
  unfold cellsByLine. rewrite list_elem_of_bind. split.
  - intros (i & Hp & Hi). apply list_elem_of_bind in Hp as (k & Hp & Hk).
    apply list_elem_of_singleton in Hp as ->.
    unfold indices in *. apply elem_of_seq in Hi, Hk. apply coord_inside; lia.
  - intros Hin. destruct (inside_coord dir p Hin) as (i & k & Hi & Hk & ->).
    exists i. split; [|apply elem_of_seq; lia].
    apply list_elem_of_bind. exists k. split; [by left|apply elem_of_seq; lia].
Qed.

Lemma sumZ_filter {A} (w : A → Z) (P : A → bool) l :
  (∀ x, P x = false → w x = 0) →
  sumZ (map w (List.filter P l)) = sumZ (map w l).
Proof.
  intros Hw. induction l as [|x l IH]; [done|]. simpl.
  destruct (P x) eqn:HP; simpl; [lia|]. rewrite (Hw x HP). lia.
Qed.

Lemma sumZ_cellsByLine dir (w : Z * Z → Z) :
  sumZ (map w (cellsByLine dir))
  = sumZ (map (fun i => sumZ (map (fun k => w (coord dir i k)) indices)) indices).
Proof.
  unfold cellsByLine, indices, SIZE. cbn [seq mbind list_bind map app sumZ foldr].
  lia.
Qed.

(** The score that the merges of a move add is the sum over the lines of
    what [slide] adds on each. *)
Lemma scan_gain dir s0 :
  boardOk (Anim.cells s0) (Anim.heap s0) →
  sumZ (map (fun v => v * 2)
          (fromValues (Anim.heap s0) (Anim.promises (Anim.scan (key dir) s0))))
  = sumZ (map gain (lines dir (Anim.values s0))).
Proof.
  intros Hbd. pose proof (scan_ScanInv (key dir) s0 Hbd) as Hinv.
  set (sc := Anim.scan (key dir) s0) in *.
  destruct Hinv as [(Hwff & Hdest & Hnd) _ Hpend _ _ _ _ Hexact].
  set (w := fun q : Z * Z =>
              if Anim.flagAt (Anim.mergedFlags sc) q
              then numberAt (Anim.cells (Anim.st sc)) (Anim.heap (Anim.st sc)) q * 2
              else 0).
  assert (map (fun v => v * 2) (fromValues (Anim.heap s0) (Anim.promises sc))
          = map w (map dest (Anim.promises sc))) as ->.
  { unfold fromValues. rewrite !map_map. apply map_ext_in. intros m Hm.
    apply list_elem_of_In in Hm.
    destruct (Hdest m Hm) as [Hin Hflag].
    destruct (Hpend m Hm) as (Hcell & _ & Heq & _).
    unfold w, numberAt. rewrite Hflag, Hcell, <- Heq. unfold sc.
    by rewrite scan_valueOf. }
  assert (map dest (Anim.promises sc)
          ≡ₚ List.filter (Anim.flagAt (Anim.mergedFlags sc)) (cellsByLine dir)) as Hperm.
  { apply NoDup_Permutation;
      [done|apply NoDup_ListNoDup, List.NoDup_filter, NoDup_ListNoDup, cellsByLine_NoDup|].
    intros q.
    assert (q ∈ List.filter (Anim.flagAt (Anim.mergedFlags sc)) (cellsByLine dir)
            ↔ q ∈ cellsByLine dir ∧ Anim.flagAt (Anim.mergedFlags sc) q = true) as ->
      by (rewrite !list_elem_of_In; apply filter_In).
    rewrite cellsByLine_inside. split.
    - intros Hq. apply list_elem_of_fmap in Hq as (m & -> & Hm).
      destruct (Hdest m Hm) as [Hin Hflag]. done.
    - intros [Hin Hflag]. by apply Hexact. }
  rewrite (sumZ_Permutation _ _ (Permutation_map w Hperm)).
  rewrite sumZ_filter by (intros q Hq; unfold w; by rewrite Hq).
  rewrite sumZ_cellsByLine, values_lines by apply Hbd. rewrite map_map.
  f_equal. apply map_ext_in. intros i Hi. unfold indices in Hi. apply in_seq in Hi.
  transitivity (pendingGain (lineView dir i sc)).
  { unfold pendingGain, lineView, cellInfo. rewrite map_map. done. }
  unfold sc. rewrite scan_lineView by (done || lia). rewrite lineView_start.
  unfold numbersOn, indices. cbn [map seq SIZE]. apply line_gain.
Qed.

Lemma settle_score dir s0 sc0 :
  boardOk (Anim.cells s0) (Anim.heap s0) →
  Anim.score (Anim.settle (Anim.scan (key dir) s0))
  = Anim.score s0 - sc0
    + Redraw.sc (Redraw.resolve (key dir) (Redraw.mkState (Anim.values s0) sc0)).
Proof.
  intros Hbd. destruct (settle_scan (key dir) s0 Hbd) as (_ & _ & -> & _).
  rewrite scan_gain by done.
  destruct (resolve_lines dir (Anim.values s0) sc0) as [_ ->]; [|lia].
  apply values_wf, Hbd.
Qed.

(** * Game over in the animated version *)

Lemma values_setProcessing b s : Anim.values (Anim.setProcessing b s) = Anim.values s.
Proof. reflexivity. Qed.

Lemma anim_gameOver_move d k lt09 s :
  boardOk (Anim.cells s) (Anim.heap s) → Anim.checkGameOver s = true →
  Anim.move d k lt09 s = s.
Proof.
  intros Hbd Hover. apply move_unchanged.
  destruct (validDirection_dec d) as [Hd|Hd].
  - apply validDirection_key in Hd as [dir ->].
    apply scan_hasMoved_false; [by apply boardOk_setProcessing|].
    rewrite values_setProcessing.
    apply gameOver_lines_fixed; [apply values_wf, Hbd|].
    rewrite <- checkGameOver_values; [done|apply Hbd|by apply boardOk_tilesNonzero].
  - unfold Anim.scan. by rewrite foldl_processCell_invalid.
Qed.

Lemma anim_not_over_move s :
  boardOk (Anim.cells s) (Anim.heap s) → Anim.checkGameOver s = false →
  (∃ p t, inside p ∧ Anim.cellAt (Anim.cells s) p = Some t) →
  ∃ dir, Anim.hasMoved (Anim.scan (key dir) (Anim.setProcessing true s)) = true.
Proof.
  intros Hbd Hover (p & t & Hin & Hcell).
  pose proof (boardOk_tilesNonzero _ _ Hbd) as Hnz. pose proof Hbd as (Hwf & _).
  destruct (redraw_not_over_line (Anim.values s)) as [dir Hdir].
  - by apply values_wf.
  - by rewrite <- checkGameOver_values.
  - exists (Z.to_nat p.1), (Z.to_nat p.2). destruct Hin as [Hr Hc].
    split; [lia|]. split; [lia|]. rewrite at2_values by (done || lia).
    rewrite !Z2Nat.id by lia. rewrite <- surjective_pairing.
    unfold numberAt. rewrite Hcell. by apply (Hnz p t).
  - exists dir. apply not_false_iff_true. intros Hm. apply Hdir.
    apply scan_hasMoved_false in Hm; [|by apply boardOk_setProcessing].
    by rewrite values_setProcessing in Hm.
Qed.

(** * A move of the animated version against a move of the full-redraw
      version *)

Lemma move_values dir k lt09 s :
  Inv s →
  Anim.hasMoved (Anim.scan (key dir) (Anim.setProcessing true s))
  = Redraw.hasMoved (Redraw.resolve (key dir)
                       (Redraw.mkState (Anim.values s) (Anim.score s))) →
  Anim.values (Anim.move (key dir) k lt09 s)
  = Redraw.grid (Redraw.move (key dir) k lt09
                   (Redraw.mkState (Anim.values s) (Anim.score s)))
  ∧ Anim.score (Anim.move (key dir) k lt09 s)
    = Redraw.score (Redraw.move (key dir) k lt09
                      (Redraw.mkState (Anim.values s) (Anim.score s))).
Proof.
  intros (Hbd & Hsc & Hp) Hflag.
  assert (boardOk (Anim.cells (Anim.setProcessing true s))
            (Anim.heap (Anim.setProcessing true s))) as Hbd1
    by by apply boardOk_setProcessing.
  pose proof (values_wf s (proj1 Hbd)) as Hwf.
  unfold Redraw.move. rewrite <- Hflag.
  destruct (Anim.hasMoved _) eqn:Hm.
  - rewrite move_changed by done.
    set (sc := Anim.scan (key dir) (Anim.setProcessing true s)).
    destruct (settle_scan (key dir) (Anim.setProcessing true s) Hbd1) as (Hbd2 & _).
    fold sc in Hbd2.
    assert (Redraw.mkState (Anim.values (Anim.settle sc)) (Anim.score (Anim.settle sc))
            = Redraw.mkState
                (Redraw.newGrid (Redraw.resolve (key dir)
                                   (Redraw.mkState (Anim.values s) (Anim.score s))))
                (Redraw.sc (Redraw.resolve (key dir)
                              (Redraw.mkState (Anim.values s) (Anim.score s))))) as Heq.
    { unfold sc. rewrite (versions_same_grid dir _ (Anim.score s)) by done.
      rewrite (settle_score dir _ (Anim.score s)) by done.
      rewrite values_setProcessing. simpl. f_equal. lia. }
    rewrite <- Heq. split.
    + rewrite values_setProcessing. by apply spawnTile_values_grid.
    + rewrite redraw_spawnTile_score. simpl.
      by destruct (spawnTile_boardOk k lt09 _ Hbd2) as (_ & -> & _).
  - rewrite move_unchanged by done. simpl. split; [done|].
    destruct (resolve_moved dir (Anim.values s) (Anim.score s) Hwf) as [Hsame _].
    symmetry. apply Hsame. by rewrite <- Hflag.
Qed.

Lemma move_values_three dir k lt09 s :
  dir ≠ Right → Inv s →
  Anim.values (Anim.move (key dir) k lt09 s)
  = Redraw.grid (Redraw.move (key dir) k lt09
                   (Redraw.mkState (Anim.values s) (Anim.score s)))
  ∧ Anim.score (Anim.move (key dir) k lt09 s)
    = Redraw.score (Redraw.move (key dir) k lt09
                      (Redraw.mkState (Anim.values s) (Anim.score s))).
Proof.
  intros Hdir Hinv. apply move_values; [done|].
  rewrite <- (values_setProcessing true s).
  apply versions_same_flag; [done|]. apply boardOk_setProcessing, Hinv.
Qed.

Lemma spawnTile_Inv k lt09 s : Inv s → Inv (Anim.spawnTile k lt09 s).
Proof.
  intros (Hbd & Hsc & Hp). unfold Inv.
  destruct (spawnTile_boardOk k lt09 s Hbd) as (? & -> & ->). done.
Qed.

Lemma restartGame_values k1 b1 k2 b2 :
  Anim.values (Anim.restartGame k1 b1 k2 b2) = Redraw.grid (Redraw.restartGame k1 b1 k2 b2)
  ∧ Anim.score (Anim.restartGame k1 b1 k2 b2) = Redraw.score (Redraw.restartGame k1 b1 k2 b2)
  ∧ Inv (Anim.restartGame k1 b1 k2 b2).
Proof.
  unfold Anim.restartGame, Redraw.restartGame.
  pose proof emptyBoard_Inv as Hinv0.
  pose proof (spawnTile_Inv k1 b1 _ Hinv0) as Hinv1.
  pose proof (spawnTile_Inv k2 b2 _ Hinv1) as Hinv2.
  set (st0 := {| Redraw.grid := replicate SIZE (replicate SIZE 0); Redraw.score := 0 |}).
  pose proof (spawnTile_values_grid k1 b1 Anim.emptyBoard (proj1 Hinv0)) as Hg1.
  change (Redraw.mkState (Anim.values Anim.emptyBoard) (Anim.score Anim.emptyBoard))
    with st0 in Hg1.
  destruct (spawnTile_boardOk k1 b1 _ (proj1 Hinv0)) as (_ & Hs1 & _).
  pose proof (redraw_spawnTile_score k1 b1 st0) as Hr1.
  pose proof (spawnTile_values_grid k2 b2 _ (proj1 Hinv1)) as Hg2.
  destruct (spawnTile_boardOk k2 b2 _ (proj1 Hinv1)) as (_ & Hs2 & _).
  assert (Redraw.spawnTile k1 b1 st0
          = Redraw.mkState (Anim.values (Anim.spawnTile k1 b1 Anim.emptyBoard))
              (Anim.score (Anim.spawnTile k1 b1 Anim.emptyBoard))) as Heq.
  { destruct (Redraw.spawnTile k1 b1 st0) as [g1 s1]. simpl in *. by rewrite Hg1, Hs1, Hr1. }
  rewrite Heq. split; [done|]. split; [|done].
  rewrite redraw_spawnTile_score, Hs2. done.
Qed.

(** A key other than the right arrow, pressed between two moves. *)
Lemma keydown_values p s st :
  Inv s → Anim.values s = Redraw.grid st → Anim.score s = Redraw.score st →
  pressed p ≠ "ArrowRight" →
  let s' := Anim.keydown (pressed p) (drawCell p) (drawLt09 p) s in
  let st' := Redraw.keydown (pressed p) (drawCell p) (drawLt09 p) st in
  Anim.values s' = Redraw.grid st' ∧ Anim.score s' = Redraw.score st' ∧ Inv s'.
Proof.
  intros Hinv Hg Hsc Hp. unfold Anim.keydown, Redraw.keydown.
  destruct (isArrowKey (pressed p)) eqn:Hkey; [|done].
  apply isArrowKey_valid, validDirection_key in Hkey as [dir Hdir].
  assert (dir ≠ Right) as Hne by (intros ->; by apply Hp).
  destruct st as [g sc]. simpl in Hg, Hsc. subst g sc. rewrite Hdir.
  destruct (move_values_three dir (drawCell p) (drawLt09 p) s Hne Hinv) as [Hg' Hs'].
  simpl. split; [done|]. split; [done|]. by apply move_Inv.
Qed.

(** * The tile objects of a move *)

(** A pass of the scan keeps the tiles: those that leave the board are the
    moving tiles of the new pending merges. *)
Lemma processCell_refs d s p :
  wf (Anim.cells (Anim.st s)) → inside p →
  tileRefs (Anim.cells (Anim.st (Anim.processCell d s p)))
    ++ map Anim.from (Anim.promises (Anim.processCell d s p))
  ≡ₚ tileRefs (Anim.cells (Anim.st s)) ++ map Anim.from (Anim.promises s).
Proof.
  intros Hwf Hp.
  destruct (processCell_outcome d s p)
    as [->|(tile & q & Hcell & Hne & Hq & _ & [[Hfree ->]|(t & Ht & _ & _ & ->)])];
    [done|simpl..].
  - rewrite (tileRefs_remove _ p tile Hwf Hp Hcell).
    rewrite tileRefs_insert; [done|by apply wf_setCell|done|].
    by rewrite cellAt_setCell_ne.
  - rewrite (tileRefs_remove _ p tile Hwf Hp Hcell), map_app. simpl.
    solve_Permutation.
Qed.

Lemma borderFirst_tail d p todo : borderFirst d (p :: todo) = true → borderFirst d todo = true.
Proof. simpl. by intros [_ ?]%andb_true_iff. Qed.

Lemma foldl_processCell_refs d s0 todo s :
  Forall inside todo → borderFirst d todo = true → ScanInv s0 todo s →
  tileRefs (Anim.cells (Anim.st (foldl (Anim.processCell d) s todo)))
    ++ map Anim.from (Anim.promises (foldl (Anim.processCell d) s todo))
  ≡ₚ tileRefs (Anim.cells (Anim.st s)) ++ map Anim.from (Anim.promises s).
Proof.
  intros Hin. revert s. induction Hin as [|p todo Hp _ IH]; intros s Hbf Hinv; [done|].
  simpl. rewrite IH.
  - apply processCell_refs; [|done]. by destruct Hinv as [_ (Hwf & _) _ _ _ _ _ _].
  - by eapply borderFirst_tail.
  - by apply processCell_ScanInv.
Qed.

Lemma scan_refs d s0 :
  boardOk (Anim.cells s0) (Anim.heap s0) →
  tileRefs (Anim.cells (Anim.st (Anim.scan d s0)))
    ++ map Anim.from (Anim.promises (Anim.scan d s0))
  ≡ₚ tileRefs (Anim.cells s0).
Proof.
  intros Hbd. unfold Anim.scan. rewrite foldl_processCell_refs.
  - simpl. by rewrite app_nil_r.
  - apply scanOrder_inside.
  - apply scanOrder_borderFirst.
  - by apply scanStart_ScanInv.
Qed.

Lemma settle_cells d s0 :
  boardOk (Anim.cells s0) (Anim.heap s0) →
  Anim.cells (Anim.settle (Anim.scan d s0)) = Anim.cells (Anim.st (Anim.scan d s0))
  ∧ length (Anim.heap (Anim.settle (Anim.scan d s0))) = length (Anim.heap s0)
  ∧ (∀ t, posOf (Anim.heap (Anim.settle (Anim.scan d s0))) t
          = posOf (Anim.heap (Anim.st (Anim.scan d s0))) t).
Proof.
  intros Hbd.
  pose proof (scan_ScanInv d s0 Hbd) as Hinv.
  pose proof (ScanInv_into_NoDup _ _ _ Hinv) as Hndi.
  destruct Hinv as [Hfl Hbd' Hpend _ _ _ _ _].
  destruct (settle_spec (Anim.promises (Anim.scan d s0)) (Anim.st (Anim.scan d s0)) Hbd')
    as (Hc & _ & _ & _ & Hpo); [|done|].
  { intros m Hm. destruct Hfl as (_ & Hfl & _).
    destruct (Hfl m Hm) as [? _], (Hpend m Hm) as (? & _). done. }
  split; [done|]. split; [|done].
  assert (∀ ms s, length (Anim.heap (foldl Anim.applyMerge s ms)) = length (Anim.heap s))
    as Hsettle.
  { induction ms as [|m ms IH]; intros s; [done|]. simpl. rewrite IH. simpl.
    unfold Anim.setValue. by rewrite length_alter. }
  assert (∀ l s, length (Anim.heap (Anim.st (foldl (Anim.processCell d) s l)))
                 = length (Anim.heap (Anim.st s))) as Hscan.
  { induction l as [|p l IH]; intros s; [done|]. simpl. rewrite IH.
    destruct (processCell_outcome d s p)
      as [->|(tile & q & _ & _ & _ & _ & [[_ ->]|(t & _ & _ & _ & ->)])];
      [done|simpl; unfold Anim.setPosition; by rewrite length_alter..]. }
  unfold Anim.settle. rewrite Hsettle. unfold Anim.scan. by rewrite Hscan.
Qed.

(** * The page of the full-redraw version *)

Lemma offset_inj r r' : offset r = offset r' → r = r'.
Proof.
  unfold offset, CELL_SIZE, GAP. intros H. apply (f_equal Qnum) in H.
  cbn in H. lia.
Qed.

Lemma tileAt_inj r c v r' c' v' :
  RedrawPage.tileAt r c v = RedrawPage.tileAt r' c' v' → r = r' ∧ c = c' ∧ v = v'.
Proof.
  intros H.
  pose proof (f_equal RedrawPage.top H) as Hr.
  pose proof (f_equal RedrawPage.left H) as Hc.
  pose proof (f_equal RedrawPage.text H) as Hv.
  simpl in Hr, Hc, Hv. apply offset_inj in Hr, Hc. repeat split; (lia || done).
Qed.

Lemma indices_NoDup : NoDup indices.
Proof. apply NoDup_seq. Qed.

Lemma indices_elem i : i ∈ indices ↔ (i < SIZE)%nat.
Proof. unfold indices. rewrite elem_of_seq. lia. Qed.

Lemma bind_ext_elem {A B} (l : list A) (f f' : A → list B) :
  (∀ y, y ∈ l → f' y = f y) → l ≫= f' = l ≫= f.
Proof.
  induction l as [|a l IH]; intros H; [done|].
  rewrite !bind_cons, H by (by left). f_equal. apply IH. intros y Hy. apply H. by right.
Qed.

Lemma bind_update {A B} (l : list A) (f f' : A → list B) x (e : B) :
  NoDup l → x ∈ l → f' x ≡ₚ e :: f x →
  (∀ y, y ∈ l → y ≠ x → f' y = f y) →
  l ≫= f' ≡ₚ e :: (l ≫= f).
Proof.
  intros Hnd Hx Hfx. revert Hx.
  induction Hnd as [|a l Ha Hnd IH]; intros Hx Hother; [by apply elem_of_nil in Hx|].
  rewrite !bind_cons. apply elem_of_cons in Hx as [->|Hx].
  - rewrite Hfx. simpl. apply perm_skip. f_equiv. apply Permutation_refl'.
    apply bind_ext_elem. intros y Hy. apply Hother; [by right|].
    intros ->. by apply Ha.
  - rewrite IH; [|done|intros y Hy Hne; apply Hother; [by right|done]].
    rewrite Hother; [solve_Permutation|by left|]. intros ->. by apply Ha.
Qed.

Lemma drawn_elem g e :
  e ∈ RedrawPage.drawn g ↔
  ∃ r c, (r < SIZE)%nat ∧ (c < SIZE)%nat ∧ Redraw.at2 g r c ≠ 0
         ∧ e = RedrawPage.tileAt r c (Redraw.at2 g r c).
Proof.
  unfold RedrawPage.drawn. rewrite list_elem_of_bind. split.
  - intros (r & Hel & Hr). apply list_elem_of_bind in Hel as (c & Hel & Hc).
    apply indices_elem in Hr, Hc.
    destruct (Z.eqb_spec (Redraw.at2 g r c) 0); [by apply elem_of_nil in Hel|].
    apply list_elem_of_singleton in Hel. by exists r, c.
  - intros (r & c & Hr & Hc & Hne & ->). exists r. split; [|by apply indices_elem].
    apply list_elem_of_bind. exists c. split; [|by apply indices_elem].
    destruct (Z.eqb_spec (Redraw.at2 g r c) 0); [done|]. by left.
Qed.

Lemma drawn_NoDup g : NoDup (RedrawPage.drawn g).
Proof.
  unfold RedrawPage.drawn. apply NoDup_bind; [| |apply indices_NoDup].
  - intros r r' e _ _ He He'.
    apply list_elem_of_bind in He as (c & He & _).
    apply list_elem_of_bind in He' as (c' & He' & _).
    destruct (Redraw.at2 g r c =? 0); [by apply elem_of_nil in He|].
    destruct (Redraw.at2 g r' c' =? 0); [by apply elem_of_nil in He'|].
    apply list_elem_of_singleton in He, He'. subst e.
    by apply tileAt_inj in He' as (? & _).
  - intros r _. apply NoDup_bind; [| |apply indices_NoDup].
    + intros c c' e _ _ He He'.
      destruct (Redraw.at2 g r c =? 0); [by apply elem_of_nil in He|].
      destruct (Redraw.at2 g r c' =? 0); [by apply elem_of_nil in He'|].
      apply list_elem_of_singleton in He, He'. subst e.
      by apply tileAt_inj in He' as (_ & ? & _).
    + intros c _. destruct (Redraw.at2 g r c =? 0); [constructor|apply NoDup_singleton].
Qed.

(** The drawing of a grid with one more tile. *)
Lemma drawn_set2 g r c v :
  wf g → (r < SIZE)%nat → (c < SIZE)%nat → Redraw.at2 g r c = 0 → v ≠ 0 →
  RedrawPage.drawn (Redraw.set2 g r c v) ≡ₚ RedrawPage.tileAt r c v :: RedrawPage.drawn g.
Proof.
  intros Hwf Hr Hc H0 Hv. unfold RedrawPage.drawn.
  apply (bind_update indices _ _ r); [apply indices_NoDup|by apply indices_elem| |].
  - apply (bind_update indices _ _ c); [apply indices_NoDup|by apply indices_elem| |].
    + rewrite at2_set2_eq, H0 by done. simpl.
      destruct (Z.eqb_spec v 0); [done|]. done.
    + intros c' _ Hne. rewrite at2_set2_ne; [done|]. congruence.
  - intros r' _ Hne. apply bind_indices_ext. intros c' _.
    rewrite at2_set2_ne; [done|]. congruence.
Qed.

Lemma gridCells_elem r c :
  (r < SIZE)%nat → (c < SIZE)%nat →
  (offset (Z.of_nat r), offset (Z.of_nat c)) ∈ gridCells.
Proof.
  intros Hr Hc. unfold gridCells. apply list_elem_of_bind. exists r.
  split; [|by apply indices_elem]. apply list_elem_of_bind. exists c.
  split; [by left|by apply indices_elem].
Qed.

(** The page carries the game of [Redraw]. *)
Lemma redrawPage_spawnTile_game k lt09 p :
  RedrawPage.game (RedrawPage.spawnTile k lt09 p)
  = Redraw.spawnTile k lt09 (RedrawPage.game p).
Proof.
  unfold RedrawPage.spawnTile, Redraw.spawnTile.
  by destruct (_ !! _) as [[r c]|].
Qed.

Lemma redrawPage_move_game d k lt09 p :
  RedrawPage.game (RedrawPage.move d k lt09 p) = Redraw.move d k lt09 (RedrawPage.game p).
Proof.
  unfold RedrawPage.move, Redraw.move.
  destruct (Redraw.hasMoved _); [|done]. by rewrite redrawPage_spawnTile_game.
Qed.

Lemma redrawPage_restartGame_game k1 b1 k2 b2 p :
  RedrawPage.game (RedrawPage.restartGame k1 b1 k2 b2 p) = Redraw.restartGame k1 b1 k2 b2.
Proof.
  unfold RedrawPage.restartGame, Redraw.restartGame.
  by rewrite !redrawPage_spawnTile_game.
Qed.

Lemma redrawPage_keydown_game key k lt09 p :
  RedrawPage.game (RedrawPage.keydown key k lt09 p)
  = Redraw.keydown key k lt09 (RedrawPage.game p).
Proof.
  unfold RedrawPage.keydown, Redraw.keydown.
  destruct (isArrowKey key); [apply redrawPage_move_game|done].
Qed.

Lemma redrawPage_reachable_game p :
  RedrawPage.reachable p → redrawReachable (RedrawPage.game p).
Proof.
  induction 1 as [k1 b1 k2 b2 p|k1 b1 k2 b2 p _ _|key k lt09 p _ IH].
  - rewrite redrawPage_restartGame_game. constructor.
  - rewrite redrawPage_restartGame_game. constructor.
  - rewrite redrawPage_keydown_game.
    by apply (redraw_press (mkPress key k lt09)).
Qed.

(** What the page shows: the board is the drawing of the grid, the score
    display holds the score. *)
Lemma redrawPage_spawnTile_ok k lt09 p :
  wf (Redraw.grid (RedrawPage.game p)) →
  RedrawPage.board p ≡ₚ RedrawPage.drawn (Redraw.grid (RedrawPage.game p)) →
  let p' := RedrawPage.spawnTile k lt09 p in
  RedrawPage.board p' ≡ₚ RedrawPage.drawn (Redraw.grid (RedrawPage.game p'))
  ∧ RedrawPage.scoreDisplay p' = RedrawPage.scoreDisplay p
  ∧ RedrawPage.background p' = RedrawPage.background p
  ∧ Redraw.score (RedrawPage.game p') = Redraw.score (RedrawPage.game p).
Proof.
  intros Hwf Hb. unfold RedrawPage.spawnTile.
  destruct (_ !! _) as [[r c]|] eqn:Hrc; [|done]. simpl.
  apply list_elem_of_lookup_2, redraw_emptyCells_elem in Hrc as (Hr & Hc & H0).
  split; [|done].
  rewrite drawn_set2 by (done || by destruct lt09). rewrite Hb. solve_Permutation.
Qed.

Lemma redrawPage_restartGame_ok k1 b1 k2 b2 p :
  let p' := RedrawPage.restartGame k1 b1 k2 b2 p in
  RedrawPage.board p' ≡ₚ RedrawPage.drawn (Redraw.grid (RedrawPage.game p'))
  ∧ RedrawPage.scoreDisplay p' = Redraw.score (RedrawPage.game p')
  ∧ RedrawPage.background p' = RedrawPage.background p.
Proof.
  unfold RedrawPage.restartGame.
  set (p0 := {| RedrawPage.game := _; RedrawPage.background := _ |}).
  destruct (redrawPage_spawnTile_ok k1 b1 p0) as (Hb1 & Hd1 & Hg1 & Hs1);
    [apply wf_replicate|done|].
  destruct (redrawPage_spawnTile_ok k2 b2 (RedrawPage.spawnTile k1 b1 p0))
    as (Hb2 & Hd2 & Hg2 & Hs2); [|done|].
  { rewrite redrawPage_spawnTile_game.
    by destruct (redraw_spawnTile_effect k1 b1 (RedrawPage.game p0) (wf_replicate 0))
      as (_ & ? & _). }
  split; [done|]. split; [by rewrite Hd2, Hd1, Hs2, Hs1|by rewrite Hg2, Hg1].
Qed.

Lemma redrawPage_move_ok d k lt09 p :
  wf (Redraw.grid (RedrawPage.game p)) →
  RedrawPage.board p ≡ₚ RedrawPage.drawn (Redraw.grid (RedrawPage.game p)) →
  RedrawPage.scoreDisplay p = Redraw.score (RedrawPage.game p) →
  let p' := RedrawPage.move d k lt09 p in
  RedrawPage.board p' ≡ₚ RedrawPage.drawn (Redraw.grid (RedrawPage.game p'))
  ∧ RedrawPage.scoreDisplay p' = Redraw.score (RedrawPage.game p')
  ∧ RedrawPage.background p' = RedrawPage.background p.
Proof.
  intros Hwf Hb Hd. unfold RedrawPage.move.
  destruct (RedrawPage.game p) as [g s] eqn:Hgame. simpl in *.
  destruct (Redraw.hasMoved _) eqn:Hm.
  - set (p1 := RedrawPage.updateVisuals _).
    destruct (redrawPage_spawnTile_ok k lt09 p1) as (Hb1 & Hd1 & Hg1 & Hs1); [|done|].
    { simpl. destruct (validDirection_dec d) as [Hv|Hv].
      - apply validDirection_key in Hv as [dir ->].
        destruct (resolve_lines dir g s Hwf) as [-> _]. by apply lines_slide_wf.
      - by rewrite resolve_invalid. }
    split; [done|]. split; [by rewrite Hd1, Hs1|by rewrite Hg1].
  - simpl. split; [done|]. split; [|done]. rewrite Hd.
    destruct (validDirection_dec d) as [Hv|Hv].
    + apply validDirection_key in Hv as [dir ->].
      destruct (resolve_moved dir g s Hwf) as [Hsame _]. symmetry. by apply Hsame.
    + by rewrite resolve_invalid.
Qed.

Lemma redrawPage_reachable_ok p :
  RedrawPage.reachable p →
  RedrawPage.board p ≡ₚ RedrawPage.drawn (Redraw.grid (RedrawPage.game p))
  ∧ RedrawPage.scoreDisplay p = Redraw.score (RedrawPage.game p)
  ∧ RedrawPage.background p = gridCells.
Proof.
  induction 1 as [k1 b1 k2 b2 p|k1 b1 k2 b2 p Hp IH|key k lt09 p Hp IH].
  - destruct (redrawPage_restartGame_ok k1 b1 k2 b2 (RedrawPage.setupBoard p))
      as (? & ? & ->). done.
  - destruct (redrawPage_restartGame_ok k1 b1 k2 b2 p) as (? & ? & ->).
    by destruct IH as (_ & _ & ?).
  - destruct IH as (Hb & Hd & Hg). unfold RedrawPage.keydown.
    destruct (isArrowKey key); [|done].
    destruct (redrawPage_move_ok key k lt09 p) as (? & ? & ->); try done.
    apply redrawPage_reachable_game in Hp. by apply redrawReachable_inv in Hp as (? & _).
Qed.

(** * The page of the animated version *)

Lemma remove_elem t dom x : x ∈ AnimPage.remove t dom ↔ x ∈ dom ∧ x ≠ t.
Proof.
  unfold AnimPage.remove. rewrite !list_elem_of_In, filter_In.
  destruct (Nat.eqb_spec x t); simpl; split; intros [? ?]; done.
Qed.

Lemma remove_NoDup t dom : NoDup dom → NoDup (AnimPage.remove t dom).
Proof.
  intros H. apply NoDup_ListNoDup, List.NoDup_filter. by apply NoDup_ListNoDup.
Qed.

Lemma foldl_remove {A} (f : A → nat) (l : list A) dom :
  NoDup dom →
  NoDup (foldl (fun dom a => AnimPage.remove (f a) dom) dom l)
  ∧ ∀ x, x ∈ foldl (fun dom a => AnimPage.remove (f a) dom) dom l
         ↔ x ∈ dom ∧ x ∉ map f l.
Proof.
  revert dom. induction l as [|a l IH]; intros dom Hnd; simpl.
  - split; [done|]. intros x. rewrite elem_of_nil. tauto.
  - destruct (IH (AnimPage.remove (f a) dom) (remove_NoDup _ _ Hnd)) as [H1 H2].
    split; [done|]. intros x. rewrite H2, remove_elem, elem_of_cons. tauto.
Qed.

(** Removing what has left the board from what was on it. *)
Lemma removed_Permutation {A} (f : A → nat) (l : list A) dom rest :
  NoDup dom → dom ≡ₚ rest ++ map f l →
  foldl (fun dom a => AnimPage.remove (f a) dom) dom l ≡ₚ rest.
Proof.
  intros Hnd Hperm. destruct (foldl_remove f l dom Hnd) as [H1 H2].
  assert (NoDup (rest ++ map f l)) as Hnd' by by rewrite <- Hperm.
  apply NoDup_app in Hnd' as (Hr & Hdisj & _).
  apply NoDup_Permutation; [done|done|].
  intros x. rewrite H2, Hperm, elem_of_app. split.
  - intros [[?|?] ?]; done.
  - intros Hx. split; [by left|]. by apply Hdisj.
Qed.

Lemma animPage_spawnTile_game k lt09 p :
  AnimPage.game (AnimPage.spawnTile k lt09 p) = Anim.spawnTile k lt09 (AnimPage.game p).
Proof.
  unfold AnimPage.spawnTile, Anim.spawnTile.
  by destruct (_ !! _) as [[r c]|].
Qed.

(** A call of [move] that nothing interrupts: its two halves give the
    globals that [Anim.move] gives. *)
Lemma animPage_finish_game d k lt09 p :
  Anim.isProcessing (AnimPage.game p) = false →
  let s := Anim.scan d (Anim.setProcessing true (AnimPage.game p)) in
  Anim.hasMoved s = true →
  AnimPage.game (AnimPage.finish (Anim.promises s) k lt09 (AnimPage.setGame (Anim.st s) p))
  = Anim.move d k lt09 (AnimPage.game p).
Proof.
  intros Hp s Hm. unfold AnimPage.finish, Anim.move. rewrite Hp. fold s. rewrite Hm.
  cbn [AnimPage.game AnimPage.setGame]. by rewrite animPage_spawnTile_game.
Qed.

Lemma animPage_still d p :
  Anim.isProcessing (AnimPage.game p) = false →
  let s := Anim.scan d (Anim.setProcessing true (AnimPage.game p)) in
  Anim.hasMoved s = false →
  AnimPage.setGame (Anim.setProcessing false (Anim.st s)) p = p.
Proof.
  intros Hp s Hm. pose proof (move_unchanged d 0%nat true _ Hm) as Heq.
  unfold Anim.move in Heq. rewrite Hp in Heq. fold s in Heq. rewrite Hm in Heq.
  rewrite Heq. by destruct p.
Qed.

(** The invariant of the page: the elements attached to the board are the
    tiles of the board, and the score display is up to date once the script
    has written it. *)
Lemma animPage_spawnTile_ok k lt09 p :
  boardOk (Anim.cells (AnimPage.game p)) (Anim.heap (AnimPage.game p)) →
  AnimPage.attached p ≡ₚ tileRefs (Anim.cells (AnimPage.game p)) →
  let p' := AnimPage.spawnTile k lt09 p in
  boardOk (Anim.cells (AnimPage.game p')) (Anim.heap (AnimPage.game p'))
  ∧ AnimPage.attached p' ≡ₚ tileRefs (Anim.cells (AnimPage.game p'))
  ∧ AnimPage.background p' = AnimPage.background p
  ∧ AnimPage.scoreDisplay p' = AnimPage.scoreDisplay p
  ∧ Anim.score (AnimPage.game p') = Anim.score (AnimPage.game p)
  ∧ Anim.isProcessing (AnimPage.game p') = Anim.isProcessing (AnimPage.game p).
Proof.
  intros Hbd Hatt p'.
  destruct (spawnTile_boardOk k lt09 _ Hbd) as (Hbd' & Hsc & Hpr).
  rewrite <- animPage_spawnTile_game in Hbd', Hsc, Hpr. fold p' in Hbd', Hsc, Hpr.
  assert (AnimPage.attached p' ≡ₚ tileRefs (Anim.cells (AnimPage.game p'))
          ∧ AnimPage.background p' = AnimPage.background p
          ∧ AnimPage.scoreDisplay p' = AnimPage.scoreDisplay p) as (? & ? & ?); [|done].
  unfold p'. clear p' Hbd' Hsc Hpr. unfold AnimPage.spawnTile.
  destruct (Anim.emptyCells _ !! _) as [[r c]|] eqn:Hrc; [|done]. simpl.
  split; [|done].
  unfold Anim.spawnTile. rewrite Hrc. simpl.
  apply list_elem_of_lookup_2, emptyCells_elem in Hrc as (Hr & Hc & Hnone).
  rewrite tileRefs_insert; [|apply Hbd|by apply inside_nat|done].
  rewrite Hatt. solve_Permutation.
Qed.

Lemma animPage_finish_ok d k lt09 p :
  Inv (AnimPage.game p) →
  AnimPage.attached p ≡ₚ tileRefs (Anim.cells (AnimPage.game p)) →
  let s := Anim.scan d (Anim.setProcessing true (AnimPage.game p)) in
  Anim.hasMoved s = true →
  let p' := AnimPage.finish (Anim.promises s) k lt09 (AnimPage.setGame (Anim.st s) p) in
  Inv (AnimPage.game p')
  ∧ AnimPage.attached p' ≡ₚ tileRefs (Anim.cells (AnimPage.game p'))
  ∧ AnimPage.background p' = AnimPage.background p
  ∧ AnimPage.scoreDisplay p' = Some (Anim.score (AnimPage.game p')).
Proof.
  intros Hinv Hatt s Hm p'.
  split; [unfold p', s; rewrite animPage_finish_game by (done || apply Hinv); by apply move_Inv|].
  destruct Hinv as (Hbd & Hsc & Hproc).
  unfold p', s in *. clear p' s. unfold AnimPage.finish.
  set (s1 := Anim.setProcessing true (AnimPage.game p)) in *.
  assert (boardOk (Anim.cells s1) (Anim.heap s1)) as Hbd1 by by apply boardOk_setProcessing.
  cbn [AnimPage.game AnimPage.attached AnimPage.background AnimPage.scoreDisplay
       AnimPage.setGame].
  change (foldl Anim.applyMerge (Anim.st (Anim.scan d s1)) (Anim.promises (Anim.scan d s1)))
    with (Anim.settle (Anim.scan d s1)).
  set (p1 := {| AnimPage.game := Anim.settle (Anim.scan d s1);
                AnimPage.background := _ |}).
  destruct (settle_scan d s1 Hbd1) as (Hbd2 & Hp2 & Hs2 & _ & _ & _ & Hvs).
  destruct (settle_cells d s1 Hbd1) as (Hc2 & _).
  destruct (animPage_spawnTile_ok k lt09 p1) as (_ & Ha & Hb & Hd & Hs & _).
  - done.
  - simpl. rewrite Hc2. apply removed_Permutation.
    + rewrite Hatt. apply Hbd.
    + rewrite Hatt. symmetry. apply (scan_refs d s1 Hbd1).
  - simpl. split; [done|]. split; [done|]. by rewrite Hd, Hs.
Qed.

Lemma boardOk_empty h : boardOk (replicate SIZE (replicate SIZE None)) h.
Proof.
  split; [apply wf_replicate|]. split; [constructor|].
  intros p t [Hr Hc] Hcell. exfalso. unfold SIZE in *.
  destruct p as [r c]. simpl in *. unfold Anim.cellAt in Hcell. simpl in Hcell.
  assert (∃ i j, (i < 4)%nat ∧ (j < 4)%nat ∧ Z.to_nat r = i ∧ Z.to_nat c = j)
    as (i & j & Hi & Hj & Hri & Hcj) by (eexists _, _; repeat split; lia).
  rewrite Hri, Hcj in Hcell.
  destruct i as [|[|[|[|]]]], j as [|[|[|[|]]]]; try lia; done.
Qed.

Lemma animPage_restartGame_ok k1 b1 k2 b2 p :
  AnimPage.attached p ≡ₚ tileRefs (Anim.cells (AnimPage.game p)) →
  NoDup (AnimPage.attached p) →
  let p' := AnimPage.restartGame k1 b1 k2 b2 p in
  Inv (AnimPage.game p')
  ∧ AnimPage.attached p' ≡ₚ tileRefs (Anim.cells (AnimPage.game p'))
  ∧ AnimPage.background p' = AnimPage.background p
  ∧ AnimPage.scoreDisplay p' = Some (Anim.score (AnimPage.game p')).
Proof.
  intros Hatt Hnd. unfold AnimPage.restartGame.
  set (p0 := {| AnimPage.game := _; AnimPage.background := _ |}).
  assert (AnimPage.attached p0 = []) as Hnil.
  { simpl.
    pose proof (removed_Permutation id (tileRefs (Anim.cells (AnimPage.game p)))
                  (AnimPage.attached p) [] Hnd) as H.
    rewrite map_id in H. apply Permutation_nil_r. by apply H. }
  destruct (animPage_spawnTile_ok k1 b1 p0) as (Hi1 & Ha1 & Hb1 & Hd1 & Hs1 & Hp1).
  { apply boardOk_empty. }
  { by rewrite Hnil. }
  destruct (animPage_spawnTile_ok k2 b2 (AnimPage.spawnTile k1 b1 p0) Hi1 Ha1)
    as (Hi2 & Ha2 & Hb2 & Hd2 & Hs2 & Hp2).
  split; [split; [done|split; [by rewrite Hs2, Hs1|by rewrite Hp2, Hp1]]|].
  split; [done|]. split; [by rewrite Hb2, Hb1|].
  by rewrite Hd2, Hd1, Hs2, Hs1.
Qed.

Lemma animPage_setupBoard_ok k1 b1 k2 b2 :
  let p' := AnimPage.setupBoard k1 b1 k2 b2 in
  Inv (AnimPage.game p')
  ∧ AnimPage.attached p' ≡ₚ tileRefs (Anim.cells (AnimPage.game p'))
  ∧ AnimPage.background p' = gridCells
  ∧ AnimPage.scoreDisplay p' = None ∧ Anim.score (AnimPage.game p') = 0.
Proof.
  unfold AnimPage.setupBoard.
  set (p0 := {| AnimPage.game := _; AnimPage.background := _ |}).
  destruct (animPage_spawnTile_ok k1 b1 p0) as (Hi1 & Ha1 & Hb1 & Hd1 & Hs1 & Hp1);
    [apply emptyBoard_Inv|done|].
  destruct (animPage_spawnTile_ok k2 b2 (AnimPage.spawnTile k1 b1 p0) Hi1 Ha1)
    as (Hi2 & Ha2 & Hb2 & Hd2 & Hs2 & Hp2).
  split; [split; [done|split; [by rewrite Hs2, Hs1|by rewrite Hp2, Hp1]]|].
  split; [done|]. split; [by rewrite Hb2, Hb1|].
  split; [by rewrite Hd2, Hd1|by rewrite Hs2, Hs1].
Qed.

(** * Key presses during the animation *)

Lemma processCell_isProcessing d s p :
  Anim.isProcessing (Anim.st (Anim.processCell d s p)) = Anim.isProcessing (Anim.st s).
Proof.
  destruct (processCell_outcome d s p)
    as [->|(tile & q & _ & _ & _ & _ & [[_ ->]|(t & _ & _ & _ & ->)])]; done.
Qed.

Lemma scan_isProcessing d s0 :
  Anim.isProcessing (Anim.st (Anim.scan d s0)) = Anim.isProcessing s0.
Proof.
  unfold Anim.scan.
  assert (∀ l s, Anim.isProcessing (Anim.st (foldl (Anim.processCell d) s l))
                 = Anim.isProcessing (Anim.st s)) as H.
  { induction l as [|p l IH]; intros s; [done|]. simpl.
    by rewrite IH, processCell_isProcessing. }
  by rewrite H.
Qed.

Lemma async_presses_suspended keys p :
  Anim.isProcessing (AnimAsync.game p) = true → AnimAsync.presses keys p = p.
Proof.
  intros Hp. induction keys as [|key keys IH]; [done|]. simpl.
  unfold AnimAsync.keydown, AnimAsync.start. rewrite Hp.
  by destruct (isArrowKey key).
Qed.

(** A key pressed between two moves, followed by the timer of its move: a
    whole [move]. *)
Lemma async_press_timer key k lt09 g :
  Anim.isProcessing g = false →
  AnimAsync.run [AnimAsync.Key key; AnimAsync.Timer k lt09] (AnimAsync.mkState g [])
  = AnimAsync.mkState (Anim.keydown key k lt09 g) [].
Proof.
  intros Hp. unfold AnimAsync.run. simpl. unfold AnimAsync.keydown, Anim.keydown.
  destruct (isArrowKey key); [|done].
  unfold AnimAsync.start, Anim.move. simpl. rewrite Hp.
  by destruct (Anim.hasMoved _).
Qed.

(** A game played without the right arrow, every key pressed after the move
    of the one before has ended. *)
Lemma unhurried_values ps s st :
  Inv s → Anim.values s = Redraw.grid st → Anim.score s = Redraw.score st →
  Forall (fun p => pressed p ≠ "ArrowRight") ps →
  let a := AnimAsync.run (AnimAsync.unhurried ps) (AnimAsync.mkState s []) in
  AnimAsync.suspended a = []
  ∧ Anim.values (AnimAsync.game a) = Redraw.grid (redrawPlay st ps)
  ∧ Anim.score (AnimAsync.game a) = Redraw.score (redrawPlay st ps)
  ∧ Inv (AnimAsync.game a).
Proof.
  intros Hinv Hg Hsc Hps. revert s st Hinv Hg Hsc.
  induction Hps as [|p ps Hp _ IH]; intros s st Hinv Hg Hsc; [done|].
  change (AnimAsync.unhurried (p :: ps))
    with ([AnimAsync.Key (pressed p); AnimAsync.Timer (drawCell p) (drawLt09 p)]
          ++ AnimAsync.unhurried ps).
  unfold AnimAsync.run. rewrite foldl_app.
  change (foldl _ (AnimAsync.mkState s []) [_; _])
    with (AnimAsync.run [AnimAsync.Key (pressed p); AnimAsync.Timer (drawCell p) (drawLt09 p)]
            (AnimAsync.mkState s [])).
  rewrite async_press_timer by apply Hinv.
  destruct (keydown_values p s st Hinv Hg Hsc Hp) as (Hg' & Hs' & Hinv').
  apply (IH _ _ Hinv' Hg' Hs').
Qed.

(** * The page on the event loop *)

Lemma loopOk_load k1 b1 k2 b2 : loopOk (AnimLoop.load k1 b1 k2 b2).
Proof.
  destruct (animPage_setupBoard_ok k1 b1 k2 b2) as (? & ? & ? & ? & ?).
  split; [done|]. split; [done|]. split; [done|]. by right.
Qed.

Lemma loopOk_step e p :
  match e with AnimLoop.Restart _ _ _ _ => AnimLoop.idle p = true | _ => True end →
  loopOk p → loopOk (AnimLoop.step e p).
Proof.
  intros He Hok. destruct p as [pg susp]. unfold loopOk in Hok. simpl in Hok.
  destruct susp as [|ms [|ms' susp]]; [| |done].
  - (* no call is suspended *)
    destruct Hok as (Hinv & Hatt & Hbg & Hdisp).
    destruct e as [key|k lt09|k1 b1 k2 b2]; simpl.
    + unfold AnimLoop.keydown. destruct (isArrowKey key); [|done].
      unfold AnimLoop.start. simpl. rewrite (proj2 (proj2 Hinv)).
      destruct (Anim.hasMoved _) eqn:Hm.
      * unfold loopOk. simpl. by exists pg, key.
      * rewrite animPage_still by (done || apply Hinv). done.
    + done.
    + unfold AnimLoop.restartGame, loopOk. simpl.
      destruct (animPage_restartGame_ok k1 b1 k2 b2 pg Hatt) as (? & ? & Hb & ?).
      { rewrite Hatt. apply Hinv. }
      split; [done|]. split; [done|]. split; [by rewrite Hb|]. by left.
  - (* one call is suspended *)
    destruct Hok as (p0 & d & (Hinv & Hatt & Hbg & Hdisp) & Hm & -> & ->).
    destruct e as [key|k lt09|k1 b1 k2 b2]; simpl.
    + unfold AnimLoop.keydown. destruct (isArrowKey key).
      * unfold AnimLoop.start. simpl. rewrite scan_isProcessing. simpl.
        unfold loopOk. simpl. by exists p0, d.
      * unfold loopOk. simpl. by exists p0, d.
    + unfold AnimLoop.resume, loopOk. simpl.
      destruct (animPage_finish_ok d k lt09 p0 Hinv Hatt Hm) as (? & ? & Hb & ?).
      split; [done|]. split; [done|]. split; [by rewrite Hb|]. by left.
    + done.
Qed.

Lemma loopOk_run es p :
  AnimLoop.restartsWhenIdle es p = true → loopOk p → loopOk (AnimLoop.run es p).
Proof.
  revert p. induction es as [|e es IH]; intros p Hes Hok; [done|].
  simpl in Hes. apply andb_true_iff in Hes as [He Hes].
  simpl. apply IH; [done|]. apply loopOk_step; [|done]. by destruct e.
Qed.

(** * The start of a game in the animated version *)

(** The numbers on the tiles are the numbers of the grid that are not
    [0]. *)
Lemma valuesOn_values s :
  boardOk (Anim.cells s) (Anim.heap s) →
  Redraw.nonzero (concat (Anim.values s)) = valuesOn (Anim.cells s) (Anim.heap s).
Proof.
  intros Hbd.
  assert (∀ t, t ∈ tileRefs (Anim.cells s) → Anim.valueOf (Anim.heap s) t ≠ 0) as Hnz.
  { intros t Ht. destruct (tileRefs_cellAt _ t (proj1 Hbd) Ht) as (p & Hp & Hc).
    by apply (boardOk_tilesNonzero _ _ Hbd p t). }
  unfold valuesOn, tileRefs, Anim.values in *.
  set (f := fun cell : option nat => match cell with
                                     | Some t => Anim.valueOf (Anim.heap s) t
                                     | None => 0
                                     end).
  assert (concat (map (map f) (Anim.cells s)) = map f (concat (Anim.cells s))) as ->.
  { symmetry. apply concat_map. }
  revert Hnz. generalize (concat (Anim.cells s)). intros l Hnz.
  induction l as [|[t|] l IH]; [done| |].
  - simpl. rewrite omap_id_cons in Hnz. simpl in Hnz.
    destruct (Z.eqb_spec (Anim.valueOf (Anim.heap s) t) 0) as [H0|_].
    { exfalso. apply (Hnz t); [by left|done]. }
    simpl. f_equal. apply IH. intros t' Ht'. apply Hnz. by right.
  - simpl. apply IH. intros t' Ht'. by apply Hnz.
Qed.

Lemma redraw_restartGame_not_over k1 b1 k2 b2 :
  Redraw.isGameOver (Redraw.grid (Redraw.restartGame k1 b1 k2 b2)) = false.
Proof.
  destruct (redraw_restartGame_tiles k1 b1 k2 b2) as (_ & Hwf & Hperm).
  apply not_true_iff_false. intros Hover. rewrite redraw_isGameOver_true in Hover.
  assert (tileCount (Redraw.grid (Redraw.restartGame k1 b1 k2 b2)) = (SIZE * SIZE)%nat)
    as Hfull.
  { apply full_tileCount; [done|]. intros r c Hr Hc.
    by apply (redraw_blocks_false _ r c), Hover. }
  unfold tileCount in Hfull. apply Permutation_length in Hperm.
  rewrite Hfull in Hperm. simpl in Hperm. unfold SIZE in Hperm. lia.
Qed.

Lemma anim_restartGame_tiles k1 b1 k2 b2 :
  let s := Anim.restartGame k1 b1 k2 b2 in
  valuesOn (Anim.cells s) (Anim.heap s) ≡ₚ [if b2 then 2 else 4; if b1 then 2 else 4]
  ∧ Anim.checkGameOver s = false.
Proof.
  intros s. destruct (restartGame_values k1 b1 k2 b2) as (Hg & _ & Hinv).
  fold s in Hg, Hinv. destruct Hinv as (Hbd & _).
  destruct (redraw_restartGame_tiles k1 b1 k2 b2) as (_ & _ & Hperm).
  split.
  - by rewrite <- valuesOn_values, Hg.
  - rewrite checkGameOver_values; [|apply Hbd|by apply boardOk_tilesNonzero].
    rewrite Hg. apply redraw_restartGame_not_over.
Qed.

(** * Further properties of the two scripts *)

(** X1 ([slide] of the full-redraw version, on a row of any length).  The
    row that [slide] returns has the sum of the row it was given; its zeros
    all come last; it holds no more tiles than the row it was given; it has
    [SIZE] entries, or as many as it holds tiles if these are more.  On a
    row without negative numbers the score does not decrease and the new
    row has no negative number.  The empty row gives a row of [SIZE]
    zeros. *)
Theorem X1_slide_any_row (row : list Z) (score : Z) :
  let r := Redraw.slide row score in
  sumZ r.1 = sumZ row
  ∧ (∀ i j x, (i < j)%nat → r.1 !! i = Some 0 → r.1 !! j = Some x → x = 0)
  ∧ (length (Redraw.nonzero r.1) ≤ length (Redraw.nonzero row))%nat
  ∧ length r.1 = (SIZE `max` length (Redraw.nonzero r.1))%nat
  ∧ (Forall (fun v => 0 ≤ v) row → score ≤ r.2 ∧ Forall (fun v => 0 ≤ v) r.1)
  ∧ Redraw.slide [] score = (replicate SIZE 0, score).
Proof.
  intros r. destruct (slide_general row score) as (Hsum & _ & Hcount & Hlen & Hpos).
  fold r in Hsum, Hcount, Hlen, Hpos.
  split; [done|]. split; [|done].
  intros i j x. unfold r. rewrite slide_split. simpl. apply slideRow_packed.
Qed.

(** X2 (when [slide] merges).  If no two neighbours among the non-zero
    entries of a row are equal, [slide] only moves the entries to the front
    and leaves the score as it is.  If two neighbours among them are equal
    and the row has no negative number, the score grows. *)
Theorem X2_slide_merges_neighbours (row : list Z) (score : Z) :
  ((∀ i x, Redraw.nonzero row !! i = Some x → Redraw.nonzero row !! S i ≠ Some x) →
   Redraw.slide row score = (Redraw.pad (Redraw.nonzero row), score))
  ∧ (Forall (fun v => 0 ≤ v) row →
     (∃ i x, Redraw.nonzero row !! i = Some x ∧ Redraw.nonzero row !! S i = Some x) →
     score < (Redraw.slide row score).2).
Proof.
  split; [apply slide_compacts|].
  intros Hpos (i & x & Hi & Hsi). by apply (slide_scores row score i x).
Qed.

(** X3 ([spawnTile] of the full-redraw version, on a 4x4 grid).  The score
    is kept and the grid stays 4x4.  If no cell is empty the state is left
    as it is.  Otherwise exactly one cell changes: it was empty and now
    holds 2 (if the random number is below 0.9) or 4; every other cell
    keeps its number, so no tile is overwritten. *)
Theorem X3_redraw_spawnTile (k : nat) (lt09 : bool) (st : Redraw.State) :
  wf (Redraw.grid st) →
  let st' := Redraw.spawnTile k lt09 st in
  Redraw.score st' = Redraw.score st
  ∧ wf (Redraw.grid st')
  ∧ (((∀ r c, (r < SIZE)%nat → (c < SIZE)%nat → Redraw.at2 (Redraw.grid st) r c ≠ 0)
      ∧ st' = st)
     ∨ (∃ r c,
          (r < SIZE)%nat ∧ (c < SIZE)%nat
          ∧ Redraw.at2 (Redraw.grid st) r c = 0
          ∧ Redraw.at2 (Redraw.grid st') r c = (if lt09 then 2 else 4)
          ∧ (∀ r' c', (r', c') ≠ (r, c) →
                      Redraw.at2 (Redraw.grid st') r' c' = Redraw.at2 (Redraw.grid st) r' c')
          ∧ Redraw.nonzero (concat (Redraw.grid st'))
            ≡ₚ (if lt09 then 2 else 4) :: Redraw.nonzero (concat (Redraw.grid st)))).
Proof. apply redraw_spawnTile_effect. Qed.

Lemma X3_redraw_spawnTile_witness :
  let st := Redraw.mkState [[2; 0; 0; 0]; [0; 0; 0; 0]; [0; 0; 0; 0]; [0; 0; 0; 0]] 8 in
  Redraw.score (Redraw.spawnTile 5 false st) = 8
  ∧ wf (Redraw.grid (Redraw.spawnTile 5 false st)).
Proof.
  intros st.
  assert (wf (Redraw.grid st)) as Hwf
    by (split; [reflexivity|repeat (apply Forall_cons_2; [reflexivity|]); apply Forall_nil_2]).
  destruct (X3_redraw_spawnTile 5%nat false st Hwf) as (Hs & Hw & _).
  split; [exact Hs|exact Hw].
Defined.

(** X4 ([restartGame] of the full-redraw version).  Whatever the random
    numbers, the new game has score 0 and a 4x4 grid with exactly two
    tiles, each a 2 or a 4 as its random number decides, and the game is
    not over. *)
Theorem X4_redraw_restartGame (k1 : nat) (b1 : bool) (k2 : nat) (b2 : bool) :
  let st := Redraw.restartGame k1 b1 k2 b2 in
  Redraw.score st = 0
  ∧ wf (Redraw.grid st)
  ∧ Redraw.nonzero (concat (Redraw.grid st)) ≡ₚ [if b2 then 2 else 4; if b1 then 2 else 4]
  ∧ Redraw.isGameOver (Redraw.grid st) = false.
Proof.
  intros st. destruct (redraw_restartGame_tiles k1 b1 k2 b2) as (? & ? & ?).
  split; [done|]. split; [done|]. split; [done|]. apply redraw_restartGame_not_over.
Qed.

(** X5 (invariant of the full-redraw version).  In every state of a game,
    from [restartGame] on and after any key presses: the grid is 4x4, every
    cell is empty or holds a power of two that is 2 at least, the score is
    not negative and is a multiple of 4, and the grid holds two tiles at
    least. *)
Theorem X5_redraw_invariant (st : Redraw.State) :
  redrawReachable st →
  wf (Redraw.grid st)
  ∧ Forall (Forall cellOk) (Redraw.grid st)
  ∧ 0 ≤ Redraw.score st
  ∧ (4 | Redraw.score st)
  ∧ (2 ≤ tileCount (Redraw.grid st))%nat.
Proof. apply redrawReachable_inv. Qed.

Lemma X5_redraw_invariant_witness :
  let st := Redraw.keydown "ArrowLeft" 5 true (Redraw.restartGame 3 true 7 false) in
  wf (Redraw.grid st)
  ∧ Forall (Forall cellOk) (Redraw.grid st)
  ∧ 0 ≤ Redraw.score st
  ∧ (4 | Redraw.score st)
  ∧ (2 ≤ tileCount (Redraw.grid st))%nat.
Proof.
  exact (X5_redraw_invariant _
           (redraw_press (mkPress "ArrowLeft" 5 true) _ (redraw_restart 3 true 7 false))).
Defined.

(** X6 (game over and the moves that are left, full-redraw version, on a
    4x4 grid).  When [isGameOver] answers true, [move] leaves the state as
    it is, whatever the direction and the random numbers: the grid that the
    move computes is the old grid, nothing is added to the score and
    nothing is spawned.  When [isGameOver] answers false and the grid holds
    a tile, the grid that [move] computes for one of the four directions
    differs from the old grid. *)
Theorem X6_redraw_game_over (st : Redraw.State) :
  wf (Redraw.grid st) →
  (Redraw.isGameOver (Redraw.grid st) = true →
   ∀ d k lt09, Redraw.move d k lt09 st = st)
  ∧ (Redraw.isGameOver (Redraw.grid st) = false →
     (∃ r c, (r < SIZE)%nat ∧ (c < SIZE)%nat ∧ Redraw.at2 (Redraw.grid st) r c ≠ 0) →
     ∃ dir, Redraw.newGrid (Redraw.resolve (key dir) st) ≠ Redraw.grid st).
Proof.
  intros Hwf. split.
  - intros Hover d k lt09. by apply redraw_gameOver_move.
  - intros Hover Htile. destruct st as [g s]. by apply redraw_not_over_move.
Qed.

Lemma X6_redraw_game_over_witness :
  let st := Redraw.mkState [[2; 4; 2; 4]; [4; 2; 4; 2]; [2; 4; 2; 4]; [4; 2; 4; 2]] 20 in
  Redraw.isGameOver (Redraw.grid st) = true
  ∧ Redraw.move "ArrowRight" 0 true st = st.
Proof.
  intros st.
  assert (wf (Redraw.grid st)) as Hwf
    by (split; [reflexivity|repeat (apply Forall_cons_2; [reflexivity|]); apply Forall_nil_2]).
  destruct (X6_redraw_game_over st Hwf) as (Hstuck & _).
  split; [reflexivity|]. exact (Hstuck eq_refl "ArrowRight" 0%nat true).
Defined.

(** X7 (after a move the tiles are packed).  In the grid that a move
    computes, read along the lines of the move from the border that the
    tiles move to, no empty cell comes before a tile.  This holds of the
    full-redraw version on every 4x4 grid and of the animated version on
    every board that satisfies the board invariant. *)
Theorem X7_packed_after_move (dir : Dir) (g : list (list Z)) (score : Z) (s : Anim.State) :
  wf g → boardOk (Anim.cells s) (Anim.heap s) →
  (∀ line i j x,
     line ∈ lines dir (Redraw.newGrid (Redraw.resolve (key dir) (Redraw.mkState g score))) →
     (i < j)%nat → line !! i = Some 0 → line !! j = Some x → x = 0)
  ∧ (∀ line i j x,
       line ∈ lines dir (Anim.values (Anim.settle (Anim.scan (key dir) s))) →
       (i < j)%nat → line !! i = Some 0 → line !! j = Some x → x = 0).
Proof.
  intros Hwf Hbd. split; intros line i j x Hline.
  - destruct (resolve_lines dir g score Hwf) as [Hg _]. rewrite Hg in Hline.
    by apply (lines_slide_packed dir g).
  - rewrite settle_scan_lines in Hline by done.
    apply (lines_slide_packed dir (Anim.values s)); [|done]. apply values_wf, Hbd.
Qed.

Lemma X7_packed_after_move_witness :
  let g := [[0; 2; 0; 2]; [4; 0; 0; 4]; [0; 0; 0; 0]; [2; 4; 8; 0]] in
  let s := Anim.restartGame 3 true 7 false in
  (∀ line i j x,
     line ∈ lines Right (Redraw.newGrid (Redraw.resolve "ArrowRight" (Redraw.mkState g 0))) →
     (i < j)%nat → line !! i = Some 0 → line !! j = Some x → x = 0)
  ∧ (∀ line i j x,
       line ∈ lines Right (Anim.values (Anim.settle (Anim.scan "ArrowRight" s))) →
       (i < j)%nat → line !! i = Some 0 → line !! j = Some x → x = 0).
Proof.
  intros g s.
  assert (wf g) as Hwf
    by (split; [reflexivity|repeat (apply Forall_cons_2; [reflexivity|]); apply Forall_nil_2]).
  exact (X7_packed_after_move Right g 0 s Hwf
           (proj1 (reachable_Inv s (reach_spawn _ _ _ (reach_spawn _ _ _ reach_created))))).
Defined.

(** X8 ([spawnTile] of the animated version, on a board that satisfies the
    board invariant).  The invariant, the score and the processing flag are
    kept.  If no cell is empty the state is left as it is.  Otherwise a new
    [Tile] is added to the store, holding 2 or 4 and the coordinates of a
    cell that was empty; that cell now points to it; no other cell changes,
    and no tile of the board is the new one. *)
Theorem X8_anim_spawnTile (k : nat) (lt09 : bool) (s : Anim.State) :
  boardOk (Anim.cells s) (Anim.heap s) →
  let s' := Anim.spawnTile k lt09 s in
  boardOk (Anim.cells s') (Anim.heap s')
  ∧ Anim.score s' = Anim.score s
  ∧ Anim.isProcessing s' = Anim.isProcessing s
  ∧ (((∀ p, inside p → Anim.cellAt (Anim.cells s) p ≠ None) ∧ s' = s)
     ∨ (∃ p, inside p
             ∧ Anim.cellAt (Anim.cells s) p = None
             ∧ Anim.cellAt (Anim.cells s') p = Some (length (Anim.heap s))
             ∧ Anim.heap s' = Anim.heap s ++ [Anim.mkTile (if lt09 then 2 else 4) p.1 p.2]
             ∧ (∀ q, inside q → q ≠ p →
                     Anim.cellAt (Anim.cells s') q = Anim.cellAt (Anim.cells s) q)
             ∧ length (Anim.heap s) ∉ tileRefs (Anim.cells s))).
Proof.
  intros Hbd s'. destruct (spawnTile_boardOk k lt09 s Hbd) as (Hbd' & Hsc & Hpr).
  fold s' in Hbd', Hsc, Hpr. split; [done|]. split; [done|]. split; [done|].
  unfold s'. destruct (spawnTile_cases k lt09 s) as [[Hnil ->]|(r & c & Hel & ->)].
  - left. split; [|done]. intros p Hp. by apply emptyCells_nil.
  - right. apply emptyCells_elem in Hel as (Hr & Hc & Hnone).
    exists (Z.of_nat r, Z.of_nat c). simpl.
    pose proof (inside_nat r c Hr Hc) as Hin.
    split; [done|]. split; [done|].
    split; [by apply cellAt_setCell_eq; [apply Hbd|]|]. split; [done|]. split.
    + intros q Hq Hne. by apply cellAt_setCell_ne.
    + intros Hel. apply (boardOk_allocated _ _ _ Hbd) in Hel. lia.
Qed.

Lemma X8_anim_spawnTile_witness :
  let s := Anim.restartGame 3 true 7 false in
  boardOk (Anim.cells (Anim.spawnTile 4 false s)) (Anim.heap (Anim.spawnTile 4 false s))
  ∧ Anim.score (Anim.spawnTile 4 false s) = Anim.score s.
Proof.
  intros s.
  destruct (X8_anim_spawnTile 4%nat false s
              (proj1 (reachable_Inv s (reach_spawn _ _ _ (reach_spawn _ _ _ reach_created)))))
    as (Hbd & Hsc & _).
  split; [exact Hbd|exact Hsc].
Defined.

(** X9 ([restartGame] and [setupBoard] of the animated version).  Whatever
    the random numbers, the new game satisfies the invariant, has score 0,
    holds exactly two tiles, each a 2 or a 4 as its random number decides,
    and is not over. *)
Theorem X9_anim_restartGame (k1 : nat) (b1 : bool) (k2 : nat) (b2 : bool) :
  let s := Anim.restartGame k1 b1 k2 b2 in
  Inv s
  ∧ Anim.score s = 0
  ∧ valuesOn (Anim.cells s) (Anim.heap s) ≡ₚ [if b2 then 2 else 4; if b1 then 2 else 4]
  ∧ Anim.checkGameOver s = false.
Proof.
  intros s. destruct (restartGame_values k1 b1 k2 b2) as (_ & Hs & Hinv).
  destruct (anim_restartGame_tiles k1 b1 k2 b2) as (Hv & Hover).
  destruct (redraw_restartGame_tiles k1 b1 k2 b2) as (H0 & _).
  split; [done|]. split; [unfold s; by rewrite Hs|]. done.
Qed.

(** X10 (game over and the moves that are left, animated version, on a
    board that satisfies the board invariant).  When [checkGameOver]
    answers true, [move] leaves the state as it is, whatever the direction
    and the random numbers.  When it answers false and the board holds a
    tile, the scan of [move] finds a change for one of the four
    directions. *)
Theorem X10_anim_game_over (s : Anim.State) :
  boardOk (Anim.cells s) (Anim.heap s) →
  (Anim.checkGameOver s = true → ∀ d k lt09, Anim.move d k lt09 s = s)
  ∧ (Anim.checkGameOver s = false →
     (∃ p t, inside p ∧ Anim.cellAt (Anim.cells s) p = Some t) →
     ∃ dir, Anim.hasMoved (Anim.scan (key dir) (Anim.setProcessing true s)) = true).
Proof.
  intros Hbd. split.
  - intros Hover d k lt09. by apply anim_gameOver_move.
  - by apply anim_not_over_move.
Qed.

Lemma X10_anim_game_over_witness :
  let s := board [[2; 4; 2; 4]; [4; 2; 4; 2]; [2; 4; 2; 4]; [4; 2; 4; 2]] 20 in
  Anim.checkGameOver s = true ∧ Anim.move "ArrowDown" 0 true s = s.
Proof.
  intros s.
  assert (boardOk (Anim.cells s) (Anim.heap s)) as Hbd.
  { split; [split; [reflexivity|repeat (apply Forall_cons_2; [reflexivity|]);
                                apply Forall_nil_2]|].
    split; [refine (bool_decide_unpack _ _); vm_compute; exact I|].
    intros [r c] t [Hr Hc] Hcell. unfold SIZE in Hr, Hc. simpl in Hr, Hc.
    assert (r = 0 ∨ r = 1 ∨ r = 2 ∨ r = 3) as Hrs by lia.
    assert (c = 0 ∨ c = 1 ∨ c = 2 ∨ c = 3) as Hcs by lia.
    destruct Hrs as [-> | [-> | [-> | ->]]], Hcs as [-> | [-> | [-> | ->]]];
      vm_compute in Hcell; injection Hcell as <-;
      (split; [reflexivity|]);
      first [ exists 1%nat; split; [lia|reflexivity]
            | exists 2%nat; split; [lia|reflexivity] ]. }
  destruct (X10_anim_game_over s Hbd) as (Hstuck & _).
  split; [reflexivity|]. exact (Hstuck eq_refl "ArrowDown" 0%nat true).
Defined.

(** X11 (the two game-over tests).  On a board that satisfies the board
    invariant, [checkGameOver] of the animated version gives the answer
    that [isGameOver] of the full-redraw version gives on the grid of the
    numbers of the board. *)
Theorem X11_game_over_tests_agree (s : Anim.State) :
  boardOk (Anim.cells s) (Anim.heap s) →
  Anim.checkGameOver s = Redraw.isGameOver (Anim.values s).
Proof.
  intros Hbd. apply checkGameOver_values; [apply Hbd|by apply boardOk_tilesNonzero].
Qed.

Lemma X11_game_over_tests_agree_witness :
  let s := Anim.move "ArrowLeft" 5 true (Anim.restartGame 3 true 7 false) in
  Anim.checkGameOver s = Redraw.isGameOver (Anim.values s).
Proof.
  intros s.
  exact (X11_game_over_tests_agree s
           (proj1 (reachable_Inv s
                     (reach_move _ _ _ _
                        (reach_spawn _ _ _ (reach_spawn _ _ _ reach_created)))))).
Defined.

(** X12 ([spawnTile] and [restartGame] in the two versions).  On a board
    that satisfies the board invariant and with the same random numbers,
    [spawnTile] of the animated version fills the cell that [spawnTile] of
    the full-redraw version fills on the grid of the numbers of the board,
    with the same number; and the two [restartGame] create the same grid
    and score. *)
Theorem X12_spawn_agree (k : nat) (lt09 : bool) (s : Anim.State) :
  boardOk (Anim.cells s) (Anim.heap s) →
  Anim.values (Anim.spawnTile k lt09 s)
  = Redraw.grid (Redraw.spawnTile k lt09 (Redraw.mkState (Anim.values s) (Anim.score s)))
  ∧ Anim.emptyCells (Anim.cells s) = Redraw.emptyCells (Anim.values s)
  ∧ (∀ k1 b1 k2 b2,
       Anim.values (Anim.restartGame k1 b1 k2 b2)
       = Redraw.grid (Redraw.restartGame k1 b1 k2 b2)
       ∧ Anim.score (Anim.restartGame k1 b1 k2 b2)
         = Redraw.score (Redraw.restartGame k1 b1 k2 b2)).
Proof.
  intros Hbd. split; [by apply spawnTile_values_grid|]. split.
  - apply emptyCells_values; [apply Hbd|by apply boardOk_tilesNonzero].
  - intros k1 b1 k2 b2. by destruct (restartGame_values k1 b1 k2 b2) as (? & ? & _).
Qed.

Lemma X12_spawn_agree_witness :
  let s := Anim.restartGame 3 true 7 false in
  Anim.values (Anim.spawnTile 6 true s)
  = Redraw.grid (Redraw.spawnTile 6 true (Redraw.mkState (Anim.values s) (Anim.score s))).
Proof.
  intros s.
  destruct (X12_spawn_agree 6%nat true s
              (proj1 (reachable_Inv s (reach_spawn _ _ _ (reach_spawn _ _ _ reach_created)))))
    as (H & _).
  exact H.
Defined.

(** X13 (a move in the two versions).  In a state of the animated version
    that satisfies the invariant, and on the grid and score that it shows:
    for every direction the merges of the animated version give the grid
    and the score that the four branches of the full-redraw version
    compute; for the directions left, up and down the whole [move], with
    the same random numbers, ends with the same grid and score in both
    versions. *)
Theorem X13_move_agree (dir : Dir) (k : nat) (lt09 : bool) (s : Anim.State) :
  Inv s →
  let sc := Anim.scan (key dir) (Anim.setProcessing true s) in
  let acc := Redraw.resolve (key dir) (Redraw.mkState (Anim.values s) (Anim.score s)) in
  Anim.values (Anim.settle sc) = Redraw.newGrid acc
  ∧ Anim.score (Anim.settle sc) = Redraw.sc acc
  ∧ (dir ≠ Right →
     Anim.values (Anim.move (key dir) k lt09 s)
     = Redraw.grid (Redraw.move (key dir) k lt09
                      (Redraw.mkState (Anim.values s) (Anim.score s)))
     ∧ Anim.score (Anim.move (key dir) k lt09 s)
       = Redraw.score (Redraw.move (key dir) k lt09
                         (Redraw.mkState (Anim.values s) (Anim.score s)))).
Proof.
  intros Hinv sc acc.
  assert (boardOk (Anim.cells (Anim.setProcessing true s))
            (Anim.heap (Anim.setProcessing true s))) as Hbd1
    by (apply boardOk_setProcessing, Hinv).
  split; [|split].
  - unfold sc, acc. rewrite (versions_same_grid dir _ (Anim.score s)) by done.
    by rewrite values_setProcessing.
  - unfold sc, acc. rewrite (settle_score dir _ (Anim.score s)) by done.
    rewrite values_setProcessing. simpl. lia.
  - intros Hdir. by apply move_values_three.
Qed.

Lemma X13_move_agree_witness :
  let s := Anim.restartGame 3 true 7 false in
  Anim.values (Anim.settle (Anim.scan "ArrowRight" (Anim.setProcessing true s)))
  = Redraw.newGrid (Redraw.resolve "ArrowRight"
                      (Redraw.mkState (Anim.values s) (Anim.score s))).
Proof.
  intros s.
  destruct (X13_move_agree Right 0%nat true s
              (reachable_Inv s (reach_spawn _ _ _ (reach_spawn _ _ _ reach_created))))
    as (H & _).
  exact H.
Defined.

(** X14 (a game in the two versions).  Both versions start a game with
    [restartGame] and the same random numbers, the animated version with no
    call of [move] suspended.  The same keys are pressed, none of them the
    right arrow, and no key is pressed during the animation of a move: in
    the animated version the timer of the move of a key fires before the
    next key is pressed.  The moves draw the same random numbers.  Then
    after every key and its move no call is suspended in the animated
    version, and the two versions hold the same grid and the same score.
    (A key pressed during the animation is dropped by the animated version
    and handled by the other.) *)
Theorem X14_play_agree (k1 : nat) (b1 : bool) (k2 : nat) (b2 : bool) (ps : list Press) :
  Forall (fun p => pressed p ≠ "ArrowRight") ps →
  let a := AnimAsync.run (AnimAsync.unhurried ps)
             (AnimAsync.mkState (Anim.restartGame k1 b1 k2 b2) []) in
  let r := redrawPlay (Redraw.restartGame k1 b1 k2 b2) ps in
  AnimAsync.suspended a = []
  ∧ Anim.values (AnimAsync.game a) = Redraw.grid r
  ∧ Anim.score (AnimAsync.game a) = Redraw.score r.
Proof.
  intros Hps. destruct (restartGame_values k1 b1 k2 b2) as (Hg & Hs & Hinv).
  by destruct (unhurried_values ps _ _ Hinv Hg Hs Hps) as (? & ? & ? & _).
Qed.

Lemma X14_play_agree_witness :
  let ps := [mkPress "ArrowLeft" 1 true; mkPress "ArrowUp" 2 false; mkPress "x" 0 true;
             mkPress "ArrowDown" 0 true] in
  let a := AnimAsync.run (AnimAsync.unhurried ps)
             (AnimAsync.mkState (Anim.restartGame 3 true 7 false) []) in
  let r := redrawPlay (Redraw.restartGame 3 true 7 false) ps in
  AnimAsync.suspended a = []
  ∧ Anim.values (AnimAsync.game a) = Redraw.grid r
  ∧ Anim.score (AnimAsync.game a) = Redraw.score r.
Proof.
  intros ps. apply (X14_play_agree 3%nat true 7%nat false ps).
  repeat (apply Forall_cons_2; [discriminate|]). apply Forall_nil_2.
Defined.

(** X15 (the tile objects of a move, animated version, in a state that
    satisfies the invariant).  The scan and the merges create no [Tile]:
    the tiles on the board after the merges, together with the moving tile
    of every merge, are the tiles that were on the board before the move.
    The moving tile of a merge is not on the board any more and the tile it
    slid onto is. *)
Theorem X15_tiles_of_a_move (direction : string) (s : Anim.State) :
  boardOk (Anim.cells s) (Anim.heap s) →
  let sc := Anim.scan direction s in
  let s1 := Anim.settle sc in
  tileRefs (Anim.cells s1) ++ map Anim.from (Anim.promises sc) ≡ₚ tileRefs (Anim.cells s)
  ∧ length (Anim.heap s1) = length (Anim.heap s)
  ∧ (∀ m, m ∈ Anim.promises sc →
          (Anim.from m ∉ tileRefs (Anim.cells s1))
          ∧ Anim.into m ∈ tileRefs (Anim.cells s1)).
Proof.
  intros Hbd sc s1.
  destruct (settle_cells direction s Hbd) as (Hc & Hlen & _).
  fold sc in Hc, Hlen. fold s1 in Hc, Hlen.
  pose proof (scan_refs direction s Hbd) as Hrefs. fold sc in Hrefs.
  split; [by rewrite Hc|]. split; [done|].
  intros m Hm. split.
  - rewrite Hc.
    assert (NoDup (tileRefs (Anim.cells (Anim.st sc)) ++ map Anim.from (Anim.promises sc)))
      as Hnd by (rewrite Hrefs; apply Hbd).
    apply NoDup_app in Hnd as (_ & Hdisj & _). intros Hel. apply (Hdisj _ Hel).
    apply list_elem_of_fmap. by exists m.
  - by destruct (settle_scan direction s Hbd) as (_ & _ & _ & Hms & _), (Hms m Hm) as (_ & _ & ?).
Qed.

Lemma X15_tiles_of_a_move_witness :
  let s := Anim.restartGame 3 true 7 false in
  let sc := Anim.scan "ArrowUp" s in
  tileRefs (Anim.cells (Anim.settle sc)) ++ map Anim.from (Anim.promises sc)
  ≡ₚ tileRefs (Anim.cells s)
  ∧ length (Anim.heap (Anim.settle sc)) = length (Anim.heap s).
Proof.
  intros s sc.
  destruct (X15_tiles_of_a_move "ArrowUp" s
              (proj1 (reachable_Inv s (reach_spawn _ _ _ (reach_spawn _ _ _ reach_created)))))
    as (H1 & H2 & _).
  split; [exact H1|exact H2].
Defined.

(** X16 (the page of the full-redraw version).  On every page of a game,
    from the load of the script on, after any key presses and restarts: the
    tile elements on the board are, each once, the elements that
    [createTileElement] and [updateVisuals] build for the cells of the grid
    that are not empty, with the number of the cell as text and the
    position of the cell; every one of them lies on a background cell; the
    score display shows the score; and the grid and score are those of a
    game of the script. *)
Theorem X16_redraw_page (p : RedrawPage.State) :
  RedrawPage.reachable p →
  let g := Redraw.grid (RedrawPage.game p) in
  NoDup (RedrawPage.board p)
  ∧ (∀ e, e ∈ RedrawPage.board p ↔
          ∃ r c, (r < SIZE)%nat ∧ (c < SIZE)%nat ∧ Redraw.at2 g r c ≠ 0
                 ∧ e = RedrawPage.tileAt r c (Redraw.at2 g r c))
  ∧ (∀ e, e ∈ RedrawPage.board p →
          (RedrawPage.top e, RedrawPage.left e) ∈ RedrawPage.background p)
  ∧ RedrawPage.scoreDisplay p = Redraw.score (RedrawPage.game p)
  ∧ redrawReachable (RedrawPage.game p).
Proof.
  intros Hp g. destruct (redrawPage_reachable_ok p Hp) as (Hb & Hd & Hbg).
  fold g in Hb.
  assert (∀ e, e ∈ RedrawPage.board p ↔
               ∃ r c, (r < SIZE)%nat ∧ (c < SIZE)%nat ∧ Redraw.at2 g r c ≠ 0
                      ∧ e = RedrawPage.tileAt r c (Redraw.at2 g r c)) as Hel.
  { intros e. rewrite Hb. apply drawn_elem. }
  split; [rewrite Hb; apply drawn_NoDup|]. split; [done|]. split; [|split; [done|]].
  - intros e He. apply Hel in He as (r & c & Hr & Hc & _ & ->). rewrite Hbg.
    by apply gridCells_elem.
  - by apply redrawPage_reachable_game.
Qed.

Lemma X16_redraw_page_witness :
  let p0 := RedrawPage.mkState (Redraw.mkState [] 0) [] [] [] 0 in
  let p := RedrawPage.keydown "ArrowDown" 2 true
             (RedrawPage.restartGame 3 true 7 false (RedrawPage.setupBoard p0)) in
  NoDup (RedrawPage.board p)
  ∧ RedrawPage.scoreDisplay p = Redraw.score (RedrawPage.game p).
Proof.
  intros p0 p.
  destruct (X16_redraw_page p
              (RedrawPage.reach_key "ArrowDown" 2%nat true _
                 (RedrawPage.reach_load 3%nat true 7%nat false p0)))
    as (H1 & _ & _ & H2 & _).
  split; [exact H1|exact H2].
Defined.

(** X17 (the page of the animated version).  The script is loaded; keys
    are pressed, also during the animation of a move; the timers of the
    moves fire; [restartGame] is called, but never while a call of [move]
    is suspended.  Then whenever no call of [move] is suspended: the
    elements attached to the board are, each once, those of the tiles of
    the board, so that no element of a merged tile is left and none is
    missing; the element of the tile of a cell shows a power of two at the
    position of that cell, on a background cell; and the score display
    shows the score once the script has written it, before which the score
    is 0.  (A [restartGame] during the animation of a move breaks this:
    see [restart_during_move].) *)
Theorem X17_anim_page (k1 : nat) (b1 : bool) (k2 : nat) (b2 : bool)
    (es : list AnimLoop.Event) :
  AnimLoop.restartsWhenIdle es (AnimLoop.load k1 b1 k2 b2) = true →
  AnimLoop.suspended (AnimLoop.run es (AnimLoop.load k1 b1 k2 b2)) = [] →
  let p := AnimLoop.page (AnimLoop.run es (AnimLoop.load k1 b1 k2 b2)) in
  let s := AnimPage.game p in
  NoDup (AnimPage.attached p)
  ∧ (∀ t, t ∈ AnimPage.attached p ↔
          ∃ q, inside q ∧ Anim.cellAt (Anim.cells s) q = Some t)
  ∧ (∀ q t, inside q → Anim.cellAt (Anim.cells s) q = Some t →
            ∃ v, AnimPage.shown s t = Some (offset q.1, offset q.2, v)
                 ∧ pow2 v
                 ∧ (offset q.1, offset q.2) ∈ AnimPage.background p)
  ∧ (AnimPage.scoreDisplay p = Some (Anim.score s)
     ∨ (AnimPage.scoreDisplay p = None ∧ Anim.score s = 0))
  ∧ Inv s.
Proof.
  intros Hes Hidle p s.
  pose proof (loopOk_run es _ Hes (loopOk_load k1 b1 k2 b2)) as Hok.
  unfold loopOk in Hok. rewrite Hidle in Hok.
  destruct Hok as (Hinv & Hatt & Hbg & Hd).
  fold p in Hinv, Hatt, Hbg, Hd. fold s in Hinv, Hatt, Hd.
  pose proof Hinv as ((Hwf & Hnd & Hpos) & _).
  split; [by rewrite Hatt|]. split; [|split; [|done]].
  - intros t. rewrite Hatt. split.
    + by apply tileRefs_cellAt.
    + intros (q & Hq & Hc). by eapply cellAt_tileRefs.
  - intros q t Hq Hc. destruct (Hpos q t Hq Hc) as [Hpo Hpw].
    unfold posOf, Anim.valueOf, AnimPage.shown in *.
    destruct (Anim.heap s !! t) as [tile|]; [|done]. simpl in *.
    exists (Anim.value tile). simplify_eq. simpl. split; [done|]. split; [done|].
    rewrite Hbg. destruct Hq as [Hr Hcq]. simpl in Hr, Hcq.
    rewrite <- (Z2Nat.id (Anim.tr tile)), <- (Z2Nat.id (Anim.tc tile)) by lia.
    apply gridCells_elem; lia.
Qed.

Lemma X17_anim_page_witness :
  let es := [AnimLoop.Key "ArrowLeft"; AnimLoop.Key "ArrowUp"; AnimLoop.Timer 0 false;
             AnimLoop.Key "ArrowUp"; AnimLoop.Timer 0 true;
             AnimLoop.Restart 1 true 1 true; AnimLoop.Key "ArrowDown";
             AnimLoop.Timer 2 true] in
  let p := AnimLoop.page (AnimLoop.run es (AnimLoop.load 3 true 7 false)) in
  NoDup (AnimPage.attached p)
  ∧ (∀ t, t ∈ AnimPage.attached p ↔
          ∃ q, inside q ∧ Anim.cellAt (Anim.cells (AnimPage.game p)) q = Some t).
Proof.
  intros es p.
  destruct (X17_anim_page 3%nat true 7%nat false es eq_refl eq_refl) as (H1 & H2 & _).
  split; [exact H1|exact H2].
Defined.

(** X18 (key presses during the animation, animated version).  A call of
    [move] that finds a change is suspended while the tiles slide.  Every
    key pressed in between is dropped: its call of [move] returns at once
    and changes nothing.  When the timer fires, the suspended call ends in
    the state that [Anim.move] gives, with no call left suspended.  A call
    that finds no change ends at once, in the state that [Anim.move]
    gives. *)
Theorem X18_keys_during_animation (direction : string) (k : nat) (lt09 : bool)
    (g : Anim.State) (keys : list string) :
  Anim.isProcessing g = false →
  let sc := Anim.scan direction (Anim.setProcessing true g) in
  let p1 := AnimAsync.start direction (AnimAsync.mkState g []) in
  (Anim.hasMoved sc = true →
   p1 = AnimAsync.mkState (Anim.st sc) [Anim.promises sc]
   ∧ AnimAsync.presses keys p1 = p1
   ∧ AnimAsync.resume k lt09 (AnimAsync.presses keys p1)
     = AnimAsync.mkState (Anim.move direction k lt09 g) [])
  ∧ (Anim.hasMoved sc = false →
     p1 = AnimAsync.mkState (Anim.move direction k lt09 g) []).
Proof.
  intros Hp sc p1. unfold sc, p1, AnimAsync.start, Anim.move. simpl. rewrite Hp.
  split; intros Hm; rewrite Hm; [|done].
  split; [done|].
  rewrite async_presses_suspended by (simpl; by rewrite scan_isProcessing).
  done.
Qed.

Lemma X18_keys_during_animation_witness :
  let g := Anim.restartGame 0 true 0 true in
  let p1 := AnimAsync.start "ArrowRight" (AnimAsync.mkState g []) in
  Anim.hasMoved (Anim.scan "ArrowRight" (Anim.setProcessing true g)) = true
  ∧ AnimAsync.resume 4 false
      (AnimAsync.presses ["ArrowLeft"; "ArrowUp"; "ArrowLeft"] p1)
    = AnimAsync.mkState (Anim.move "ArrowRight" 4 false g) [].
Proof.
  intros g p1.
  destruct (X18_keys_during_animation "ArrowRight" 4%nat false g
              ["ArrowLeft"; "ArrowUp"; "ArrowLeft"] eq_refl) as (Hmoved & _).
  assert (Anim.hasMoved (Anim.scan "ArrowRight" (Anim.setProcessing true g)) = true) as Hm
    by (vm_compute; reflexivity).
  split; [exact Hm|]. exact (proj2 (proj2 (Hmoved Hm))).
Defined.

(** X19 (the change flag of the full-redraw version for the right arrow,
    on a 4x4 grid).  After the branch for [ArrowRight], [hasMoved] is true
    exactly when the new grid differs from the mirror image of the old
    grid, left and right swapped: the branch compares each new row with the
    old row reversed. *)
Theorem X19_right_flag (g : list (list Z)) (score : Z) :
  wf g →
  let acc := Redraw.resolve "ArrowRight" (Redraw.mkState g score) in
  Redraw.hasMoved acc = true ↔ Redraw.newGrid acc ≠ mirrorH g.
Proof.
  intros Hwf.
  destruct (wf_shape g Hwf)
    as (a0&a1&a2&a3&b0&b1&b2&b3&c0&c1&c2&c3&d0&d1&d2&d3&->).
  change "ArrowRight" with (key Right).
  grid_cbn; resolve_steps; rewrite ?differ4; split.
  - intros Hm Heq. simplify_eq. lia.
  - intros Hne. apply not_false_iff_true. intros Hm. apply Hne.
    repeat f_equal; lia.
Qed.

Lemma X19_right_flag_witness :
  let g := [[2; 0; 0; 2]; [0; 4; 4; 0]; [0; 0; 0; 0]; [8; 0; 0; 8]] in
  let acc := Redraw.resolve "ArrowRight" (Redraw.mkState g 0) in
  Redraw.hasMoved acc = true ↔ Redraw.newGrid acc ≠ mirrorH g.
Proof.
  intros g.
  assert (wf g) as Hwf
    by (split; [reflexivity|repeat (apply Forall_cons_2; [reflexivity|]); apply Forall_nil_2]).
  exact (X19_right_flag g 0 Hwf).
Defined.

(** * The loops of [move] in the animated version *)

Lemma farthest_inside fuel d cs h fs tile p :
  inside p → inside (Anim.farthest fuel d cs h fs tile p).
Proof.
  intros Hp. destruct (farthest_cases fuel d cs h fs tile p) as [->|[Hq _]]; done.
Qed.

Lemma scanOrder_all d :
  NoDup (Anim.scanOrder d) ∧ ∀ q, q ∈ Anim.scanOrder d ↔ inside q.
Proof.
  split.
  - unfold Anim.scanOrder.
    destruct (String.eqb d "ArrowRight"), (String.eqb d "ArrowDown");
      refine (bool_decide_unpack _ _); vm_compute; exact I.
  - intros q. split.
    + intros Hq. pose proof (scanOrder_inside d) as Hall.
      rewrite Forall_forall in Hall. by apply Hall.
    + destruct q as [r c]. unfold inside, SIZE. simpl. intros [Hr Hc].
      assert (r = 0 ∨ r = 1 ∨ r = 2 ∨ r = 3) as Hrs by lia.
      assert (c = 0 ∨ c = 1 ∨ c = 2 ∨ c = 3) as Hcs by lia.
      unfold Anim.scanOrder.
      destruct (String.eqb d "ArrowRight"), (String.eqb d "ArrowDown");
        destruct Hrs as [-> | [-> | [-> | ->]]], Hcs as [-> | [-> | [-> | ->]]];
        apply (bool_decide_unpack _); vm_compute; exact I.
Qed.

(** X20 (the loops of [move], animated version).  For every direction
    string the two [for] loops visit every cell of the board, each once,
    and make [SIZE] passes each.  The [while (true)] loop that looks for
    the farthest position of a tile of the board ends within [SIZE] passes
    (more passes give the same result), and the position it ends on is a
    cell of the board. *)
Theorem X20_loops_of_move (d : string) (cs : list (list (option Anim.ref)))
    (h : list Anim.Tile) (fs : list (list bool)) (tile : Anim.ref) (p : Z * Z) (n : nat) :
  inside p → Anim.cellAt cs p ≠ None →
  Anim.farthest (SIZE + n) d cs h fs tile p = Anim.farthest SIZE d cs h fs tile p
  ∧ inside (Anim.farthest SIZE d cs h fs tile p)
  ∧ NoDup (Anim.scanOrder d)
  ∧ (∀ q, q ∈ Anim.scanOrder d ↔ inside q)
  ∧ Anim.loopRange (SIZE + n) 0 (Z.of_nat SIZE) 1 = Anim.loopRange SIZE 0 (Z.of_nat SIZE) 1
  ∧ Anim.loopRange (SIZE + n) (Z.of_nat SIZE - 1) (-1) (-1)
    = Anim.loopRange SIZE (Z.of_nat SIZE - 1) (-1) (-1).
Proof.
  intros Hp Hocc. split; [by apply farthest_fuel|]. split; [by apply farthest_inside|].
  destruct (scanOrder_all d) as [Hnd Hall]. split; [done|]. split; [done|].
  apply loopRange_fuel.
Qed.

Lemma X20_loops_of_move_witness :
  let s := Anim.restartGame 0 true 0 true in
  Anim.farthest (SIZE + 7) "ArrowRight" (Anim.cells s) (Anim.heap s)
    (replicate SIZE (replicate SIZE false)) 0 (0, 0)
  = Anim.farthest SIZE "ArrowRight" (Anim.cells s) (Anim.heap s)
      (replicate SIZE (replicate SIZE false)) 0 (0, 0)
  ∧ inside (Anim.farthest SIZE "ArrowRight" (Anim.cells s) (Anim.heap s)
              (replicate SIZE (replicate SIZE false)) 0 (0, 0)).
Proof.
  intros s.
  assert (inside (0, 0)) as Hin by (unfold inside, SIZE; simpl; lia).
  assert (Anim.cellAt (Anim.cells s) (0, 0) ≠ None) as Hocc by discriminate.
  destruct (X20_loops_of_move "ArrowRight" (Anim.cells s) (Anim.heap s)
              (replicate SIZE (replicate SIZE false)) 0%nat (0, 0) 7%nat Hin Hocc)
    as (H1 & H2 & _).
  split; [exact H1|exact H2].
Defined.

(** * No number is lost *)

Lemma nonzero_elem x l : x ∈ Redraw.nonzero l ↔ x ∈ l ∧ x ≠ 0.
Proof.
  unfold Redraw.nonzero. rewrite !list_elem_of_In, filter_In.
  destruct (Z.eqb_spec x 0); simpl; split; intros [? ?]; done.
Qed.

Lemma slideRow4_keeps a b c d x :
  x ∈ [a; b; c; d] → x ≠ 0 →
  x ∈ slideRow [a; b; c; d] ∨ x * 2 ∈ slideRow [a; b; c; d].
Proof.
  intros Hx Hne. destruct (slide_merges a b c d) as (vs & Hperm & _ & Hsub).
  assert (x ∈ Redraw.nonzero (slideRow [a; b; c; d]) ++ vs ++ vs) as Hel.
  { rewrite Hperm. apply elem_of_app. left. by apply nonzero_elem. }
  apply elem_of_app in Hel as [Hel|Hel]; [left; by apply nonzero_elem in Hel as [? _]|].
  right.
  assert (x ∈ vs) as Hvs by (apply elem_of_app in Hel as [?|?]; done).
  assert (x * 2 ∈ Redraw.nonzero (slideRow [a; b; c; d])) as H2.
  { eapply elem_of_submseteq; [|exact Hsub].
    apply list_elem_of_fmap. by exists x. }
  by apply nonzero_elem in H2 as [? _].
Qed.

Lemma lines_Permutation dir g : wf g → concat (lines dir g) ≡ₚ concat g.
Proof.
  intros Hwf.
  destruct (wf_shape g Hwf)
    as (a0&a1&a2&a3&b0&b1&b2&b3&c0&c1&c2&c3&d0&d1&d2&d3&->).
  destruct dir; simpl; solve_Permutation.
Qed.

(** Every number of the grid is on the grid that a move computes, or its
    double is. *)
Lemma resolve_keeps dir g s x :
  wf g → x ∈ concat g → x ≠ 0 →
  let g' := Redraw.newGrid (Redraw.resolve (key dir) (Redraw.mkState g s)) in
  x ∈ concat g' ∨ x * 2 ∈ concat g'.
Proof.
  intros Hwf Hx Hne g'.
  assert (wf g') as Hwf'.
  { unfold g'. destruct (resolve_lines dir g s Hwf) as [-> _]. by apply lines_slide_wf. }
  assert (concat g' ≡ₚ concat (map slideRow (lines dir g))) as Hperm.
  { rewrite <- (lines_Permutation dir g' Hwf'). unfold g'.
    destruct (resolve_lines dir g s Hwf) as [-> _]. by rewrite lines_unlines_slide. }
  rewrite Hperm. rewrite <- (lines_Permutation dir g Hwf) in Hx.
  apply list_elem_of_In, in_concat in Hx as (line & Hline & Hx).
  apply list_elem_of_In in Hline, Hx.
  assert (x ∈ slideRow line ∨ x * 2 ∈ slideRow line) as [H|H].
  { apply list_elem_of_lookup in Hline as [i Hi].
    assert (i < SIZE)%nat as Hlt.
    { rewrite <- (lines_length dir g Hwf). by eapply lookup_lt_Some. }
    rewrite (lines_lookup dir g i Hwf Hlt) in Hi. simplify_eq.
    unfold indices, SIZE in *. cbn [seq map] in *. by apply slideRow4_keeps. }
  - left. apply list_elem_of_In, in_concat. exists (slideRow line).
    split; apply list_elem_of_In; [|done]. apply list_elem_of_fmap. by exists line.
  - right. apply list_elem_of_In, in_concat. exists (slideRow line).
    split; apply list_elem_of_In; [|done]. apply list_elem_of_fmap. by exists line.
Qed.

Lemma redraw_spawnTile_keeps k lt09 st x :
  wf (Redraw.grid st) → x ∈ concat (Redraw.grid st) → x ≠ 0 →
  x ∈ concat (Redraw.grid (Redraw.spawnTile k lt09 st)).
Proof.
  intros Hwf Hx Hne.
  destruct (redraw_spawnTile_effect k lt09 st Hwf)
    as (_ & _ & [[_ ->]|(r & c & _ & _ & _ & _ & _ & Hperm)]); [done|].
  assert (x ∈ Redraw.nonzero (concat (Redraw.grid (Redraw.spawnTile k lt09 st)))) as H.
  { rewrite Hperm. right. by apply nonzero_elem. }
  by apply nonzero_elem in H as [? _].
Qed.

Lemma redraw_move_keeps d k lt09 st x :
  wf (Redraw.grid st) → x ∈ concat (Redraw.grid st) → x ≠ 0 →
  let g' := Redraw.grid (Redraw.move d k lt09 st) in
  x ∈ concat g' ∨ x * 2 ∈ concat g'.
Proof.
  destruct st as [g s]. simpl. intros Hwf Hx Hne. unfold Redraw.move.
  destruct (Redraw.hasMoved _) eqn:Hm; [|by left].
  destruct (validDirection_dec d) as [Hd|Hd].
  2: { rewrite resolve_invalid in Hm by done. done. }
  apply validDirection_key in Hd as [dir ->].
  assert (wf (Redraw.newGrid (Redraw.resolve (key dir) (Redraw.mkState g s)))) as Hwf'.
  { destruct (resolve_lines dir g s Hwf) as [-> _]. by apply lines_slide_wf. }
  assert (∀ y, y ≠ 0 →
               y ∈ concat (Redraw.newGrid (Redraw.resolve (key dir) (Redraw.mkState g s))) →
               y ∈ concat (Redraw.grid (Redraw.spawnTile k lt09
                       {| Redraw.grid :=
                            Redraw.newGrid (Redraw.resolve (key dir) (Redraw.mkState g s));
                          Redraw.score :=
                            Redraw.sc (Redraw.resolve (key dir) (Redraw.mkState g s)) |})))
    as Hspawn.
  { intros y Hy Hel. by apply redraw_spawnTile_keeps. }
  destruct (resolve_keeps dir g s x Hwf Hx Hne) as [H|H]; [left|right];
    apply Hspawn; (done || lia).
Qed.

Lemma anim_move_keeps d k lt09 s x :
  Inv s → x ∈ valuesOn (Anim.cells s) (Anim.heap s) →
  let s' := Anim.move d k lt09 s in
  x ∈ valuesOn (Anim.cells s') (Anim.heap s')
  ∨ x * 2 ∈ valuesOn (Anim.cells s') (Anim.heap s').
Proof.
  intros (Hbd & Hsc & Hp) Hx s'. unfold s'.
  set (s1 := Anim.setProcessing true s).
  assert (boardOk (Anim.cells s1) (Anim.heap s1)) as Hbd1 by by apply boardOk_setProcessing.
  destruct (Anim.hasMoved (Anim.scan d s1)) eqn:Hm.
  2: { rewrite move_unchanged by done. by left. }
  rewrite move_changed by done. fold s1.
  destruct (settle_scan d s1 Hbd1) as (Hbd2 & _ & _ & Hms & Hperm & Hgap & _).
  destruct (spawnTile_values k lt09 _ Hbd2 (Hgap Hm)) as (v & _ & Hnew & Hkeep).
  change (valuesOn (Anim.cells (Anim.setProcessing false ?a))
            (Anim.heap (Anim.setProcessing false ?a)))
    with (valuesOn (Anim.cells a) (Anim.heap a)).
  rewrite Hnew.
  assert (x ∈ valuesOn (Anim.cells (Anim.settle (Anim.scan d s1)))
                (Anim.heap (Anim.settle (Anim.scan d s1)))
              ++ fromValues (Anim.heap s1) (Anim.promises (Anim.scan d s1))
              ++ fromValues (Anim.heap s1) (Anim.promises (Anim.scan d s1))) as Hel.
  { rewrite Hperm. apply elem_of_app. by left. }
  apply elem_of_app in Hel as [Hel|Hel]; [left; by right|]. right. right.
  assert (x ∈ fromValues (Anim.heap s1) (Anim.promises (Anim.scan d s1))) as Hvs
    by (apply elem_of_app in Hel as [?|?]; done).
  apply list_elem_of_fmap in Hvs as (m & -> & Hmm).
  destruct (Hms m Hmm) as (Heq & Hdbl & Hinto).
  apply list_elem_of_fmap. exists (Anim.into m). split; [|done].
  by rewrite Hdbl, Heq.
Qed.

(** X21 (no number is lost).  Every number that is on the board before a
    call of [move] is on the board after it, or its double is, whatever the
    direction and the random numbers: a tile leaves the board only by
    merging into a tile of twice its number.  Full-redraw version on a 4x4
    grid, animated version in a state that satisfies the invariant. *)
Theorem X21_no_number_is_lost (d : string) (k : nat) (lt09 : bool)
    (st : Redraw.State) (s : Anim.State) :
  wf (Redraw.grid st) → Inv s →
  (∀ x, x ∈ concat (Redraw.grid st) → x ≠ 0 →
        x ∈ concat (Redraw.grid (Redraw.move d k lt09 st))
        ∨ x * 2 ∈ concat (Redraw.grid (Redraw.move d k lt09 st)))
  ∧ (∀ x, x ∈ valuesOn (Anim.cells s) (Anim.heap s) →
          x ∈ valuesOn (Anim.cells (Anim.move d k lt09 s)) (Anim.heap (Anim.move d k lt09 s))
          ∨ x * 2 ∈ valuesOn (Anim.cells (Anim.move d k lt09 s))
                      (Anim.heap (Anim.move d k lt09 s))).
Proof.
  intros Hwf Hinv. split.
  - intros x Hx Hne. by apply redraw_move_keeps.
  - intros x Hx. by apply anim_move_keeps.
Qed.

Lemma X21_no_number_is_lost_witness :
  let st := Redraw.mkState [[2; 2; 4; 0]; [0; 0; 0; 0]; [0; 8; 0; 0]; [0; 0; 0; 0]] 0 in
  let s := Anim.restartGame 3 true 7 false in
  (∀ x, x ∈ concat (Redraw.grid st) → x ≠ 0 →
        x ∈ concat (Redraw.grid (Redraw.move "ArrowLeft" 1 true st))
        ∨ x * 2 ∈ concat (Redraw.grid (Redraw.move "ArrowLeft" 1 true st)))
  ∧ (∀ x, x ∈ valuesOn (Anim.cells s) (Anim.heap s) →
          x ∈ valuesOn (Anim.cells (Anim.move "ArrowLeft" 1 true s))
                (Anim.heap (Anim.move "ArrowLeft" 1 true s))
          ∨ x * 2 ∈ valuesOn (Anim.cells (Anim.move "ArrowLeft" 1 true s))
                      (Anim.heap (Anim.move "ArrowLeft" 1 true s))).
Proof.
  intros st s.
  assert (wf (Redraw.grid st)) as Hwf
    by (split; [reflexivity|repeat (apply Forall_cons_2; [reflexivity|]); apply Forall_nil_2]).
  exact (X21_no_number_is_lost "ArrowLeft" 1%nat true st s Hwf
           (reachable_Inv s (reach_spawn _ _ _ (reach_spawn _ _ _ reach_created)))).
Defined.

(** * Runs of the pages and of the event loop *)

Example redraw_page_run :
  let p0 := RedrawPage.mkState (Redraw.mkState [] 0) [] [] [] 7 in
  let p := RedrawPage.keydown "ArrowLeft" 0 false
             (RedrawPage.restartGame 3 true 7 false (RedrawPage.setupBoard p0)) in
  Redraw.grid (RedrawPage.game p) = [[2; 4; 0; 0]; [0; 0; 0; 0]; [4; 0; 0; 0]; [0; 0; 0; 0]]
  ∧ map RedrawPage.text (RedrawPage.board p) = [2; 4; 4]
  ∧ length (RedrawPage.tiles p) = 3%nat
  ∧ RedrawPage.scoreDisplay p = 0.
Proof. vm_compute. repeat split. Qed.

Example anim_page_run :
  let es := [AnimLoop.Key "ArrowLeft"; AnimLoop.Key "ArrowUp"; AnimLoop.Timer 0 false;
             AnimLoop.Key "ArrowUp"; AnimLoop.Timer 0 true] in
  let p := AnimLoop.run es (AnimLoop.load 3 true 7 false) in
  AnimLoop.suspended p = []
  ∧ Anim.values (AnimPage.game (AnimLoop.page p))
    = [[2; 4; 2; 0]; [4; 0; 0; 0]; [0; 0; 0; 0]; [0; 0; 0; 0]]
  ∧ AnimPage.attached (AnimLoop.page p) = [0; 1; 2; 3]%nat
  ∧ AnimPage.attached (AnimLoop.page (AnimLoop.restartGame 1 true 1 true p)) = [4; 5]%nat
  ∧ AnimPage.scoreDisplay (AnimLoop.page p) = Some 0.
Proof. vm_compute. repeat split. Qed.

(** [restartGame] called during the animation of a move that merges the
    two tiles of the board.  The new game starts with two tiles; when the
    timer fires, the suspended call puts the survivor of the old game into
    the corner, over a tile of the new game, and adds its number to the
    score.  The element of the survivor is not attached, and the element of
    the tile it has replaced still is. *)
Example restart_during_move :
  let es := [AnimLoop.Key "ArrowLeft"; AnimLoop.Restart 0 true 0 true; AnimLoop.Timer 0 true] in
  let p := AnimLoop.run es (AnimLoop.load 0 true 0 true) in
  AnimLoop.restartsWhenIdle es (AnimLoop.load 0 true 0 true) = false
  ∧ AnimLoop.suspended p = []
  ∧ Anim.values (AnimPage.game (AnimLoop.page p))
    = [[4; 2; 2; 0]; [0; 0; 0; 0]; [0; 0; 0; 0]; [0; 0; 0; 0]]
  ∧ tileRefs (Anim.cells (AnimPage.game (AnimLoop.page p))) = [0; 3; 4]%nat
  ∧ AnimPage.attached (AnimLoop.page p) = [2; 3; 4]%nat
  ∧ Anim.score (AnimPage.game (AnimLoop.page p)) = 4.
Proof. vm_compute. repeat split. Qed.

(** A second key pressed before the timer of the first move fires: the
    animated version drops it, the full-redraw version moves twice. *)
Example key_during_animation :
  let a := AnimAsync.run [AnimAsync.Key "ArrowLeft"; AnimAsync.Key "ArrowUp";
                          AnimAsync.Timer 1 true]
             (AnimAsync.mkState (Anim.restartGame 3 true 7 false) []) in
  let r := redrawPlay (Redraw.restartGame 3 true 7 false)
             [mkPress "ArrowLeft" 1 true; mkPress "ArrowUp" 1 true] in
  Anim.values (AnimAsync.game a) = [[2; 0; 2; 0]; [0; 0; 0; 0]; [4; 0; 0; 0]; [0; 0; 0; 0]]
  ∧ Redraw.grid r = [[2; 0; 2; 2]; [4; 0; 0; 0]; [0; 0; 0; 0]; [0; 0; 0; 0]].
Proof. vm_compute. repeat split. Qed.

Example async_run :
  let g := board [[2; 2; 0; 0]; [0; 0; 0; 0]; [0; 0; 0; 0]; [0; 0; 0; 0]] 0 in
  let p1 := AnimAsync.start "ArrowLeft" (AnimAsync.mkState g []) in
  let p2 := AnimAsync.resume 0 true (AnimAsync.presses ["ArrowRight"; "a"; "ArrowDown"] p1) in
  Anim.values (AnimAsync.game p1) = [[2; 0; 0; 0]; [0; 0; 0; 0]; [0; 0; 0; 0]; [0; 0; 0; 0]]
  ∧ AnimAsync.suspended p1 = [[Anim.mkMerge 1 0 0 0]]
  ∧ Anim.values (AnimAsync.game p2) = [[4; 2; 0; 0]; [0; 0; 0; 0]; [0; 0; 0; 0]; [0; 0; 0; 0]]
  ∧ Anim.score (AnimAsync.game p2) = 4
  ∧ AnimAsync.suspended p2 = [].
Proof. vm_compute. repeat split. Qed.
